(** * pg_ivm.c: the order-enforcement bracket around query execution

    A shallow embedding of the executor and utility hooks of [pg_ivm.c]
    (the scheduler that registers a query, waits for admission, takes the
    exclusive locks of the base tables behind the affected IMMVs and
    cleans up after execution), together with the properties the design
    document states about them.

    Layout: machine integers, the host lock manager, bitmapsets, the
    shared segment, the backend-private variables, the hooks as functions
    and as steps of a system of backends; then the theorems. *)

From stdpp Require Import gmap strings list pretty.

Local Open Scope Z_scope.

(** ** Machine integers

    [nesting_level], [full_process] and [runningQuery] are C [int]s.
    PostgreSQL is built with [-fwrapv], so [++] and [--] wrap. *)

Definition INT_MIN : Z := - 2 ^ 31.
Definition INT_MAX : Z := 2 ^ 31 - 1.

Definition int_wrap (z : Z) : Z := (z + 2 ^ 31) `mod` 2 ^ 32 - 2 ^ 31.

Definition int_incr (z : Z) : Z := int_wrap (z + 1).
Definition int_decr (z : Z) : Z := int_wrap (z - 1).

(** ** Identifiers *)

(** [Oid] is [unsigned int]; [InvalidOid] is [0]. *)
Definition Oid : Type := N.
Definition InvalidOid : Oid := 0%N.

(** A backend is identified by its process id. *)
Definition Pid : Type := N.

(** [LOCKTAG] as filled by [SET_LOCKTAG_RELATION]: database, relation. *)
Record LOCKTAG : Type := mkLOCKTAG {
  locktag_field1 : Oid;
  locktag_field2 : Oid
}.

#[global] Instance LOCKTAG_eq_dec : EqDecision LOCKTAG.
Proof. solve_decision. Defined.

#[global] Instance LOCKTAG_countable : Countable LOCKTAG.
Proof.
  refine (inj_countable' (fun t => (locktag_field1 t, locktag_field2 t))
                         (fun p => mkLOCKTAG p.1 p.2) _).
  by intros [].
Defined.

Definition SET_LOCKTAG_RELATION (dbid relid : Oid) : LOCKTAG :=
  mkLOCKTAG dbid relid.

(** ** The host's lock manager, restricted to [ExclusiveLock]

    The table records, per lock tag, the backend that holds
    [ExclusiveLock] and how many times it took it.  [ExclusiveLock]
    conflicts with itself, so a tag has at most one holder.  Conflicts
    with the weaker modes that other sessions may hold are not recorded
    in the table: they come in as the [grant] argument of a conditional
    request, which the lock manager may refuse for any such reason. *)

Abbreviation LockTable := (gmap LOCKTAG (Pid * nat)).

Definition LockHeldByMe (me : Pid) (tag : LOCKTAG) (lt : LockTable) : bool :=
  match lt !! tag with
  | Some (p, n) => bool_decide (p = me) && bool_decide (n ≠ 0%nat)
  | None => false
  end.

Definition LockAcquireConditional (me : Pid) (tag : LOCKTAG) (grant : bool)
    (lt : LockTable) : bool * LockTable :=
  match lt !! tag with
  | Some (p, n) =>
      if bool_decide (p = me) then (true, <[tag := (me, S n)]> lt)
      else (false, lt)
  | None =>
      if grant then (true, <[tag := (me, 1%nat)]> lt) else (false, lt)
  end.

(** Releasing a lock one does not hold only raises a warning. *)
Definition LockRelease (me : Pid) (tag : LOCKTAG) (lt : LockTable) : LockTable :=
  match lt !! tag with
  | Some (p, n) =>
      if bool_decide (p = me) then
        match n with
        | S (S k) => <[tag := (me, S k)]> lt
        | _ => delete tag lt
        end
      else lt
  | None => lt
  end.

(** [LockReleaseAll], by which the host gives up every lock of a
    backend when its transaction ends, by commit or by abort. *)
Definition LockReleaseAll (me : Pid) (lt : LockTable) : LockTable :=
  filter (fun tp => tp.2.1 ≠ me) lt.

(** ** Bitmapsets

    A [Bitmapset] is kept as the strictly increasing list of its
    members, the order in which [bms_next_member] enumerates them.  The
    members are [int]s that are not negative; they are kept as the OIDs
    they stand for. *)

Definition Bitmapset : Type := list Oid.

Fixpoint bms_insert (a : Bitmapset) (x : Oid) : Bitmapset :=
  match a with
  | [] => [x]
  | y :: a' =>
      if (x <? y)%N then x :: y :: a'
      else if (x =? y)%N then y :: a'
      else y :: bms_insert a' x
  end.

(** [bms_add_member(a, x)] takes its member as an [int].  An OID from
    [2^31] on is a negative [int], for which the host raises "negative
    bitmapset member not allowed": the answer is [None]. *)
Definition bms_add_member (a : Bitmapset) (x : Oid) : option Bitmapset :=
  if (x <? 2 ^ 31)%N then Some (bms_insert a x) else None.

(** ** The shared segment: query table and schedule state *)

(** [QUERY_AVAILABLE] and [QUERY_GIVE_UP] are the two states the hooks
    name; the waiting state a record is registered in, and the running
    state of the design document, complete the type. *)
Inductive QueryStatus : Type :=
| QUERY_WAITING
| QUERY_AVAILABLE
| QUERY_RUNNING
| QUERY_GIVE_UP.

#[global] Instance QueryStatus_eq_dec : EqDecision QueryStatus.
Proof. solve_decision. Defined.

Record QueryTableKey : Type := mkKey {
  key_pid : Pid;
  key_seq : N
}.

#[global] Instance QueryTableKey_eq_dec : EqDecision QueryTableKey.
Proof. solve_decision. Defined.

(** An entry of the query table.  [affected_tables] is the
    zero-terminated array of IMMV OIDs; [arrival] is the registration
    order of the record. *)
Record QueryTableEntry : Type := mkEntry {
  key : QueryTableKey;
  status : QueryStatus;
  affected_tables : list Oid;
  xid : N;
  arrival : N
}.

(** The shared segment.  The hash table is kept as the list of its
    entries in registration order; [schedule_state->lock] is the
    boundary of the critical sections, each of which is one function
    below. *)
Record Shmem : Type := mkShmem {
  queryHashTable : list QueryTableEntry;
  runningQuery : Z
}.

Definition set_runningQuery (r : Z) (s : Shmem) : Shmem :=
  mkShmem (queryHashTable s) r.

Definition hash_search (k : QueryTableKey) (s : Shmem) : option QueryTableEntry :=
  List.find (fun e => bool_decide (key e = k)) (queryHashTable s).

Definition entry_set_status (st : QueryStatus) (e : QueryTableEntry) : QueryTableEntry :=
  mkEntry (key e) st (affected_tables e) (xid e) (arrival e).

(** [query_entry->status = st] through the pointer to the entry of [k]. *)
Definition set_status (k : QueryTableKey) (st : QueryStatus) (s : Shmem) : Shmem :=
  mkShmem
    (List.map (fun e => if bool_decide (key e = k) then entry_set_status st e else e)
              (queryHashTable s))
    (runningQuery s).

(** ** What the executor hands to the hooks *)

(** The planned statement, by its identifier and the relation OIDs it
    depends on. *)
Record PlannedStmt : Type := mkPlannedStmt {
  queryId : N;
  relationOids : list Oid
}.

Record QueryDesc : Type := mkQueryDesc {
  sourceText : string;
  plannedstmt : PlannedStmt
}.

Definition EXEC_FLAG_EXPLAIN_ONLY : Z := 1.
Definition EXEC_FLAG_EXPLAIN_GENERIC : Z := 2.

(** The dependency index entry of an IMMV. *)
Record RefedImmv : Type := mkRefedImmv {
  refed_table_num : nat;
  refed_table : list Oid
}.

(** How a call into the host ends: by returning, or by [ereport(ERROR)]. *)
Inductive Outcome : Type :=
| Returned
| Raised.

(** ** Backend-private variables *)

Record Backend : Type := mkBackend {
  MyDatabaseId : Oid;
  ParallelWorkerNumber : Z;
  nesting_level : Z;
  full_process : Z;
  isUtility : bool
}.

Definition IsParallelWorker (b : Backend) : bool :=
  bool_decide (0 <= ParallelWorkerNumber b).

(** [#define enable_enforce(level)
     (!IsParallelWorker() && (level) == 0 && !isUtility)] *)
Definition enable_enforce (b : Backend) (level : Z) : bool :=
  negb (IsParallelWorker b) && bool_decide (level = 0) && negb (isUtility b).

Definition set_nesting_level (n : Z) (b : Backend) : Backend :=
  mkBackend (MyDatabaseId b) (ParallelWorkerNumber b) n (full_process b) (isUtility b).

Definition set_full_process (n : Z) (b : Backend) : Backend :=
  mkBackend (MyDatabaseId b) (ParallelWorkerNumber b) (nesting_level b) n (isUtility b).

Definition set_isUtility (u : bool) (b : Backend) : Backend :=
  mkBackend (MyDatabaseId b) (ParallelWorkerNumber b) (nesting_level b) (full_process b) u.

(** Where a backend stands inside [pg_hook_execution_start]. *)
Inductive Pc : Type :=
| PcIdle
    (* not inside the enforced part of the hook *)
| PcWaiting (query_entry : QueryTableKey)
    (* at the top of the [for (;;)] under the label [waiting] *)
| PcPolled (query_entry : QueryTableKey) (status : QueryStatus) (running : Z)
    (* [status] and [running] read under the shared lock *)
| PcLockOuter (query_entry : QueryTableKey) (newlyLocked : Bitmapset) (i : nat)
    (* at the test of the loop over [affected_tables], with its index [i] *)
| PcLockInner (query_entry : QueryTableKey) (newlyLocked : Bitmapset) (i : nat)
    (refed_immv : RefedImmv) (j : nat)
    (* at the test of the loop over [refed_immv->refed_table], with its index [j] *)
| PcRaised.
    (* the hook was left by an error raised inside the lock loops; the
       abort of the transaction is what comes next *)

Record Proc : Type := mkProc {
  priv : Backend;
  pc : Pc
}.

(** The state one backend acts on: itself, the shared segment, the lock
    table. *)
Record World : Type := mkWorld {
  proc : Proc;
  shmem : Shmem;
  locktable : LockTable
}.

Definition with_pc (c : Pc) (w : World) : World :=
  mkWorld (mkProc (priv (proc w)) c) (shmem w) (locktable w).

Definition with_priv (b : Backend) (w : World) : World :=
  mkWorld (mkProc b (pc (proc w))) (shmem w) (locktable w).

Definition with_shmem (s : Shmem) (w : World) : World :=
  mkWorld (proc w) s (locktable w).

Definition with_locktable (lt : LockTable) (w : World) : World :=
  mkWorld (proc w) (shmem w) lt.

(** ** The collaborators of [pg_ivm.c]

    The constants of [conf.h], the catalog test of the host, the
    dependency index, and the three operations on the shared segment
    that live in the scheduler's own file.  [LogQuery] answers [None]
    when it raises an error. *)
Class Collaborators : Type := {
  MAX_AFFECTED_TABLE : nat;
  MAX_CONCURRENT_QUERY : Z;
  IsSharedRelation : Oid -> bool;
  getRefrenceImmv : Oid -> option RefedImmv;
  LogQuery : Pid -> Shmem -> PlannedStmt -> string -> option (QueryTableKey * Shmem);
  Reschedule : Shmem -> Shmem;
  RemoveLoggedQuery : Pid -> QueryDesc -> Shmem -> Shmem
}.

Section Bracket.
Context `{Collaborators}.

(** The condition of the two [Assert]s on the counter. *)
Definition runningQuery_in_bounds (s : Shmem) : Prop :=
  0 <= runningQuery s <= MAX_CONCURRENT_QUERY.

Definition SetLocktagRelationOid (b : Backend) (relid : Oid) : LOCKTAG :=
  let dbid := if IsSharedRelation relid then InvalidOid else MyDatabaseId b in
  SET_LOCKTAG_RELATION dbid relid.

Definition ConditionalLockRelationOid (me : Pid) (b : Backend) (relid : Oid)
    (grant : bool) (lt : LockTable) : bool * LockTable :=
  LockAcquireConditional me (SetLocktagRelationOid b relid) grant lt.

Definition UnlockRelationOid (me : Pid) (b : Backend) (relid : Oid)
    (lt : LockTable) : LockTable :=
  LockRelease me (SetLocktagRelationOid b relid) lt.

(** [while ((iter = bms_next_member(newlyLocked, iter)) >= 0)
       UnlockRelationOid(iter, ExclusiveLock);] *)
Definition release_newlyLocked (me : Pid) (b : Backend) (newlyLocked : Bitmapset)
    (lt : LockTable) : LockTable :=
  fold_left (fun acc iter => UnlockRelationOid me b iter acc) newlyLocked lt.

(** *** [pg_hook_execution_start] *)

(** The test that leaves the hook right after the standard start. *)
Definition execution_start_skips (b : Backend) (qd : QueryDesc) (eflags : Z) : bool :=
  bool_decide (sourceText qd = EmptyString)
  || negb (Z.land eflags (Z.lor EXEC_FLAG_EXPLAIN_GENERIC EXEC_FLAG_EXPLAIN_ONLY) =? 0)
  || negb (enable_enforce b (nesting_level b)).

(** From the call of the hook to the label [waiting]: the early return,
    [full_process++], and the first critical section ([LogQuery], then
    [Reschedule]).  The result is [Returned] with the backend at
    [PcIdle] when the hook returns early, [Returned] with the backend at
    [PcWaiting] when control reaches the label, [Raised] when
    [LogQuery] raises. *)
Definition execution_start_entry (me : Pid) (qd : QueryDesc) (eflags : Z)
    (w : World) : Outcome * World :=
  let b := priv (proc w) in
  if execution_start_skips b qd eflags then (Returned, w)
  else
    let b1 := set_full_process (int_incr (full_process b)) b in
    match LogQuery me (shmem w) (plannedstmt qd) (sourceText qd) with
    | None => (Raised, with_priv b1 w)
    | Some (k, s1) =>
        (Returned, with_pc (PcWaiting k) (with_shmem (Reschedule s1) (with_priv b1 w)))
    end.

(** The hook up to the label [waiting]: the wrapped start
    ([PrevExecutionStartHook] or [standard_ExecutorStart]) comes first,
    and an error it raises leaves the hook at once. *)
Definition pg_hook_execution_start (me : Pid) (qd : QueryDesc) (eflags : Z)
    (standard_start : World -> Outcome * World) (w : World) : Outcome * World :=
  match standard_start w with
  | (Raised, w1) => (Raised, w1)
  | (Returned, w1) => execution_start_entry me qd eflags w1
  end.

(** The read of [status] and [runningQuery] under the shared lock. *)
Definition poll_read (w : World) : option World :=
  match pc (proc w) with
  | PcWaiting k =>
      e ← hash_search k (shmem w);
      Some (with_pc (PcPolled k (status e) (runningQuery (shmem w))) w)
  | _ => None
  end.

(** The rest of the loop body: the forced [Reschedule] when nothing runs
    and the query is not available, then [break] or [pg_usleep(30)]. *)
Definition poll_act (w : World) : option World :=
  match pc (proc w) with
  | PcPolled k st running =>
      if bool_decide (running = 0) && negb (bool_decide (st = QUERY_AVAILABLE)) then
        let s1 := Reschedule (shmem w) in
        e ← hash_search k s1;
        if bool_decide (status e = QUERY_AVAILABLE)
        then Some (with_pc (PcLockOuter k [] 0) (with_shmem s1 w))
        else Some (with_pc (PcWaiting k) (with_shmem s1 w))
      else
        if bool_decide (st = QUERY_AVAILABLE)
        then Some (with_pc (PcLockOuter k [] 0) w)
        else Some (with_pc (PcWaiting k) w)
  | _ => None
  end.

(** The critical section of the [else] branch:
    [query_entry->status = QUERY_GIVE_UP; schedule_state->runningQuery--;
    Reschedule(queryHashTable, schedule_state);]. *)
Definition abandon (k : QueryTableKey) (s : Shmem) : Shmem :=
  let s1 := set_status k QUERY_GIVE_UP s in
  Reschedule (set_runningQuery (int_decr (runningQuery s1)) s1).

(** The [else] branch: unlock the members of [newlyLocked], then the
    critical section, then [goto waiting].  ([getLocksHeldByMe] only
    builds a string for the log.) *)
Definition retreat (me : Pid) (k : QueryTableKey) (newlyLocked : Bitmapset)
    (w : World) : World :=
  let lt1 := release_newlyLocked me (priv (proc w)) newlyLocked (locktable w) in
  with_pc (PcWaiting k) (with_shmem (abandon k (shmem w)) (with_locktable lt1 w)).

(** The test and the head of the body of
    [for (i = 0; i < MAX_AFFECTED_TABLE && query_entry->affected_tables[i] != 0; i++)]:
    leave the loop (and the hook), skip an IMMV without an index entry,
    or enter the inner loop. *)
Definition lock_outer (w : World) : option World :=
  match pc (proc w) with
  | PcLockOuter k newlyLocked i =>
      e ← hash_search k (shmem w);
      let immv := default InvalidOid (affected_tables e !! i) in
      if bool_decide (i < MAX_AFFECTED_TABLE)%nat && negb (immv =? 0)%N then
        match getRefrenceImmv immv with
        | None => Some (with_pc (PcLockOuter k newlyLocked (S i)) w)
        | Some refed_immv => Some (with_pc (PcLockInner k newlyLocked i refed_immv 0) w)
        end
      else Some (with_pc PcIdle w)
  | _ => None
  end.

(** The test and the body of
    [for (j = 0; j < refed_immv->refed_table_num; j++)]; [grant] is the
    lock manager's answer as far as other lock modes go.  When
    [bms_add_member] raises, the hook is left by the error with the lock
    just taken still held, the record as it is and [full_process] as it
    is. *)
Definition lock_inner (me : Pid) (grant : bool) (w : World) : option World :=
  match pc (proc w) with
  | PcLockInner k newlyLocked i refed_immv j =>
      if bool_decide (j < refed_table_num refed_immv)%nat then
        let relid := default InvalidOid (refed_table refed_immv !! j) in
        let b := priv (proc w) in
        if LockHeldByMe me (SetLocktagRelationOid b relid) (locktable w) then
          Some (with_pc (PcLockInner k newlyLocked i refed_immv (S j)) w)
        else
          match ConditionalLockRelationOid me b relid grant (locktable w) with
          | (true, lt1) =>
              match bms_add_member newlyLocked relid with
              | Some newlyLocked1 =>
                  Some (with_pc (PcLockInner k newlyLocked1 i refed_immv (S j))
                                (with_locktable lt1 w))
              | None => Some (with_pc PcRaised (with_locktable lt1 w))
              end
          | (false, _) => Some (retreat me k newlyLocked w)
          end
      else Some (with_pc (PcLockOuter k newlyLocked (S i)) w)
  | _ => None
  end.

(** *** [pg_hook_executor_run] *)

Definition executor_run_enter (w : World) : World :=
  let b := priv (proc w) in
  with_priv (set_nesting_level (int_incr (nesting_level b)) b) w.

(** The condition of the two [if]s that guard the cleanup. *)
Definition executor_run_cleans (b : Backend) (qd : QueryDesc) : bool :=
  negb (bool_decide (sourceText qd = EmptyString))
  && enable_enforce b (nesting_level b)
  && negb (full_process b =? 0).

(** The critical section of the [PG_CATCH] block. *)
Definition cleanup_on_error (me : Pid) (qd : QueryDesc) (s : Shmem) : Shmem :=
  let s1 := set_runningQuery (int_decr (runningQuery s)) s in
  Reschedule (RemoveLoggedQuery me qd s1).

(** The critical section after [PG_END_TRY]. *)
Definition cleanup_on_return (me : Pid) (qd : QueryDesc) (s : Shmem) : Shmem :=
  let s1 := RemoveLoggedQuery me qd s in
  Reschedule (set_runningQuery (int_decr (runningQuery s1)) s1).

(** What follows the standard run: [nesting_level--] and, under the
    guard, [full_process--] and the critical section; in the
    [PG_CATCH] block when the run raised, after [PG_END_TRY] when it
    returned. *)
Definition executor_run_exit (me : Pid) (qd : QueryDesc) (o : Outcome)
    (w : World) : World :=
  let b := priv (proc w) in
  let b1 := set_nesting_level (int_decr (nesting_level b)) b in
  if executor_run_cleans b1 qd then
    let b2 := set_full_process (int_decr (full_process b1)) b1 in
    let s := match o with
             | Raised => cleanup_on_error me qd (shmem w)
             | Returned => cleanup_on_return me qd (shmem w)
             end in
    with_shmem s (with_priv b2 w)
  else with_priv b1 w.

(** [standard_run] is the wrapped run ([prevExecutorRunHook] or
    [standard_ExecutorRun]); an error it raises is re-thrown after the
    cleanup. *)
Definition pg_hook_executor_run (me : Pid) (qd : QueryDesc)
    (standard_run : World -> Outcome * World) (w : World) : Outcome * World :=
  let '(o, w1) := standard_run (executor_run_enter w) in
  (o, executor_run_exit me qd o w1).

(** *** [pg_hook_process_utility] *)

Definition process_utility_enter (w : World) : World :=
  with_priv (set_isUtility true (priv (proc w))) w.

(** The [PG_FINALLY] block. *)
Definition process_utility_exit (w : World) : World :=
  with_priv (set_isUtility false (priv (proc w))) w.

Definition pg_hook_process_utility
    (standard_utility : World -> Outcome * World) (w : World) : Outcome * World :=
  let '(o, w1) := standard_utility (process_utility_enter w) in
  (o, process_utility_exit w1).

End Bracket.

(** ** A system of backends

    The backends of the server share the segment and the lock table and
    take turns; one turn is one critical section or one lock request of
    one backend.  The backend at position [i] of [procs] has process id
    [pid_of i]. *)

Record System : Type := mkSystem {
  procs : list Proc;
  sys_shmem : Shmem;
  sys_locks : LockTable
}.

(** The turns a backend can take. *)
Inductive Event : Type :=
| EvExecutorStart (qd : QueryDesc) (eflags : Z)
    (* the start hook, from its call to the label [waiting] *)
| EvPollRead
    (* the read of the wait loop under the shared lock *)
| EvPollAct
    (* the rest of the body of the wait loop *)
| EvLockOuter
    (* the test and the head of the loop over the affected tables *)
| EvLockInner (grant : bool)
    (* the test and the body of the loop over the base tables *)
| EvRunEnter
    (* the run hook up to the wrapped run *)
| EvRunExit (qd : QueryDesc) (o : Outcome)
    (* the run hook after the wrapped run, which ended as [o] *)
| EvUtilityEnter
    (* the utility hook up to the wrapped command *)
| EvUtilityExit
    (* the [PG_FINALLY] block of the utility hook *)
| EvTransactionEnd.
    (* the transaction of the backend ends, by commit or by abort, and
       the host releases the locks of the backend *)

Definition pid_of (i : nat) : Pid := N.of_nat i.

Definition view (i : nat) (s : System) : option World :=
  p ← procs s !! i;
  Some (mkWorld p (sys_shmem s) (sys_locks s)).

Definition commit (i : nat) (w : World) (s : System) : System :=
  mkSystem (<[i := proc w]> (procs s)) (shmem w) (locktable w).

Definition is_idle (w : World) : bool :=
  match pc (proc w) with
  | PcIdle => true
  | _ => false
  end.

(** The end of the transaction, outside the start hook or after an
    error inside it.  The variables [nesting_level], [full_process] and
    [isUtility] are static and stay as they are, and so does the shared
    segment: nothing in [pg_ivm.c] writes them at that point. *)
Definition transaction_end (me : Pid) (w : World) : option World :=
  match pc (proc w) with
  | PcIdle | PcRaised =>
      Some (with_pc PcIdle (with_locktable (LockReleaseAll me (locktable w)) w))
  | _ => None
  end.

Section Steps.
Context `{Collaborators}.

(** The hooks are entered by a backend that is not inside the enforced
    part of [pg_hook_execution_start]; the steps of that part are enabled
    by the program point. *)
Definition backend_step (me : Pid) (ev : Event) (w : World) : option World :=
  match ev with
  | EvExecutorStart qd eflags =>
      if is_idle w then Some (execution_start_entry me qd eflags w).2 else None
  | EvPollRead => poll_read w
  | EvPollAct => poll_act w
  | EvLockOuter => lock_outer w
  | EvLockInner grant => lock_inner me grant w
  | EvRunEnter => if is_idle w then Some (executor_run_enter w) else None
  | EvRunExit qd o => if is_idle w then Some (executor_run_exit me qd o w) else None
  | EvUtilityEnter => if is_idle w then Some (process_utility_enter w) else None
  | EvUtilityExit => if is_idle w then Some (process_utility_exit w) else None
  | EvTransactionEnd => transaction_end me w
  end.

Definition system_step (i : nat) (ev : Event) (s : System) : option System :=
  w ← view i s;
  w' ← backend_step (pid_of i) ev w;
  Some (commit i w' s).

Fixpoint run_trace (tr : list (nat * Event)) (s : System) : option System :=
  match tr with
  | [] => Some s
  | (i, ev) :: tr' => s' ← system_step i ev s; run_trace tr' s'
  end.

End Steps.

(** ** The scheduler's side of the shared segment *)

Definition fresh_backend (db : Oid) : Backend := mkBackend db (-1) 0 0 false.

Definition initial_shmem : Shmem := mkShmem [] 0.

(** Every backend starts outside the hooks, no query is registered, no
    lock is held. *)
Definition initial_system (dbs : list Oid) : System :=
  mkSystem (List.map (fun db => mkProc (fresh_backend db) PcIdle) dbs) initial_shmem ∅.

(** Modelled from the spec: the admission pass of [Reschedule]
    (section 4.2 of the design document), whose code is not in
    [pg_ivm.c].  The records are visited in arrival order; while the
    counter is below the cap a waiting record becomes available and is
    counted (the hooks only ever take from the counter, when an
    available record gives up or is cleaned up, so the pass is where a
    record is added to it); a record that gave up is put back to waiting
    for the next pass to consider. *)
Fixpoint admission (cap : Z) (l : list QueryTableEntry) (running : Z)
    : list QueryTableEntry * Z :=
  match l with
  | [] => ([], running)
  | e :: l' =>
      match status e with
      | QUERY_WAITING =>
          if running <? cap then
            let '(l2, r2) := admission cap l' (running + 1) in
            (entry_set_status QUERY_AVAILABLE e :: l2, r2)
          else
            let '(l2, r2) := admission cap l' running in (e :: l2, r2)
      | QUERY_GIVE_UP =>
          let '(l2, r2) := admission cap l' running in
          (entry_set_status QUERY_WAITING e :: l2, r2)
      | _ =>
          let '(l2, r2) := admission cap l' running in (e :: l2, r2)
      end
  end.

(** Modelled from the spec: [Reschedule] (section 4.2 of the design
    document); its code is not in [pg_ivm.c]. *)
Definition spec_Reschedule (cap : Z) (s : Shmem) : Shmem :=
  let '(l, r) := admission cap (queryHashTable s) (runningQuery s) in
  mkShmem l r.

Definition next_arrival (l : list QueryTableEntry) : N :=
  N.succ (foldr (fun e m => N.max (arrival e) m) 0%N l).

(** Modelled from the spec: the key of a record (section 3), made of
    the owning backend and a sequence number, for which the identifier
    of the statement stands. *)
Definition query_key (me : Pid) (stmt : PlannedStmt) : QueryTableKey :=
  mkKey me (queryId stmt).

Definition drop_key (k : QueryTableKey) (l : list QueryTableEntry) : list QueryTableEntry :=
  List.filter (fun e => negb (bool_decide (key e = k))) l.

(** Modelled from the spec: [LogQuery], the [register] of section 4.1;
    its code is not in [pg_ivm.c].  It fails when the table is full or
    the statement affects more tables than fit a record; otherwise the
    record is entered as waiting, last in arrival order.  A stale record
    under the same key is replaced. *)
Definition spec_LogQuery (max_query_num max_affected : nat) (xid_of : Pid -> N)
    (me : Pid) (s : Shmem) (stmt : PlannedStmt) (text : string)
    : option (QueryTableKey * Shmem) :=
  let k := query_key me stmt in
  let l := drop_key k (queryHashTable s) in
  if bool_decide (max_query_num <= length l)%nat
     || bool_decide (max_affected < length (relationOids stmt))%nat
  then None
  else
    let e := mkEntry k QUERY_WAITING (relationOids stmt) (xid_of me) (next_arrival l) in
    Some (k, mkShmem (l ++ [e]) (runningQuery s)).

(** Modelled from the spec: [RemoveLoggedQuery], the [deregister] of
    section 4.1; its code is not in [pg_ivm.c].  Removing an absent
    record changes nothing. *)
Definition spec_RemoveLoggedQuery (me : Pid) (qd : QueryDesc) (s : Shmem) : Shmem :=
  mkShmem (drop_key (query_key me (plannedstmt qd)) (queryHashTable s)) (runningQuery s).

(** The collaborators as the design document describes them. *)
Definition spec_collaborators (max_affected max_query_num : nat) (cap : Z)
    (shared : Oid -> bool) (index : Oid -> option RefedImmv) (xid_of : Pid -> N)
    : Collaborators := {|
  MAX_AFFECTED_TABLE := max_affected;
  MAX_CONCURRENT_QUERY := cap;
  IsSharedRelation := shared;
  getRefrenceImmv := index;
  LogQuery := spec_LogQuery max_query_num max_affected xid_of;
  Reschedule := spec_Reschedule cap;
  RemoveLoggedQuery := spec_RemoveLoggedQuery
|}.

(** ** Counting along a trace *)

#[global] Instance PlannedStmt_eq_dec : EqDecision PlannedStmt.
Proof. solve_decision. Defined.

#[global] Instance QueryDesc_eq_dec : EqDecision QueryDesc.
Proof. solve_decision. Defined.

Section Counting.
Context `{Collaborators}.

(** Whether the exit of [pg_hook_executor_run] runs the cleanup. *)
Definition exit_cleans (b : Backend) (qd : QueryDesc) : bool :=
  executor_run_cleans (set_nesting_level (int_decr (nesting_level b)) b) qd.

Definition event_cleans (sel : QueryDesc -> bool) (ev : Event) (p : Proc) : nat :=
  match ev with
  | EvRunExit qd _ => if sel qd && exit_cleans (priv p) qd then 1%nat else 0%nat
  | _ => 0%nat
  end.

Definition event_enforces (sel : QueryDesc -> bool) (ev : Event) (p : Proc) : nat :=
  match ev with
  | EvExecutorStart qd eflags =>
      if sel qd && negb (execution_start_skips (priv p) qd eflags) then 1%nat else 0%nat
  | _ => 0%nat
  end.

(** The sum over the steps that backend [i] takes in [tr] of a measure
    of the step, taken in the state the step starts from. *)
Fixpoint count_steps (f : Event -> Proc -> nat) (i : nat) (tr : list (nat * Event))
    (s : System) : nat :=
  match tr with
  | [] => 0%nat
  | (j, ev) :: tr' =>
      match system_step j ev s with
      | None => 0%nat
      | Some s' =>
          (match procs s !! j with
           | Some p => if bool_decide (j = i) then f ev p else 0%nat
           | None => 0%nat
           end + count_steps f i tr' s')%nat
      end
  end.

(** How often backend [i] runs the cleanup for a query selected by
    [sel], and how often it enters enforcement. *)
Definition cleanups (sel : QueryDesc -> bool) := count_steps (event_cleans sel).
Definition enforced_starts (sel : QueryDesc -> bool) := count_steps (event_enforces sel).

Definition any_query (qd : QueryDesc) : bool := true.
Definition this_query (q qd : QueryDesc) : bool := bool_decide (qd = q).

Definition full_process_of (i : nat) (s : System) : Z :=
  match procs s !! i with
  | Some p => full_process (priv p)
  | None => 0
  end.

End Counting.

(** The number of [ExclusiveLock]s a backend holds on a tag. *)
Definition my_count (me : Pid) (tag : LOCKTAG) (lt : LockTable) : nat :=
  match lt !! tag with
  | Some (p, n) => if bool_decide (p = me) then n else 0%nat
  | None => 0%nat
  end.

(** ** One pass over the dependency set

    A pass begins at [newlyLocked = NULL] and ends when the hook returns
    or retreats to the label [waiting]. *)

Section Pass.
Context `{Collaborators}.

Definition newly_tags (b : Backend) (newlyLocked : Bitmapset) : list LOCKTAG :=
  SetLocktagRelationOid b <$> newlyLocked.

(** What [newlyLocked] means during a pass that began with the lock
    table [lt0]: its members are the relations that the backend did not
    hold when the pass began and holds once now; its other holdings are
    as they were. *)
Definition pass_inv (me : Pid) (b : Backend) (lt0 : LockTable)
    (newlyLocked : Bitmapset) (lt : LockTable) : Prop :=
  NoDup newlyLocked
  ∧ ∀ tag,
      if bool_decide (tag ∈ newly_tags b newlyLocked)
      then my_count me tag lt0 = 0%nat ∧ my_count me tag lt = 1%nat
      else my_count me tag lt = my_count me tag lt0.

Definition pc_in_pass (k : QueryTableKey) (newlyLocked : Bitmapset) (c : Pc) : Prop :=
  match c with
  | PcLockOuter k' n _ => k' = k ∧ n = newlyLocked
  | PcLockInner k' n _ _ _ => k' = k ∧ n = newlyLocked
  | PcIdle => True
  | PcWaiting k' => k' = k ∧ newlyLocked = []
  | PcPolled _ _ _ => False
  | PcRaised => True
  end.

Definition is_lock_event (ev : Event) : bool :=
  match ev with
  | EvLockOuter | EvLockInner _ => true
  | _ => false
  end.

(** A trace in which backend [i] does nothing but run the two loops. *)
Definition pass_trace (i : nat) (tr : list (nat * Event)) : Prop :=
  Forall (fun je => je.1 = i -> is_lock_event je.2 = true) tr.

(** Backend [i], with private state [b], is in or just past a pass for
    the query [k] that began with the lock table [lt0]. *)
Definition pass_state (i : nat) (b : Backend) (k : QueryTableKey)
    (lt0 : LockTable) (s : System) : Prop :=
  ∃ c newlyLocked,
    procs s !! i = Some (mkProc b c)
    ∧ pc_in_pass k newlyLocked c
    ∧ pass_inv (pid_of i) b lt0 newlyLocked (sys_locks s).

End Pass.

(** ** Records under [Reschedule] *)

(** What [Reschedule] may do to a record: the key and the affected
    tables stay, an available record stays available. *)
Definition entry_kept (e e' : QueryTableEntry) : Prop :=
  key e' = key e
  ∧ affected_tables e' = affected_tables e
  ∧ (status e = QUERY_AVAILABLE -> status e' = QUERY_AVAILABLE).

(** ** The dependency set of a record *)

Section Dependencies.
Context `{Collaborators}.

Definition affected_at (aff : list Oid) (m : nat) : Oid :=
  default InvalidOid (aff !! m).

Definition refed_at (r : RefedImmv) (j : nat) : Oid :=
  default InvalidOid (refed_table r !! j).

(** The outer loop gets as far as the index [ii]. *)
Definition loop_reaches (aff : list Oid) (ii : nat) : Prop :=
  ∀ m, (m < ii)%nat -> (m < MAX_AFFECTED_TABLE)%nat ∧ affected_at aff m ≠ InvalidOid.

(** [relid] is one of the base tables that the two loops visit for the
    affected tables [aff]: a table of the index entry of an IMMV that
    comes before the end of the array and before its first zero. *)
Definition depends_on (aff : list Oid) (relid : Oid) : Prop :=
  ∃ m r j,
    loop_reaches aff (S m)
    ∧ getRefrenceImmv (affected_at aff m) = Some r
    ∧ (j < refed_table_num r)%nat
    ∧ relid = refed_at r j.

Definition holds (me : Pid) (b : Backend) (relid : Oid) (lt : LockTable) : Prop :=
  my_count me (SetLocktagRelationOid b relid) lt ≠ 0%nat.

(** The tables of the IMMVs before index [ii] are held. *)
Definition holds_before (me : Pid) (b : Backend) (aff : list Oid) (ii : nat)
    (lt : LockTable) : Prop :=
  ∀ m r j,
    (m < ii)%nat ->
    getRefrenceImmv (affected_at aff m) = Some r ->
    (j < refed_table_num r)%nat ->
    holds me b (refed_at r j) lt.

(** How far the pass of backend [i] for the record [k], whose affected
    tables are [aff], has come. *)
Definition pass_progress (i : nat) (b : Backend) (k : QueryTableKey) (aff : list Oid)
    (s : System) : Prop :=
  ∃ c,
    procs s !! i = Some (mkProc b c)
    ∧ match c with
      | PcLockOuter k' _ ii =>
          k' = k
          ∧ (∃ e, hash_search k (sys_shmem s) = Some e ∧ affected_tables e = aff)
          ∧ loop_reaches aff ii
          ∧ holds_before (pid_of i) b aff ii (sys_locks s)
      | PcLockInner k' _ ii r j =>
          k' = k
          ∧ (∃ e, hash_search k (sys_shmem s) = Some e ∧ affected_tables e = aff)
          ∧ loop_reaches aff (S ii)
          ∧ getRefrenceImmv (affected_at aff ii) = Some r
          ∧ holds_before (pid_of i) b aff ii (sys_locks s)
          ∧ ∀ j', (j' < j)%nat -> (j' < refed_table_num r)%nat ->
                  holds (pid_of i) b (refed_at r j') (sys_locks s)
      | PcIdle => ∀ relid, depends_on aff relid -> holds (pid_of i) b relid (sys_locks s)
      | PcWaiting _ => True
      | PcPolled _ _ _ => True
      | PcRaised => True
      end.

(** The members of [newlyLocked], if the backend is inside the loops. *)
Definition pc_newlyLocked (c : Pc) : Bitmapset :=
  match c with
  | PcLockOuter _ n _ => n
  | PcLockInner _ n _ _ _ => n
  | _ => []
  end.

(** Backend [i] holds the lock [tag], and not as one of the locks of a
    pass that is under way. *)
Definition holds_for_good (i : nat) (tag : LOCKTAG) (s : System) : Prop :=
  ∃ p,
    procs s !! i = Some p
    ∧ my_count (pid_of i) tag (sys_locks s) ≠ 0%nat
    ∧ tag ∉ newly_tags (priv p) (pc_newlyLocked (pc p)).

End Dependencies.

(** The record under [k] is still there with the same affected tables. *)
Definition record_stable (k : QueryTableKey) (s s' : Shmem) : Prop :=
  ∀ e, hash_search k s = Some e ->
       ∃ e', hash_search k s' = Some e' ∧ affected_tables e' = affected_tables e.

(** ** The flag of the utility hook *)

Definition isUtility_of (i : nat) (s : System) : bool :=
  match procs s !! i with
  | Some p => isUtility (priv p)
  | None => false
  end.

(** A trace in which backend [i] does not leave the utility hook. *)
Definition no_utility_exit (i : nat) (tr : list (nat * Event)) : Prop :=
  Forall (fun je => je.1 = i -> je.2 ≠ EvUtilityExit) tr.

(** A trace in which the transaction of backend [i] does not end. *)
Definition no_transaction_end (i : nat) (tr : list (nat * Event)) : Prop :=
  Forall (fun je => je.1 = i -> je.2 ≠ EvTransactionEnd) tr.

(** ** The ledger behind the counter of running queries

    Each backend has a claim on [runningQuery]: one for every start
    that entered enforcement and was not cleaned up yet, except that a
    backend in the wait loop whose record is not available has one
    less. *)

Definition pc_key (c : Pc) : option QueryTableKey :=
  match c with
  | PcIdle => None
  | PcWaiting k => Some k
  | PcPolled k _ _ => Some k
  | PcLockOuter k _ _ => Some k
  | PcLockInner k _ _ _ _ => Some k
  | PcRaised => None
  end.

(** The program points at which the backend goes by an available
    record: in the lock loops, and after it read [QUERY_AVAILABLE]. *)
Definition holds_slot (c : Pc) : bool :=
  match c with
  | PcLockOuter _ _ _ | PcLockInner _ _ _ _ _ => true
  | PcPolled _ st _ => bool_decide (st = QUERY_AVAILABLE)
  | _ => false
  end.

Definition entry_available (e : QueryTableEntry) : Z :=
  if bool_decide (status e = QUERY_AVAILABLE) then 1 else 0.

Definition find_key (k : QueryTableKey) (l : list QueryTableEntry) : option QueryTableEntry :=
  List.find (fun e => bool_decide (key e = k)) l.

Definition available_in (l : list QueryTableEntry) (k : QueryTableKey) : Z :=
  match find_key k l with
  | Some e => entry_available e
  | None => 0
  end.

Definition credit (s : Shmem) (p : Proc) : Z :=
  match pc_key (pc p) with
  | None => full_process (priv p)
  | Some k => full_process (priv p) - 1 + available_in (queryHashTable s) k
  end.

Definition credits (s : Shmem) (ps : list Proc) : Z :=
  foldr (fun p acc => credit s p + acc) 0 ps.

(** What holds of the backend at position [i]: its counter is not
    negative; inside the wait loop or the lock loops it counts the start
    under way, its record is in the table under a key of its own, and
    where the backend goes by an available record the record is
    available. *)
Definition proc_ok (i : nat) (s : Shmem) (p : Proc) : Prop :=
  0 <= full_process (priv p)
  ∧ match pc_key (pc p) with
    | None => True
    | Some k =>
        1 <= full_process (priv p)
        ∧ key_pid k = pid_of i
        ∧ ∃ e, hash_search k s = Some e
               ∧ (holds_slot (pc p) = true -> status e = QUERY_AVAILABLE)
    end.

Definition ledger_inv (cap : Z) (sys : System) : Prop :=
  0 <= runningQuery (sys_shmem sys) <= cap
  ∧ credits (sys_shmem sys) (procs sys) <= runningQuery (sys_shmem sys)
  ∧ ∀ i p, procs sys !! i = Some p -> proc_ok i (sys_shmem sys) p.

Section Refusals.
Context `{Collaborators}.

(** Whether the step registers what it set out to register: false only
    for a start whose [LogQuery] raises. *)
Definition step_registers (i : nat) (ev : Event) (s : System) : bool :=
  match ev, view i s with
  | EvExecutorStart qd eflags, Some w =>
      match (execution_start_entry (pid_of i) qd eflags w).1 with
      | Returned => true
      | Raised => false
      end
  | _, _ => true
  end.

(** No registration is refused along the trace. *)
Fixpoint no_refusal (tr : list (nat * Event)) (s : System) : Prop :=
  match tr with
  | [] => True
  | (i, ev) :: tr' =>
      step_registers i ev s = true
      ∧ match system_step i ev s with
        | Some s' => no_refusal tr' s'
        | None => True
        end
  end.

End Refusals.

Definition available_sum (l : list QueryTableEntry) (K : list QueryTableKey) : Z :=
  foldr (fun k acc => available_in l k + acc) 0 K.

Definition base_credit (p : Proc) : Z :=
  match pc_key (pc p) with
  | None => full_process (priv p)
  | Some _ => full_process (priv p) - 1
  end.

Definition base_credits (ps : list Proc) : Z :=
  foldr (fun p acc => base_credit p + acc) 0 ps.

(** The keys of the records that backends in the hook wait on. *)
Definition watched_keys (ps : list Proc) : list QueryTableKey :=
  omap (fun p => pc_key (pc p)) ps.

(** ** A small installation

    Two backends of database 1; the IMMV 100 reads the tables 9, 7 and
    8, the IMMV 200 reads 8, the IMMV 300 reads 7; at most two queries
    run at a time. *)

Definition sample_index (immv : Oid) : option RefedImmv :=
  if (immv =? 100)%N then Some (mkRefedImmv 3 [9; 7; 8]%N)
  else if (immv =? 200)%N then Some (mkRefedImmv 1 [8]%N)
  else if (immv =? 300)%N then Some (mkRefedImmv 1 [7]%N)
  else None.

Definition sample : Collaborators :=
  spec_collaborators 4 8 2 (fun _ => false) sample_index (fun p => p).

Definition sample_qA : QueryDesc := mkQueryDesc "select a" (mkPlannedStmt 1%N [100%N]).
Definition sample_qB : QueryDesc := mkQueryDesc "select b" (mkPlannedStmt 2%N [200%N]).
Definition sample_qC : QueryDesc := mkQueryDesc "select c" (mkPlannedStmt 3%N [300%N]).

(** Backend [i] starts [qd] and goes once round the wait loop. *)
Definition sample_start (i : nat) (qd : QueryDesc) : list (nat * Event) :=
  [(i, EvExecutorStart qd 0); (i, EvPollRead); (i, EvPollAct)].

(** Backend [i] runs [qd] to its end. *)
Definition sample_run (i : nat) (qd : QueryDesc) (o : Outcome) : list (nat * Event) :=
  [(i, EvRunEnter); (i, EvRunExit qd o)].

(** Backend 1 starts B and takes table 8; backend 0 starts C, takes
    table 7 and runs C; backend 0 starts A and is admitted. *)
Definition sample_prefix : list (nat * Event) :=
  sample_start 1 sample_qB
  ++ [(1, EvLockOuter); (1, EvLockInner true); (1, EvLockInner true); (1, EvLockOuter)]%nat
  ++ sample_start 0 sample_qC
  ++ [(0, EvLockOuter); (0, EvLockInner true); (0, EvLockInner true); (0, EvLockOuter)]%nat
  ++ sample_run 0 sample_qC Returned
  ++ sample_start 0 sample_qA.

Definition sample_at_pass : System :=
  default (initial_system [1; 1]%N)
          (run_trace (H := sample) sample_prefix (initial_system [1; 1]%N)).

(** Backend 0 enters the loops for A, takes table 9 and skips table 7,
    which it holds already. *)
Definition sample_pass : list (nat * Event) :=
  [(0, EvLockOuter); (0, EvLockInner true); (0, EvLockInner true)]%nat.

Definition sample_in_pass : System :=
  default sample_at_pass (run_trace (H := sample) sample_pass sample_at_pass).

Definition sample_backend : Backend := mkBackend 1%N (-1) 0 1 false.
Definition sample_keyA : QueryTableKey := mkKey 0%N 1%N.

(** Two queries that touch no IMMV, both started by backend 0 before
    either is run; then the first is run twice. *)
Definition sample_qD : QueryDesc := mkQueryDesc "select d" (mkPlannedStmt 4%N []).
Definition sample_qE : QueryDesc := mkQueryDesc "select e" (mkPlannedStmt 5%N []).

Definition sample_two_portals : list (nat * Event) :=
  sample_start 0 sample_qD ++ [(0%nat, EvLockOuter)]
  ++ sample_start 0 sample_qE ++ [(0%nat, EvLockOuter)]
  ++ sample_run 0 sample_qD Returned
  ++ sample_run 0 sample_qD Returned.

(** Backend 1 starts B, takes table 8, and the run of B ends as [o]. *)
Definition sample_whole_query (o : Outcome) : list (nat * Event) :=
  sample_start 1 sample_qB
  ++ [(1, EvLockOuter); (1, EvLockInner true); (1, EvLockInner true); (1, EvLockOuter)]%nat
  ++ sample_run 1 sample_qB o.

Definition sample_idle_world : World :=
  mkWorld (mkProc (fresh_backend 1%N) PcIdle) initial_shmem ∅.

(** Backend 1 as it leaves the start hook for B. *)
Definition sample_world_B : World :=
  default sample_idle_world
    (s ← run_trace (H := sample) (take 7 (sample_whole_query Raised))
           (initial_system [1; 1]%N);
     view 1 s).

Definition sample_after_two_portals : System :=
  default (initial_system [1; 1]%N)
    (run_trace (H := sample) sample_two_portals (initial_system [1; 1]%N)).

(** Backend 0 inside the loops for A, about to look at table 7. *)
Definition sample_at_held : System :=
  default sample_at_pass (run_trace (H := sample) (take 2 sample_pass) sample_at_pass).

Definition sample_raise (w : World) : Outcome * World := (Raised, w).

(** Backend 1 runs B to its end and keeps the lock on table 8; backend
    0 starts A, takes tables 9 and 7, is refused table 8 and retreats:
    nothing runs, and A waits. *)
Definition sample_all_asleep : System :=
  default (initial_system [1; 1]%N)
    (run_trace (H := sample)
       (sample_whole_query Returned
        ++ sample_start 0 sample_qA
        ++ [(0, EvLockOuter); (0, EvLockInner true); (0, EvLockInner true);
            (0, EvLockInner true)]%nat)
       (initial_system [1; 1]%N)).

(** A statement that affects more tables than a record holds. *)
Definition sample_qBig : QueryDesc :=
  mkQueryDesc "select big" (mkPlannedStmt 6%N [100; 200; 300; 400; 500]%N).

(** Backend 0 starts the big statement, whose registration is refused;
    then it starts D and runs it twice. *)
Definition sample_refused_then_rerun : list (nat * Event) :=
  [(0%nat, EvExecutorStart sample_qBig 0)]
  ++ sample_start 0 sample_qD ++ [(0%nat, EvLockOuter)]
  ++ sample_run 0 sample_qD Returned
  ++ sample_run 0 sample_qD Returned.

Definition sample_locks_one_table (i : nat) : list (nat * Event) :=
  [(i, EvLockOuter); (i, EvLockInner true); (i, EvLockInner true); (i, EvLockOuter)].

Definition sample_after (tr : list (nat * Event)) (s : System) : System :=
  default s (run_trace (H := sample) tr s).

(** Backend 1 about to enter the loops for B, and past them; then
    backend 0 about to enter the loops for C, and past them. *)
Definition sample_B_at_pass : System :=
  sample_after (sample_start 1 sample_qB) (initial_system [1; 1]%N).
Definition sample_B_past : System :=
  sample_after (sample_locks_one_table 1) sample_B_at_pass.
Definition sample_C_at_pass : System :=
  sample_after (sample_start 0 sample_qC) sample_B_past.
Definition sample_C_past : System :=
  sample_after (sample_locks_one_table 0) sample_C_at_pass.

Definition sample_keyB : QueryTableKey := mkKey 1%N 2%N.
Definition sample_keyC : QueryTableKey := mkKey 0%N 3%N.

(** ** The two loops, run to their end

    One backend goes through the loops over the affected tables and
    their base tables until it leaves them, by return or by retreat.
    [grants n] is the lock manager's answer, as far as other lock modes
    go, at the turn taken with [n] turns of fuel left. *)

Section LockLoops.
Context `{Collaborators}.

Definition in_lock_loops (c : Pc) : bool :=
  match c with
  | PcLockOuter _ _ _ | PcLockInner _ _ _ _ _ => true
  | _ => false
  end.

Definition lock_loops_turn (me : Pid) (grant : bool) (w : World) : option World :=
  match pc (proc w) with
  | PcLockOuter _ _ _ => lock_outer w
  | PcLockInner _ _ _ _ _ => lock_inner me grant w
  | _ => None
  end.

Fixpoint run_lock_loops (me : Pid) (grants : nat -> bool) (fuel : nat) (w : World) : World :=
  match fuel with
  | O => w
  | S fuel' =>
      match lock_loops_turn me (grants fuel') w with
      | Some w' => run_lock_loops me grants fuel' w'
      | None => w
      end
  end.

(** The number of base tables behind an IMMV. *)
Definition refed_num (immv : Oid) : nat :=
  match getRefrenceImmv immv with
  | Some r => refed_table_num r
  | None => 0
  end.

(** A bound on the turns left at the test of the outer loop with index
    [i], when [n] indices remain below [MAX_AFFECTED_TABLE]: per index
    the test of the outer loop, the base tables, and the last test of
    the inner loop. *)
Fixpoint turns_from (aff : list Oid) (i n : nat) : nat :=
  match n with
  | O => 1
  | S n' => 2 + refed_num (affected_at aff i) + turns_from aff (S i) n'
  end.

Definition lock_loops_bound (aff : list Oid) : nat :=
  turns_from aff 0 MAX_AFFECTED_TABLE.

(** The turns left at a point of the loops. *)
Definition turns_left (aff : list Oid) (c : Pc) : nat :=
  match c with
  | PcLockOuter _ _ i => turns_from aff i (MAX_AFFECTED_TABLE - i)
  | PcLockInner _ _ i r j =>
      1 + (refed_table_num r - j) + turns_from aff (S i) (MAX_AFFECTED_TABLE - S i)
  | _ => 0
  end.

(** *** [getLocksHeldByMe]

    [all_immvs] and [immv_count] are the list of IMMVs kept by the
    dependency index; the string gets the entries on which the backend
    holds [ExclusiveLock], each printed with [%d] and followed by a
    blank. *)
Definition getLocksHeldByMe (me : Pid) (b : Backend) (all_immvs : list Oid)
    (immv_count : nat) (lt : LockTable) : string :=
  fold_left
    (fun info i =>
       let immv := default InvalidOid (all_immvs !! i) in
       if LockHeldByMe me (SetLocktagRelationOid b immv) lt
       then info +:+ pretty (int_wrap (Z.of_N immv)) +:+ " "
       else info)
    (seq 0 immv_count) EmptyString.

End LockLoops.

(** A utility command that runs a second utility command inside it:
    the body of the outer command is the inner command followed by
    [rest]. *)
Definition nested_utility `{Collaborators}
    (inner rest : World -> Outcome * World) (w : World) : Outcome * World :=
  pg_hook_process_utility
    (fun w0 =>
       match pg_hook_process_utility inner w0 with
       | (Raised, w1) => (Raised, w1)
       | (Returned, w1) => rest w1
       end) w.

(** ** [parseNameAndColumns]

    The argument of [create_immv] that names the view: a qualified
    name, followed by an optional list of column names in
    parentheses. *)

(** A C string, by its characters up to the terminating zero. *)
Definition cstring : Type := list Ascii.ascii.

(** The zero byte, the double quote, the two parentheses and the
    blank, by their codes. *)
Definition NUL : Ascii.ascii := Ascii.ascii_of_nat 0.
Definition DQUOTE : Ascii.ascii := Ascii.ascii_of_nat 34.
Definition LPAREN : Ascii.ascii := Ascii.ascii_of_nat 40.
Definition RPAREN : Ascii.ascii := Ascii.ascii_of_nat 41.
Definition BLANK : Ascii.ascii := Ascii.ascii_of_nat 32.

(** The ways [parseNameAndColumns] raises: inside
    [stringToQualifiedNameList], and by its own three [ereport]s. *)
Inductive ParseError : Type :=
| NAME_LIST_RAISED
| EXPECTED_RIGHT_PARENTHESIS
| INVALID_NAME_SYNTAX
| NO_COLUMN_NAME.

(** [for (ptr = rawname; *ptr; ptr++)] followed by [*ptr++ = '\0']:
    the characters of [rawname] once it is cut, and the characters from
    [ptr] on when the loop left by [break] ([has_colnames]). *)
Fixpoint scan_left_paren (in_quote : bool) (s : cstring) : cstring * option cstring :=
  match s with
  | [] => ([], None)
  | c :: s' =>
      if Ascii.eqb c DQUOTE then
        let '(rawname, ptr) := scan_left_paren (negb in_quote) s' in (c :: rawname, ptr)
      else if Ascii.eqb c LPAREN && negb in_quote then ([], Some s')
      else
        let '(rawname, ptr) := scan_left_paren in_quote s' in (c :: rawname, ptr)
  end.

(** The value of [in_quote] after the characters of [s]. *)
Definition in_quote_after (in_quote : bool) (s : cstring) : bool :=
  fold_left (fun q c => if Ascii.eqb c DQUOTE then negb q else q) s in_quote.

Section NameAndColumns.
(** The host's functions: [stringToQualifiedNameList] answers [None]
    when it raises, [SplitIdentifierString] (with the separator [',']) when
    it returns [false]. *)
Variable stringToQualifiedNameList : cstring -> option (list cstring).
Variable scanner_isspace : Ascii.ascii -> bool.
Variable SplitIdentifierString : cstring -> option (list cstring).

(** [while (--ptr2 > ptr) { if (!scanner_isspace( *ptr2)) break; }], with
    [ptr2] counted from [ptr], entered after a decrement that gave
    [ptr2]; the result is where [ptr2] stands after the loop. *)
Fixpoint scan_right_paren (ptr : cstring) (ptr2 : nat) : nat :=
  match ptr2 with
  | O => O
  | S p => if scanner_isspace (nth ptr2 ptr NUL) then scan_right_paren ptr p else ptr2
  end.

(** [names] and [colNames] are the two lists the function fills;
    [colNames] comes in as the caller has it and is appended to.  When
    nothing follows the left parenthesis, [--ptr2] stands on the zero
    that replaced the parenthesis. *)
Definition parseNameAndColumns (str : cstring) (colNames : list cstring)
    : ParseError + (list cstring * list cstring) :=
  let '(rawname, ptr) := scan_left_paren false str in
  match stringToQualifiedNameList rawname with
  | None => inl NAME_LIST_RAISED
  | Some names =>
      match ptr with
      | None => inr (names, colNames)
      | Some ptr =>
          match length ptr with
          | O => inl EXPECTED_RIGHT_PARENTHESIS
          | S n =>
              let ptr2 := scan_right_paren ptr n in
              if negb (Ascii.eqb (nth ptr2 ptr NUL) RPAREN)
              then inl EXPECTED_RIGHT_PARENTHESIS
              else
                match SplitIdentifierString (take ptr2 ptr) with
                | None => inl INVALID_NAME_SYNTAX
                | Some cols =>
                    if (length cols =? 0)%nat then inl NO_COLUMN_NAME
                    else inr (names, colNames ++ cols)
                end
          end
      end
  end.

End NameAndColumns.

(** A host for the examples: a name list of one name, refused when
    empty; blanks as the only space; one column for a column text that
    is not empty. *)
Definition sample_name_list (s : cstring) : option (list cstring) :=
  match s with
  | [] => None
  | _ => Some [s]
  end.

Definition sample_isspace (c : Ascii.ascii) : bool := Ascii.eqb c BLANK.

Definition sample_split (s : cstring) : option (list cstring) :=
  match s with
  | [] => Some []
  | _ => Some [s]
  end.

Definition sample_parse (s : string) : ParseError + (list cstring * list cstring) :=
  parseNameAndColumns sample_name_list sample_isspace sample_split
    (String.list_ascii_of_string s) [].

(** The name [t(1)] in double quotes, qualified by [.v]. *)
Definition sample_quoted_name : cstring :=
  DQUOTE :: String.list_ascii_of_string "t(1)"
  ++ DQUOTE :: String.list_ascii_of_string ".v".

(** ** The catalog [pg_ivm_immv] and the object access hook *)

(** The host's catalogs, as far as [pg_ivm.c] reads and writes them:
    the relations of the namespace [pg_catalog] by name, the kind of
    every relation that exists, and the rows of each table, by the OID
    in their first column (for [pg_ivm_immv], [immvrelid], which its
    primary key keeps unique), with the view definition as the rest of
    the row. *)
Record Catalog : Type := mkCatalog {
  pg_catalog_names : gmap string Oid;
  pg_class : gmap Oid Z;
  rel_tuples : gmap Oid (gmap Oid string)
}.

Definition RELKIND_RELATION : Z := 114.
Definition RELKIND_INDEX : Z := 105.
Definition RELKIND_PARTITIONED_INDEX : Z := 73.
Definition RELKIND_COMPOSITE_TYPE : Z := 99.

Definition RelationRelationId : Oid := 1259%N.

Definition OidIsValid (objectId : Oid) : bool := negb (objectId =? InvalidOid)%N.

Definition get_relname_relid (cat : Catalog) (relname : string) : Oid :=
  default InvalidOid (pg_catalog_names cat !! relname).

(** Whether [table_open] returns: the relation exists and is neither an
    index nor a composite type.  No relation has the OID zero. *)
Definition table_open (cat : Catalog) (relationId : Oid) : bool :=
  OidIsValid relationId &&
  match pg_class cat !! relationId with
  | Some relkind =>
      negb (relkind =? RELKIND_INDEX) && negb (relkind =? RELKIND_PARTITIONED_INDEX)
      && negb (relkind =? RELKIND_COMPOSITE_TYPE)
  | None => false
  end.

(** Whether [systable_beginscan] with [indexOK] returns: the index
    exists and is an index. *)
Definition index_open (cat : Catalog) (indexId : Oid) : bool :=
  OidIsValid indexId &&
  match pg_class cat !! indexId with
  | Some relkind => (relkind =? RELKIND_INDEX) || (relkind =? RELKIND_PARTITIONED_INDEX)
  | None => false
  end.

(** [systable_getnext] of a scan of [rel] for the key [objectId]. *)
Definition systable_getnext (cat : Catalog) (rel objectId : Oid) : option string :=
  rows ← rel_tuples cat !! rel; rows !! objectId.

Definition CatalogTupleDelete (cat : Catalog) (rel objectId : Oid) : Catalog :=
  mkCatalog (pg_catalog_names cat) (pg_class cat)
            (alter (delete objectId) rel (rel_tuples cat)).

(** The two OIDs that [pg_ivm.c] keeps in static variables. *)
Record Statics : Type := mkStatics {
  pg_ivm_immv_id : Oid;
  pg_ivm_immv_pkey_id : Oid
}.

Definition PgIvmImmvRelationId (cat : Catalog) (st : Statics) : Oid * Statics :=
  let st1 :=
    if negb (OidIsValid (pg_ivm_immv_id st))
    then mkStatics (get_relname_relid cat "pg_ivm_immv") (pg_ivm_immv_pkey_id st)
    else st in
  (pg_ivm_immv_id st1, st1).

Definition PgIvmImmvPrimaryKeyIndexId (cat : Catalog) (st : Statics) : Oid * Statics :=
  let st1 :=
    if negb (OidIsValid (pg_ivm_immv_pkey_id st))
    then mkStatics (pg_ivm_immv_id st) (get_relname_relid cat "pg_ivm_immv_pkey")
    else st in
  (pg_ivm_immv_pkey_id st1, st1).

Inductive ObjectAccessType : Type :=
| OAT_POST_CREATE
| OAT_DROP
| OAT_POST_ALTER
| OAT_NAMESPACE_SEARCH
| OAT_FUNCTION_EXECUTE
| OAT_TRUNCATE.

#[global] Instance ObjectAccessType_eq_dec : EqDecision ObjectAccessType.
Proof. solve_decision. Defined.

(** [PrevObjectAccessHook] is [None] when no hook was installed before;
    an error it raises leaves the hook at once.  [subId] is an [int],
    tested with [OidIsValid]. *)
Definition PgIvmObjectAccessHook
    (PrevObjectAccessHook : option (Statics * Catalog -> Outcome * (Statics * Catalog)))
    (access : ObjectAccessType) (classId objectId : Oid) (subId : Z)
    (s : Statics * Catalog) : Outcome * (Statics * Catalog) :=
  match match PrevObjectAccessHook with
        | Some prev => prev s
        | None => (Returned, s)
        end with
  | (Raised, s1) => (Raised, s1)
  | (Returned, (st, cat)) =>
      if bool_decide (access = OAT_DROP) && (classId =? RelationRelationId)%N
         && (subId =? 0)
      then
        let '(pgIvmImmvOid, st1) := PgIvmImmvRelationId cat st in
        if (pgIvmImmvOid =? InvalidOid)%N then (Returned, (st1, cat))
        else if negb (table_open cat pgIvmImmvOid) then (Raised, (st1, cat))
        else
          let '(pkey, st2) := PgIvmImmvPrimaryKeyIndexId cat st1 in
          if negb (index_open cat pkey) then (Raised, (st2, cat))
          else
            match systable_getnext cat pgIvmImmvOid objectId with
            | Some _ => (Returned, (st2, CatalogTupleDelete cat pgIvmImmvOid objectId))
            | None => (Returned, (st2, cat))
            end
      else (Returned, (st, cat))
  end.

(** [isImmv]; the answer is [None] when [table_open] or the scan
    raises. *)
Definition isImmv (immv_oid : Oid) (s : Statics * Catalog)
    : option bool * (Statics * Catalog) :=
  let '(st, cat) := s in
  let '(pgIvmImmvOid, st1) := PgIvmImmvRelationId cat st in
  if negb (table_open cat pgIvmImmvOid) then (None, (st1, cat))
  else
    let '(pkey, st2) := PgIvmImmvPrimaryKeyIndexId cat st1 in
    if negb (index_open cat pkey) then (None, (st2, cat))
    else
      match systable_getnext cat pgIvmImmvOid immv_oid with
      | Some _ => (Some true, (st2, cat))
      | None => (Some false, (st2, cat))
      end.

(** A database with the extension installed: the catalog is relation
    5000 with the index 5001, and holds the view 100. *)
Definition sample_catalog : Catalog :=
  mkCatalog
    (<["pg_ivm_immv" := 5000%N]> (<["pg_ivm_immv_pkey" := 5001%N]> ∅))
    (<[5000%N := RELKIND_RELATION]> (<[5001%N := RELKIND_INDEX]>
       (<[100%N := RELKIND_RELATION]> (<[9%N := RELKIND_RELATION]> ∅))))
    (<[5000%N := <[100%N := "select 1"]> ∅]> ∅).

(** The same database after the extension was dropped: the two
    relations are gone. *)
Definition sample_catalog_dropped : Catalog :=
  mkCatalog ∅ (<[100%N := RELKIND_RELATION]> (<[9%N := RELKIND_RELATION]> ∅)) ∅.

Definition sample_statics : Statics := mkStatics InvalidOid InvalidOid.

(** ** The wait loop *)

(** The backend is in the wait loop for the record [k]: at the label
    [waiting], or between the read and the rest of the body. *)
Definition waits_on (k : QueryTableKey) (c : Pc) : Prop :=
  c = PcWaiting k ∨ ∃ st running, c = PcPolled k st running.

Definition is_poll_event (ev : Event) : bool :=
  match ev with
  | EvPollRead | EvPollAct => true
  | _ => false
  end.

(** No backend stands between the read and the rest of the loop body. *)
Definition between_rounds (s : System) : Prop :=
  ∀ i p, procs s !! i = Some p ->
    match pc p with
    | PcPolled _ _ _ => False
    | _ => True
    end.

(** Nobody but [me] holds the lock of a relation as backend [b] tags
    it. *)
Definition uncontended `{Collaborators} (me : Pid) (b : Backend) (lt : LockTable) : Prop :=
  ∀ relid p n, lt !! SetLocktagRelationOid b relid = Some (p, n) -> p = me.

(** Backend 0 starts D and E and leaves the start hook both times;
    then backend 1 starts B and finds the cap reached. *)
Definition sample_cap_reached : System :=
  sample_after
    (sample_start 0 sample_qD ++ [(0%nat, EvLockOuter)]
     ++ sample_start 0 sample_qE ++ [(0%nat, EvLockOuter)]
     ++ sample_start 1 sample_qB)
    (initial_system [1; 1]%N).

Definition sample_polls : list (nat * Event) :=
  [(1, EvPollRead); (1, EvPollAct); (1, EvPollRead)]%nat.

(** How a backend can differ from what it was when only wait loops ran
    and the counter was not zero: not at all, or it went from the label
    to the read, or it read [QUERY_AVAILABLE] and left the loop. *)
Definition polled_from (s0 : Shmem) (p0 p : Proc) : Prop :=
  priv p = priv p0
  ∧ (pc p = pc p0
     ∨ ∃ k e, pc p0 = PcWaiting k ∧ hash_search k s0 = Some e
              ∧ (pc p = PcPolled k (status e) (runningQuery s0)
                 ∨ (status e = QUERY_AVAILABLE ∧ pc p = PcLockOuter k [] 0))).

(** Backend 1 about to enter the loops for B, with no lock held by
    anybody. *)
Definition sample_world_B_at_pass : World :=
  default sample_idle_world (view 1 sample_B_at_pass).

(** ** Running queries

    The query of backend [i] under the record [e] is running in [s]:
    the backend, with private variables [b], went through the two loops
    for [e] to their end, so that the start hook returned, and since
    then its transaction has not ended.  The query is run, and cleaned
    up, inside the transaction that started it, so the time from the
    return of the start hook to the cleanup lies within. *)
Definition Running `{Collaborators} (i : nat) (b : Backend) (e : QueryTableEntry)
    (s : System) : Prop :=
  ∃ k s0 tr s1 tr1,
    key_pid k = pid_of i
    ∧ procs s0 !! i = Some (mkProc b (PcLockOuter k [] 0))
    ∧ hash_search k (sys_shmem s0) = Some e
    ∧ pass_trace i tr
    ∧ run_trace tr s0 = Some s1
    ∧ procs s1 !! i = Some (mkProc b PcIdle)
    ∧ no_transaction_end i tr1
    ∧ run_trace tr1 s1 = Some s.

(** The base tables of an index entry have OIDs that are not negative
    as [int]s. *)
Definition small_oids (r : RefedImmv) : Prop :=
  ∀ j, (j < refed_table_num r)%nat -> (refed_at r j < 2 ^ 31)%N.

Definition pc_small_oids (c : Pc) : Prop :=
  match c with
  | PcLockInner _ _ _ r _ => small_oids r
  | _ => True
  end.

(** The two portals again, and then the run of E, the statement that
    was started second and not run so far. *)
Definition sample_two_portals_then_E : list (nat * Event) :=
  sample_two_portals ++ sample_run 0 sample_qE Returned.

Definition sample_keyE : QueryTableKey := mkKey 0%N 5%N.

(** A trace in which backend [i] does nothing but go round the wait
    loop and the two lock loops of the start hook. *)
Definition hook_trace (i : nat) (tr : list (nat * Event)) : Prop :=
  Forall (fun je => je.1 = i -> is_poll_event je.2 || is_lock_event je.2 = true) tr.

(** Backend 0 enters a utility command, which runs a second utility
    command inside it; the inner command returns. *)
Definition sample_nested_utility : list (nat * Event) :=
  [(0, EvUtilityEnter); (0, EvUtilityEnter); (0, EvUtilityExit)]%nat.

(** Then the outer command, still under way, starts the statement A. *)
Definition sample_nested_utility_then_start : list (nat * Event) :=
  sample_nested_utility ++ [(0%nat, EvExecutorStart sample_qA 0)].

(** Backend 0 inside a utility command, while backend 1 has started B. *)
Definition sample_inside_utility : System :=
  sample_after ((0%nat, EvUtilityEnter) :: sample_start 1 sample_qB)
    (initial_system [1; 1]%N).

Definition sample_world_inside_utility : World :=
  default sample_idle_world (view 0 sample_inside_utility).

(** * Properties *)

Lemma int_incr_exact z : INT_MIN <= z < INT_MAX -> int_incr z = z + 1.
Proof.
  unfold int_incr, int_wrap, INT_MIN, INT_MAX. intros Hz.
  rewrite Z.mod_small; lia.
Qed.

Lemma int_decr_exact z : INT_MIN < z <= INT_MAX -> int_decr z = z - 1.
Proof.
  unfold int_decr, int_wrap, INT_MIN, INT_MAX. intros Hz.
  rewrite Z.mod_small; lia.
Qed.

Lemma explain_flags_test eflags :
  (Z.land eflags (Z.lor EXEC_FLAG_EXPLAIN_GENERIC EXEC_FLAG_EXPLAIN_ONLY) =? 0) = false
  <-> Z.land eflags EXEC_FLAG_EXPLAIN_GENERIC ≠ 0 ∨ Z.land eflags EXEC_FLAG_EXPLAIN_ONLY ≠ 0.
Proof.
  rewrite Z.eqb_neq, Z.land_lor_distr_r, Z.lor_eq_0_iff.
  destruct (decide (Z.land eflags EXEC_FLAG_EXPLAIN_GENERIC = 0));
    destruct (decide (Z.land eflags EXEC_FLAG_EXPLAIN_ONLY = 0)); intuition.
Qed.

Section HookProperties.
Context `{Collaborators}.

Lemma execution_start_entry_skip me qd eflags w :
  execution_start_skips (priv (proc w)) qd eflags = true ->
  execution_start_entry me qd eflags w = (Returned, w).
Proof. intros Hs. unfold execution_start_entry. by rewrite Hs. Qed.

(** C9: when the source text of the query is empty, or the executor
    flags carry [EXEC_FLAG_EXPLAIN_GENERIC] or [EXEC_FLAG_EXPLAIN_ONLY],
    the start hook does what the standard start does and nothing more:
    it returns right after it and leaves the backend, the shared segment
    and the lock table as the standard start left them; nothing is
    registered, nothing is waited for, nothing is locked. *)
Theorem execution_start_returns_for_empty_or_explain me qd eflags w :
  sourceText qd = EmptyString
  ∨ Z.land eflags EXEC_FLAG_EXPLAIN_GENERIC ≠ 0
  ∨ Z.land eflags EXEC_FLAG_EXPLAIN_ONLY ≠ 0 ->
  execution_start_entry me qd eflags w = (Returned, w)
  ∧ ∀ standard_start,
      pg_hook_execution_start me qd eflags standard_start w = standard_start w.
Proof.
  intros Hc.
  assert (∀ w1, execution_start_entry me qd eflags w1 = (Returned, w1)) as Hskip.
  { intros w1. apply execution_start_entry_skip. unfold execution_start_skips.
    destruct Hc as [Htext | Hflags].
    - rewrite bool_decide_eq_true_2; done.
    - apply explain_flags_test in Hflags. rewrite Hflags. simpl.
      by rewrite orb_true_r. }
  split; [apply Hskip|]. intros standard_start. unfold pg_hook_execution_start.
  destruct (standard_start w) as [[] w1]; [apply Hskip|done].
Qed.

End HookProperties.

(** ** The lock manager *)

Lemma LockHeldByMe_my_count me tag (lt : LockTable) :
  LockHeldByMe me tag lt = bool_decide (my_count me tag lt ≠ 0%nat).
Proof.
  unfold LockHeldByMe, my_count. destruct (lt !! tag) as [[p n]|]; [|done].
  destruct (decide (p = me)) as [->|Hp].
  - rewrite !bool_decide_eq_true_2 by done. done.
  - rewrite !(bool_decide_eq_false_2 (p = me)) by done. done.
Qed.

Lemma my_count_acquire me tag grant (lt lt' : LockTable) tag' :
  LockAcquireConditional me tag grant lt = (true, lt') ->
  my_count me tag' lt'
  = if decide (tag' = tag) then S (my_count me tag lt) else my_count me tag' lt.
Proof.
  unfold LockAcquireConditional, my_count. intros Ha.
  destruct (lt !! tag) as [[p n]|] eqn:Ht.
  - destruct (decide (p = me)) as [->|Hp].
    + rewrite bool_decide_eq_true_2 in Ha by done. simplify_eq.
      destruct (decide (tag' = tag)) as [->|Hne].
      * rewrite lookup_insert_eq. by rewrite !bool_decide_eq_true_2.
      * by rewrite lookup_insert_ne.
    + rewrite bool_decide_eq_false_2 in Ha by done. simplify_eq.
  - destruct grant; simplify_eq.
    destruct (decide (tag' = tag)) as [->|Hne].
    + rewrite lookup_insert_eq. by rewrite bool_decide_eq_true_2.
    + by rewrite lookup_insert_ne.
Qed.

Lemma my_count_acquire_other me p tag grant (lt : LockTable) tag' :
  p ≠ me ->
  my_count p tag' (LockAcquireConditional me tag grant lt).2 = my_count p tag' lt.
Proof.
  unfold LockAcquireConditional, my_count. intros Hp.
  destruct (lt !! tag) as [[q n]|] eqn:Ht.
  - destruct (decide (q = me)) as [->|Hq].
    + rewrite bool_decide_eq_true_2 by done. simpl.
      destruct (decide (tag' = tag)) as [->|Hne].
      * rewrite lookup_insert_eq, Ht. by rewrite !(bool_decide_eq_false_2 (me = p)).
      * by rewrite lookup_insert_ne.
    + by rewrite bool_decide_eq_false_2.
  - destruct grant; [|done]. simpl.
    destruct (decide (tag' = tag)) as [->|Hne].
    + rewrite lookup_insert_eq, Ht. by rewrite (bool_decide_eq_false_2 (me = p)).
    + by rewrite lookup_insert_ne.
Qed.

Lemma my_count_release me tag (lt : LockTable) tag' :
  my_count me tag' (LockRelease me tag lt)
  = if decide (tag' = tag) then Nat.pred (my_count me tag lt) else my_count me tag' lt.
Proof.
  unfold LockRelease, my_count.
  destruct (lt !! tag) as [[p n]|] eqn:Ht.
  - destruct (decide (p = me)) as [->|Hp].
    + rewrite !bool_decide_eq_true_2 by done.
      destruct (decide (tag' = tag)) as [->|Hne].
      * destruct n as [|[|n]].
        -- by rewrite lookup_delete_eq.
        -- by rewrite lookup_delete_eq.
        -- rewrite lookup_insert_eq. by rewrite bool_decide_eq_true_2.
      * destruct n as [|[|n]].
        -- by rewrite lookup_delete_ne.
        -- by rewrite lookup_delete_ne.
        -- by rewrite lookup_insert_ne.
    + rewrite !(bool_decide_eq_false_2 (p = me)) by done.
      destruct (decide (tag' = tag)) as [->|Hne]; [|done].
      rewrite Ht. by rewrite (bool_decide_eq_false_2 (p = me)).
  - destruct (decide (tag' = tag)) as [->|Hne]; [|done]. by rewrite Ht.
Qed.

Lemma my_count_release_other me p tag (lt : LockTable) tag' :
  p ≠ me ->
  my_count p tag' (LockRelease me tag lt) = my_count p tag' lt.
Proof.
  unfold LockRelease, my_count. intros Hp.
  destruct (lt !! tag) as [[q n]|] eqn:Ht; [|done].
  destruct (decide (q = me)) as [->|Hq].
  - rewrite bool_decide_eq_true_2 by done.
    destruct (decide (tag' = tag)) as [->|Hne].
    + rewrite Ht, (bool_decide_eq_false_2 (me = p)) by done.
      destruct n as [|[|n]].
      * by rewrite lookup_delete_eq.
      * by rewrite lookup_delete_eq.
      * rewrite lookup_insert_eq. by rewrite (bool_decide_eq_false_2 (me = p)).
    + destruct n as [|[|n]].
      * by rewrite lookup_delete_ne.
      * by rewrite lookup_delete_ne.
      * by rewrite lookup_insert_ne.
  - by rewrite bool_decide_eq_false_2.
Qed.

(** [ExclusiveLock] has one holder. *)
Lemma my_count_exclusive p q tag (lt : LockTable) :
  my_count p tag lt ≠ 0%nat -> my_count q tag lt ≠ 0%nat -> p = q.
Proof.
  unfold my_count. destruct (lt !! tag) as [[r n]|]; [|done].
  repeat case_bool_decide; congruence.
Qed.

(** The end of a transaction takes every lock of the backend and none
    of another backend. *)
Lemma my_count_release_all me tag (lt : LockTable) :
  my_count me tag (LockReleaseAll me lt) = 0%nat.
Proof.
  unfold my_count, LockReleaseAll.
  destruct (filter _ lt !! tag) as [[p n]|] eqn:Hf; [|done].
  apply map_lookup_filter_Some in Hf as [_ Hp]. simpl in Hp.
  by rewrite bool_decide_eq_false_2.
Qed.

Lemma my_count_release_all_other me p tag (lt : LockTable) :
  p ≠ me ->
  my_count p tag (LockReleaseAll me lt) = my_count p tag lt.
Proof.
  unfold my_count, LockReleaseAll. intros Hp.
  destruct (lt !! tag) as [[q n]|] eqn:Ht.
  - destruct (decide (q = me)) as [->|Hq].
    + rewrite (proj2 (map_lookup_filter_None _ lt tag)).
      * by rewrite bool_decide_eq_false_2.
      * right. intros x Hx. simplify_eq. simpl. by intros [].
    + rewrite (proj2 (map_lookup_filter_Some _ lt tag (q, n))); [done|]. by split.
  - rewrite (proj2 (map_lookup_filter_None _ lt tag)); [done|]. by left.
Qed.

Lemma transaction_end_inv me w w' :
  transaction_end me w = Some w' ->
  w' = with_pc PcIdle (with_locktable (LockReleaseAll me (locktable w)) w).
Proof. unfold transaction_end. destruct (pc (proc w)); by intros [= <-]. Qed.

(** ** Bitmapsets *)

Lemma bms_insert_fresh (a : Bitmapset) (x : Oid) :
  x ∉ a -> bms_insert a x ≡ₚ x :: a.
Proof.
  induction a as [|y a IH]; intros Hx; simpl; [done|].
  apply not_elem_of_cons in Hx as [Hxy Hxa].
  destruct (x <? y)%N; [done|].
  destruct (N.eqb_spec x y) as [->|_]; [done|].
  rewrite IH by done. apply Permutation_swap.
Qed.

(** ** One pass over the dependency set *)

Section PassProperties.
Context `{Collaborators}.

Lemma SetLocktagRelationOid_inj b x y :
  SetLocktagRelationOid b x = SetLocktagRelationOid b y -> x = y.
Proof. unfold SetLocktagRelationOid, SET_LOCKTAG_RELATION. congruence. Qed.

Lemma elem_of_newly_tags b x newly :
  SetLocktagRelationOid b x ∈ newly_tags b newly <-> x ∈ newly.
Proof.
  unfold newly_tags. rewrite list_elem_of_fmap. split.
  - intros (y & Heq & Hy). by apply SetLocktagRelationOid_inj in Heq as ->.
  - intros Hx. by exists x.
Qed.

Lemma my_count_release_newlyLocked me b newly (lt : LockTable) tag :
  NoDup newly ->
  my_count me tag (release_newlyLocked me b newly lt)
  = if bool_decide (tag ∈ newly_tags b newly)
    then Nat.pred (my_count me tag lt) else my_count me tag lt.
Proof.
  unfold release_newlyLocked. revert lt.
  induction newly as [|x l IH]; intros lt Hnd; simpl; [done|].
  apply NoDup_cons in Hnd as [Hx Hnd].
  rewrite IH by done. unfold UnlockRelationOid. rewrite my_count_release.
  destruct (decide (tag = SetLocktagRelationOid b x)) as [->|Hne].
  - rewrite (bool_decide_eq_false_2 (_ ∈ newly_tags b l)).
    + rewrite bool_decide_eq_true_2; [done|]. unfold newly_tags. simpl. left.
    + by rewrite elem_of_newly_tags.
  - unfold newly_tags. simpl.
    destruct (decide (tag ∈ SetLocktagRelationOid b <$> l)) as [Hin|Hin].
    + rewrite !bool_decide_eq_true_2; [done| by right | done].
    + rewrite !bool_decide_eq_false_2; [done| |done].
      rewrite elem_of_cons. tauto.
Qed.

Lemma my_count_release_newlyLocked_other me p b newly (lt : LockTable) tag :
  p ≠ me ->
  my_count p tag (release_newlyLocked me b newly lt) = my_count p tag lt.
Proof.
  unfold release_newlyLocked. intros Hp. revert lt.
  induction newly as [|x l IH]; intros lt; simpl; [done|].
  rewrite IH. unfold UnlockRelationOid. by apply my_count_release_other.
Qed.

Lemma pass_inv_begin me b (lt0 : LockTable) : pass_inv me b lt0 [] lt0.
Proof.
  split; [constructor|]. intros tag. unfold newly_tags. by simpl.
Qed.

(** Releasing [newlyLocked] gives the backend back the holdings it had
    when the pass began. *)
Lemma pass_inv_release me b (lt0 lt : LockTable) newly :
  pass_inv me b lt0 newly lt ->
  pass_inv me b lt0 [] (release_newlyLocked me b newly lt).
Proof.
  intros [Hnd Hc]. split; [constructor|]. intros tag.
  unfold newly_tags at 1. simpl.
  rewrite my_count_release_newlyLocked by done.
  specialize (Hc tag). destruct (bool_decide (tag ∈ newly_tags b newly)).
  - destruct Hc as [-> ->]. done.
  - done.
Qed.

Lemma pass_inv_restored me b (lt0 lt : LockTable) :
  pass_inv me b lt0 [] lt -> ∀ tag, my_count me tag lt = my_count me tag lt0.
Proof.
  intros [_ Hc] tag. specialize (Hc tag). unfold newly_tags in Hc. by simpl in Hc.
Qed.

(** A relation the backend does not hold is not in [newlyLocked]. *)
Lemma pass_inv_not_held me b (lt0 lt : LockTable) newly relid :
  pass_inv me b lt0 newly lt ->
  LockHeldByMe me (SetLocktagRelationOid b relid) lt = false ->
  (relid ∉ newly) ∧ my_count me (SetLocktagRelationOid b relid) lt = 0%nat.
Proof.
  intros [_ Hc] Hheld. rewrite LockHeldByMe_my_count in Hheld.
  apply bool_decide_eq_false in Hheld.
  assert (my_count me (SetLocktagRelationOid b relid) lt = 0%nat) as H0 by lia.
  split; [|done]. intros Hin. apply (elem_of_newly_tags b) in Hin.
  specialize (Hc (SetLocktagRelationOid b relid)).
  rewrite bool_decide_eq_true_2 in Hc by done. lia.
Qed.

(** Taking a lock that was not held extends [newlyLocked] by it. *)
Lemma pass_inv_acquire me b (lt0 lt lt1 : LockTable) newly relid grant :
  pass_inv me b lt0 newly lt ->
  LockHeldByMe me (SetLocktagRelationOid b relid) lt = false ->
  ConditionalLockRelationOid me b relid grant lt = (true, lt1) ->
  pass_inv me b lt0 (bms_insert newly relid) lt1.
Proof.
  intros Hinv Hheld Hacq.
  destruct (pass_inv_not_held _ _ _ _ _ _ Hinv Hheld) as [Hfresh H0].
  destruct Hinv as [Hnd Hc].
  pose proof (bms_insert_fresh newly relid Hfresh) as Hperm.
  split.
  - rewrite Hperm. by apply NoDup_cons.
  - intros tag. unfold ConditionalLockRelationOid in Hacq.
    rewrite (my_count_acquire _ _ _ _ _ tag Hacq).
    assert (tag ∈ newly_tags b (bms_insert newly relid)
            <-> tag = SetLocktagRelationOid b relid ∨ tag ∈ newly_tags b newly) as Hmem.
    { unfold newly_tags. rewrite Hperm. simpl. apply elem_of_cons. }
    specialize (Hc tag).
    destruct (decide (tag = SetLocktagRelationOid b relid)) as [->|Hne].
    + rewrite bool_decide_eq_true_2 by (apply Hmem; by left).
      rewrite bool_decide_eq_false_2 in Hc by (by rewrite elem_of_newly_tags).
      lia.
    + destruct (decide (tag ∈ newly_tags b newly)) as [Hin|Hin].
      * rewrite bool_decide_eq_true_2 by (apply Hmem; by right).
        by rewrite bool_decide_eq_true_2 in Hc by done.
      * rewrite bool_decide_eq_false_2 by (rewrite Hmem; tauto).
        by rewrite bool_decide_eq_false_2 in Hc by done.
Qed.

End PassProperties.

(** ** Steps of the system *)

Section StepProperties.
Context `{Collaborators}.

Lemma system_step_inv i ev s s' :
  system_step i ev s = Some s' ->
  ∃ p w', procs s !! i = Some p
          ∧ backend_step (pid_of i) ev (mkWorld p (sys_shmem s) (sys_locks s)) = Some w'
          ∧ s' = commit i w' s.
Proof.
  unfold system_step, view. intros Hs.
  destruct (procs s !! i) as [p|] eqn:Hp; simpl in Hs; [|done].
  destruct (backend_step _ _ _) as [w'|] eqn:Hb; simpl in Hs; [|done].
  simplify_eq. by exists p, w'.
Qed.

Lemma commit_lookup_same i w s p :
  procs s !! i = Some p -> procs (commit i w s) !! i = Some (proc w).
Proof.
  intros Hp. unfold commit. simpl. apply list_lookup_insert_eq.
  by apply lookup_lt_Some in Hp.
Qed.

Lemma commit_lookup_other i j w s :
  j ≠ i -> procs (commit j w s) !! i = procs s !! i.
Proof. intros Hne. unfold commit. simpl. by apply list_lookup_insert_ne. Qed.

Lemma pid_of_inj i j : pid_of i = pid_of j -> i = j.
Proof. unfold pid_of. lia. Qed.

(** A step of one backend leaves the holdings of every other backend
    as they are. *)
Lemma backend_step_my_count_other me p ev w w' tag :
  backend_step me ev w = Some w' ->
  p ≠ me ->
  my_count p tag (locktable w') = my_count p tag (locktable w).
Proof.
  intros Hs Hp. destruct ev; simpl in Hs.
  - destruct (is_idle w); [|done]. simplify_eq.
    unfold execution_start_entry.
    destruct (execution_start_skips _ _ _); [done|].
    by destruct (LogQuery _ _ _ _) as [[k s1]|].
  - unfold poll_read in Hs. destruct (pc (proc w)); try done.
    destruct (hash_search _ _); simpl in Hs; by simplify_eq.
  - unfold poll_act in Hs. destruct (pc (proc w)); try done.
    destruct (_ && _).
    + destruct (hash_search _ _) as [e|]; simpl in Hs; [|done].
      destruct (bool_decide _); by simplify_eq.
    + destruct (bool_decide _); by simplify_eq.
  - unfold lock_outer in Hs. destruct (pc (proc w)); try done.
    destruct (hash_search _ _) as [e|]; simpl in Hs; [|done].
    destruct (_ && _); [|by simplify_eq].
    destruct (getRefrenceImmv _); by simplify_eq.
  - unfold lock_inner in Hs. destruct (pc (proc w)); try done.
    destruct (bool_decide _); [|by simplify_eq].
    destruct (LockHeldByMe _ _ _); [by simplify_eq|].
    destruct (ConditionalLockRelationOid _ _ _ _ _) as [[] lt1] eqn:Hc.
    + assert (my_count p tag lt1 = my_count p tag (locktable w)) as Ho.
      { unfold ConditionalLockRelationOid in Hc.
        pose proof (my_count_acquire_other me p
          (SetLocktagRelationOid (priv (proc w))
             (default InvalidOid (refed_table refed_immv !! j)))
          grant (locktable w) tag Hp) as Ho.
        by rewrite Hc in Ho. }
      destruct (bms_add_member _ _); by simplify_eq.
    + simplify_eq. simpl. by apply my_count_release_newlyLocked_other.
  - destruct (is_idle w); by simplify_eq.
  - destruct (is_idle w); [|done]. simplify_eq. unfold executor_run_exit.
    by destruct (executor_run_cleans _ _).
  - destruct (is_idle w); by simplify_eq.
  - destruct (is_idle w); by simplify_eq.
  - apply transaction_end_inv in Hs as ->. simpl.
    by apply my_count_release_all_other.
Qed.

Lemma system_step_other i j ev s s' tag :
  system_step j ev s = Some s' ->
  j ≠ i ->
  procs s' !! i = procs s !! i
  ∧ my_count (pid_of i) tag (sys_locks s') = my_count (pid_of i) tag (sys_locks s).
Proof.
  intros Hs Hne. apply system_step_inv in Hs as (p & w' & Hp & Hb & ->).
  split; [by apply commit_lookup_other|]. simpl.
  rewrite (backend_step_my_count_other _ (pid_of i) _ _ _ tag Hb); [done|].
  intros Heq. by apply pid_of_inj in Heq.
Qed.

End StepProperties.

Section PassSteps.
Context `{Collaborators}.

Lemma pass_inv_ext me b (lt0 lt lt' : LockTable) newly :
  (∀ tag, my_count me tag lt' = my_count me tag lt) ->
  pass_inv me b lt0 newly lt -> pass_inv me b lt0 newly lt'.
Proof.
  intros Hext [Hnd Hc]. split; [done|]. intros tag. rewrite Hext. apply Hc.
Qed.

(** The steps of a pass keep [pass_state], and so do the steps of the
    other backends. *)
Lemma pass_state_step i b k lt0 j ev s s' :
  pass_state i b k lt0 s ->
  system_step j ev s = Some s' ->
  (j = i -> is_lock_event ev = true) ->
  pass_state i b k lt0 s'.
Proof.
  intros (c & newly & Hp & Hpc & Hinv) Hs Hev.
  destruct (decide (j = i)) as [->|Hne].
  - specialize (Hev eq_refl).
    apply system_step_inv in Hs as (p & w' & Hp' & Hb & ->).
    rewrite Hp in Hp'. simplify_eq.
    unfold pass_state. rewrite (commit_lookup_same i w' s _ Hp). simpl.
    destruct ev; try discriminate; simpl in Hb.
    + unfold lock_outer in Hb. simpl in Hb. destruct c; try done.
      destruct Hpc as [-> ->].
      destruct (hash_search _ _) as [e|]; simpl in Hb; [|done].
      destruct (_ && _).
      * destruct (getRefrenceImmv _); simplify_eq; simpl;
          eexists _, newly; (split; [reflexivity|]); by split.
      * simplify_eq. simpl. eexists _, newly. (split; [reflexivity|]); by split.
    + unfold lock_inner in Hb. simpl in Hb. destruct c; try done.
      destruct Hpc as [-> ->].
      destruct (bool_decide _).
      * destruct (LockHeldByMe _ _ _) eqn:Hheld.
        { simplify_eq. simpl. eexists _, newly. (split; [reflexivity|]); by split. }
        destruct (ConditionalLockRelationOid _ _ _ _ _) as [[] lt1] eqn:Hc.
        -- unfold bms_add_member in Hb.
           destruct (_ <? _)%N; simplify_eq; simpl.
           ++ eexists _, _. split; [reflexivity|]. split; [by split|].
              by eapply pass_inv_acquire.
           ++ eexists _, _. split; [reflexivity|]. split; [done|].
              by eapply pass_inv_acquire.
        -- simplify_eq. simpl.
           eexists _, []. split; [reflexivity|]. split; [by split|].
           by apply pass_inv_release.
      * simplify_eq. simpl. eexists _, newly. (split; [reflexivity|]); by split.
  - exists c, newly.
    destruct (system_step_other i j ev s s' (mkLOCKTAG 0%N 0%N) Hs Hne) as [Hprocs _].
    rewrite Hprocs. split; [done|]. split; [done|].
    eapply pass_inv_ext; [|done]. intros tag.
    by destruct (system_step_other i j ev s s' tag Hs Hne) as [_ Hcount].
Qed.

Lemma pass_state_begin i b k newly0 s :
  procs s !! i = Some (mkProc b (PcLockOuter k newly0 0)) ->
  newly0 = [] ->
  pass_state i b k (sys_locks s) s.
Proof.
  intros Hp ->. exists (PcLockOuter k [] 0), []. split; [done|].
  split; [by split|]. apply pass_inv_begin.
Qed.

Lemma pass_state_trace i b k lt0 tr s s' :
  pass_state i b k lt0 s ->
  pass_trace i tr ->
  run_trace tr s = Some s' ->
  pass_state i b k lt0 s'.
Proof.
  revert s. induction tr as [|[j ev] tr IH]; intros s Hst Htr Hrun; simpl in Hrun.
  - by simplify_eq.
  - apply Forall_cons in Htr as [Hev Htr].
    destruct (system_step j ev s) as [s1|] eqn:Hs; simpl in Hrun; [|done].
    eapply IH; [|done|done]. by eapply pass_state_step.
Qed.

End PassSteps.

(** What [query_entry->status = st] does to the table. *)
Lemma hash_search_set_status_ne k k' st s :
  k' ≠ k -> hash_search k' (set_status k st s) = hash_search k' s.
Proof.
  intros Hne. unfold hash_search, set_status. simpl.
  induction (queryHashTable s) as [|e l IH]; simpl; [done|].
  destruct (decide (key e = k)) as [Hk|Hk].
  - rewrite (bool_decide_eq_true_2 (key e = k)) by done. simpl.
    rewrite (bool_decide_eq_false_2 (key e = k')) by congruence. done.
  - rewrite (bool_decide_eq_false_2 (key e = k)) by done.
    destruct (bool_decide (key e = k')); done.
Qed.

Lemma hash_search_set_status_eq k st s e :
  hash_search k s = Some e ->
  hash_search k (set_status k st s) = Some (entry_set_status st e).
Proof.
  unfold hash_search, set_status. simpl.
  induction (queryHashTable s) as [|e0 l IH]; simpl; [done|].
  destruct (bool_decide (key e0 = k)) eqn:Hk; simpl; rewrite ?Hk.
  - by intros [= ->].
  - done.
Qed.

Section LockProtocol.
Context `{Collaborators}.

(** C1: when the non-blocking request for a base table is refused, the
    step unlocks the members of [newlyLocked], which leaves the backend
    with exactly the holdings it had when the pass began (what it held
    before is kept, what other backends hold is not touched); the
    critical section marks the record [QUERY_GIVE_UP], decrements
    [runningQuery] and calls [Reschedule]; control is back at the label
    [waiting].  What [Reschedule] is handed is the segment in which the
    record of the query has the status [QUERY_GIVE_UP] and is otherwise
    as it was, every other record is as it was, and the counter is one
    less. *)
Theorem failed_lock_retreats i b k tr s0 s1 newlyLocked ii refed_immv j grant :
  procs s0 !! i = Some (mkProc b (PcLockOuter k [] 0)) ->
  pass_trace i tr ->
  run_trace tr s0 = Some s1 ->
  procs s1 !! i = Some (mkProc b (PcLockInner k newlyLocked ii refed_immv j)) ->
  (j < refed_table_num refed_immv)%nat ->
  LockHeldByMe (pid_of i)
    (SetLocktagRelationOid b (default InvalidOid (refed_table refed_immv !! j)))
    (sys_locks s1) = false ->
  (ConditionalLockRelationOid (pid_of i) b
     (default InvalidOid (refed_table refed_immv !! j)) grant (sys_locks s1)).1 = false ->
  ∃ s2,
    system_step i (EvLockInner grant) s1 = Some s2
    ∧ sys_locks s2 = release_newlyLocked (pid_of i) b newlyLocked (sys_locks s1)
    ∧ (∀ tag, my_count (pid_of i) tag (sys_locks s1)
              = (my_count (pid_of i) tag (sys_locks s0)
                 + if bool_decide (tag ∈ newly_tags b newlyLocked) then 1 else 0)%nat)
    ∧ (∀ tag, my_count (pid_of i) tag (sys_locks s2)
              = my_count (pid_of i) tag (sys_locks s0))
    ∧ (∀ p tag, p ≠ pid_of i ->
                my_count p tag (sys_locks s2) = my_count p tag (sys_locks s1))
    ∧ sys_shmem s2
      = Reschedule
          (set_runningQuery (int_decr (runningQuery (sys_shmem s1)))
             (set_status k QUERY_GIVE_UP (sys_shmem s1)))
    ∧ (∃ given,
         sys_shmem s2 = Reschedule given
         ∧ runningQuery given = int_decr (runningQuery (sys_shmem s1))
         ∧ (∀ e, hash_search k (sys_shmem s1) = Some e ->
                 ∃ e', hash_search k given = Some e'
                       ∧ status e' = QUERY_GIVE_UP
                       ∧ key e' = key e
                       ∧ affected_tables e' = affected_tables e
                       ∧ xid e' = xid e
                       ∧ arrival e' = arrival e)
         ∧ (∀ k', k' ≠ k -> hash_search k' given = hash_search k' (sys_shmem s1)))
    ∧ procs s2 !! i = Some (mkProc b (PcWaiting k)).
Proof.
  intros Hp0 Htr Hrun Hp1 Hj Hheld Hrefused.
  pose proof (pass_state_trace i b k _ tr s0 s1
                (pass_state_begin i b k [] s0 Hp0 eq_refl) Htr Hrun)
    as (c & newly & Hp & Hpc & Hinv).
  rewrite Hp1 in Hp. simplify_eq. destruct Hpc as [_ <-].
  destruct (ConditionalLockRelationOid _ _ _ _ _) as [ok lt1] eqn:Hc.
  simpl in Hrefused. subst ok.
  eexists. split.
  { unfold system_step, view. rewrite Hp1. simpl. unfold lock_inner. simpl.
    rewrite bool_decide_eq_true_2 by done. rewrite Hheld, Hc. reflexivity. }
  simpl. split; [done|]. split.
  { intros tag. destruct Hinv as [_ Hcount]. specialize (Hcount tag).
    destruct (bool_decide _); lia. }
  split.
  { apply pass_inv_restored with (b := b). by apply pass_inv_release. }
  split.
  { intros p tag Hne. by apply my_count_release_newlyLocked_other. }
  split; [done|]. split.
  { eexists. split; [reflexivity|]. split; [done|]. split.
    - intros e He. exists (entry_set_status QUERY_GIVE_UP e).
      split; [|done].
      by apply (hash_search_set_status_eq k QUERY_GIVE_UP (sys_shmem s1) e).
    - intros k' Hne.
      by apply (hash_search_set_status_ne k k' QUERY_GIVE_UP (sys_shmem s1)). }
  apply list_lookup_insert_eq. by apply lookup_lt_Some in Hp1.
Qed.

(** C5: in the inner loop a table on which the backend already holds
    [ExclusiveLock] is passed over: the lock manager is not asked, the
    lock table and [newlyLocked] stay as they are and the loop goes on
    with the next table.  The step of the loop is defined whatever the
    lock manager answers, so the backend is never made to wait for a
    lock; and at every point of a pass the backend holds a table it held
    before the pass as often as before, and any other table at most
    once. *)
Theorem held_lock_is_skipped i b k tr s0 s1 :
  procs s0 !! i = Some (mkProc b (PcLockOuter k [] 0)) ->
  pass_trace i tr ->
  run_trace tr s0 = Some s1 ->
  (∀ newlyLocked ii refed_immv j grant,
     procs s1 !! i = Some (mkProc b (PcLockInner k newlyLocked ii refed_immv j)) ->
     is_Some (system_step i (EvLockInner grant) s1)
     ∧ ((j < refed_table_num refed_immv)%nat ->
        LockHeldByMe (pid_of i)
          (SetLocktagRelationOid b (default InvalidOid (refed_table refed_immv !! j)))
          (sys_locks s1) = true ->
        system_step i (EvLockInner grant) s1
        = Some (mkSystem
                  (<[i := mkProc b (PcLockInner k newlyLocked ii refed_immv (S j))]> (procs s1))
                  (sys_shmem s1) (sys_locks s1))))
  ∧ (∀ tag,
       (my_count (pid_of i) tag (sys_locks s0) ≠ 0%nat ->
        my_count (pid_of i) tag (sys_locks s1) = my_count (pid_of i) tag (sys_locks s0))
       ∧ (my_count (pid_of i) tag (sys_locks s0) = 0%nat ->
          my_count (pid_of i) tag (sys_locks s1) <= 1)%nat).
Proof.
  intros Hp0 Htr Hrun.
  pose proof (pass_state_trace i b k _ tr s0 s1
                (pass_state_begin i b k [] s0 Hp0 eq_refl) Htr Hrun)
    as (c & newly & Hp & Hpc & Hinv).
  split.
  - intros newlyLocked ii refed_immv j grant Hp1. split.
    + unfold system_step, view. rewrite Hp1. simpl. unfold lock_inner. simpl.
      destruct (bool_decide _); [|by eexists].
      destruct (LockHeldByMe _ _ _); [by eexists|].
      destruct (ConditionalLockRelationOid _ _ _ _ _) as [[] lt1];
        [destruct (bms_add_member _ _)|]; by eexists.
    + intros Hj Hheld.
      unfold system_step, view. rewrite Hp1. simpl. unfold lock_inner. simpl.
      rewrite bool_decide_eq_true_2 by done. by rewrite Hheld.
  - intros tag. destruct Hinv as [_ Hcount]. specialize (Hcount tag).
    destruct (bool_decide _); lia.
Qed.

End LockProtocol.

Lemma failed_lock_retreats_witness :
  ∃ s2 given e',
    system_step (H := sample) 0 (EvLockInner true) sample_in_pass = Some s2
    ∧ procs s2 !! 0%nat = Some (mkProc sample_backend (PcWaiting sample_keyA))
    ∧ my_count (pid_of 0) (mkLOCKTAG 1%N 9%N) (sys_locks s2) = 0%nat
    ∧ my_count (pid_of 0) (mkLOCKTAG 1%N 7%N) (sys_locks s2) = 1%nat
    ∧ my_count (pid_of 1) (mkLOCKTAG 1%N 8%N) (sys_locks s2) = 1%nat
    ∧ (status <$> hash_search sample_keyA (sys_shmem sample_in_pass))
      = Some QUERY_AVAILABLE
    ∧ sys_shmem s2 = Reschedule (Collaborators := sample) given
    ∧ runningQuery (sys_shmem sample_in_pass) = 2
    ∧ runningQuery given = 1
    ∧ hash_search sample_keyA given = Some e'
    ∧ status e' = QUERY_GIVE_UP.
Proof.
  destruct (failed_lock_retreats (H := sample) 0 sample_backend sample_keyA
              sample_pass sample_at_pass sample_in_pass [9%N] 0
              (mkRefedImmv 3 [9; 7; 8]%N) 2 true)
    as (s2 & Hstep & Hlocks & _ & Hmine & Hothers & _
        & (given & Hgiven & Hcount & Hrecord & _) & Hpc).
  - vm_compute. reflexivity.
  - unfold pass_trace, sample_pass. repeat constructor.
  - vm_compute. reflexivity.
  - vm_compute. reflexivity.
  - simpl. lia.
  - vm_compute. reflexivity.
  - vm_compute. reflexivity.
  - destruct (Hrecord (mkEntry sample_keyA QUERY_AVAILABLE [100%N] 0%N 2%N))
      as (e' & He' & Hst & _); [vm_compute; reflexivity|].
    exists s2, given, e'. split; [exact Hstep|]. split; [exact Hpc|].
    rewrite (Hmine (mkLOCKTAG 1%N 9%N)), (Hmine (mkLOCKTAG 1%N 7%N)).
    rewrite (Hothers (pid_of 1) (mkLOCKTAG 1%N 8%N)) by (vm_compute; discriminate).
    split; [vm_compute; reflexivity|]. split; [vm_compute; reflexivity|].
    split; [vm_compute; reflexivity|]. split; [vm_compute; reflexivity|].
    split; [exact Hgiven|]. split; [vm_compute; reflexivity|].
    split; [rewrite Hcount; vm_compute; reflexivity|].
    split; [exact He'|exact Hst].
Defined.

(** ** The counter [full_process] *)

Section FullProcess.
Context `{Collaborators}.

Lemma exit_cleans_full_process b qd :
  exit_cleans b qd = true -> full_process b ≠ 0.
Proof.
  unfold exit_cleans, executor_run_cleans. simpl. intros Hc.
  apply andb_true_iff in Hc as [_ Hfp]. apply negb_true_iff in Hfp.
  by apply Z.eqb_neq in Hfp.
Qed.

Lemma full_process_of_other i j ev s s' :
  system_step j ev s = Some s' -> j ≠ i ->
  full_process_of i s' = full_process_of i s.
Proof.
  intros Hs Hne. unfold full_process_of.
  by destruct (system_step_other i j ev s s' (mkLOCKTAG 0%N 0%N) Hs Hne) as [-> _].
Qed.

(** One step of backend [i]: the counter goes up by one at a start that
    enters enforcement, down by one at an exit that cleans up, and is
    left alone otherwise. *)
Lemma full_process_step i ev s s' p :
  system_step i ev s = Some s' ->
  procs s !! i = Some p ->
  0 <= full_process (priv p) < INT_MAX ->
  full_process_of i s'
  = full_process (priv p) + Z.of_nat (event_enforces any_query ev p)
    - Z.of_nat (event_cleans any_query ev p)
  ∧ 0 <= full_process_of i s'.
Proof.
  intros Hs Hp Hfp. apply system_step_inv in Hs as (p' & w' & Hp' & Hb & ->).
  rewrite Hp in Hp'. simplify_eq.
  unfold full_process_of. rewrite (commit_lookup_same i w' s _ Hp).
  destruct ev; simpl in Hb; simpl.
  - destruct (is_idle _); [|done]. simplify_eq.
    unfold execution_start_entry. simpl.
    destruct (execution_start_skips _ _ _); simpl; [lia|].
    destruct (LogQuery _ _ _ _) as [[k s1]|]; simpl;
      rewrite int_incr_exact by (unfold INT_MIN; lia); lia.
  - unfold poll_read in Hb. simpl in Hb. destruct (pc p'); try done.
    destruct (hash_search _ _); simpl in Hb; simplify_eq. simpl. lia.
  - unfold poll_act in Hb. simpl in Hb. destruct (pc p'); try done.
    destruct (_ && _).
    + destruct (hash_search _ _) as [e|]; simpl in Hb; [|done].
      destruct (bool_decide _); simplify_eq; simpl; lia.
    + destruct (bool_decide _); simplify_eq; simpl; lia.
  - unfold lock_outer in Hb. simpl in Hb. destruct (pc p'); try done.
    destruct (hash_search _ _) as [e|]; simpl in Hb; [|done].
    destruct (_ && _); [|simplify_eq; simpl; lia].
    destruct (getRefrenceImmv _); simplify_eq; simpl; lia.
  - unfold lock_inner in Hb. simpl in Hb. destruct (pc p'); try done.
    destruct (bool_decide _); [|simplify_eq; simpl; lia].
    destruct (LockHeldByMe _ _ _); [simplify_eq; simpl; lia|].
    destruct (ConditionalLockRelationOid _ _ _ _ _) as [[] lt1];
      [destruct (bms_add_member _ _)|]; simplify_eq; simpl; lia.
  - destruct (is_idle _); simplify_eq. simpl. lia.
  - destruct (is_idle _); [|done]. simplify_eq.
    unfold executor_run_exit, exit_cleans. simpl.
    destruct (executor_run_cleans _ _) eqn:Hc; simpl; [|lia].
    assert (full_process (priv p') ≠ 0) by (by apply (exit_cleans_full_process _ qd)).
    rewrite int_decr_exact by (unfold INT_MIN, INT_MAX in *; lia). lia.
  - destruct (is_idle _); simplify_eq. simpl. lia.
  - destruct (is_idle _); simplify_eq. simpl. lia.
  - apply transaction_end_inv in Hb as ->. simpl. lia.
Qed.

Lemma count_steps_le f g i tr s :
  (∀ ev p, (f ev p <= g ev p)%nat) ->
  (count_steps f i tr s <= count_steps g i tr s)%nat.
Proof.
  intros Hfg. revert s. induction tr as [|[j ev] tr IH]; intros s; simpl; [lia|].
  destruct (system_step j ev s) as [s1|]; [|lia].
  specialize (IH s1). destruct (procs s !! j) as [p|]; [|lia].
  destruct (bool_decide _); [|lia]. specialize (Hfg ev p). lia.
Qed.

Lemma full_process_balance i tr s s' :
  run_trace tr s = Some s' ->
  0 <= full_process_of i s ->
  full_process_of i s + Z.of_nat (length tr) <= INT_MAX ->
  Z.of_nat (cleanups any_query i tr s) + full_process_of i s'
  = full_process_of i s + Z.of_nat (enforced_starts any_query i tr s)
  ∧ 0 <= full_process_of i s'.
Proof.
  unfold cleanups, enforced_starts. revert s.
  induction tr as [|[j ev] tr IH]; intros s Hrun H0 Hmax; simpl in *.
  - simplify_eq. lia.
  - destruct (system_step j ev s) as [s1|] eqn:Hs; simpl in Hrun; [|done].
    destruct (decide (j = i)) as [->|Hne].
    + rewrite bool_decide_eq_true_2 by done.
      destruct (procs s !! i) as [p|] eqn:Hp.
      2:{ apply system_step_inv in Hs as (p & _ & Hp' & _). congruence. }
      assert (full_process_of i s = full_process (priv p)) as Hfp
        by (unfold full_process_of; by rewrite Hp).
      destruct (full_process_step i ev s s1 p Hs Hp) as [Heq Hge]; [lia|].
      assert (event_enforces any_query ev p <= 1)%nat as Hle.
      { destruct ev; simpl; try lia.
        destruct (execution_start_skips _ _ _); simpl; lia. }
      destruct (IH s1 Hrun Hge) as [IHeq IHge]; [lia|]. lia.
    + rewrite (bool_decide_eq_false_2 (j = i)) by done.
      pose proof (full_process_of_other i j ev s s1 Hs Hne) as Hsame.
      destruct (IH s1 Hrun) as [IHeq IHge]; [lia|lia|].
      destruct (procs s !! j); lia.
Qed.

End FullProcess.

Section Cleanup.
Context `{Collaborators}.

(** C8, as amended: the cleanup of [pg_hook_executor_run] runs only
    when [full_process] is not zero and takes one off it, and each
    start that enters enforcement adds one; so along any trace a
    backend runs the cleanup at most as often as it had starts
    outstanding or entered enforcement ([full_process] counts the
    difference and stays non-negative), whatever queries the runs are
    for. *)
Theorem cleanups_bounded_by_enforced_starts i tr s s' sel :
  run_trace tr s = Some s' ->
  0 <= full_process_of i s ->
  full_process_of i s + Z.of_nat (length tr) <= INT_MAX ->
  (∀ b qd, exit_cleans b qd = true -> full_process b ≠ 0)
  ∧ Z.of_nat (cleanups any_query i tr s) + full_process_of i s'
    = full_process_of i s + Z.of_nat (enforced_starts any_query i tr s)
  ∧ 0 <= full_process_of i s'
  ∧ (cleanups sel i tr s <= cleanups any_query i tr s)%nat.
Proof.
  intros Hrun H0 Hmax.
  destruct (full_process_balance i tr s s' Hrun H0 Hmax) as [Heq Hge].
  split; [apply exit_cleans_full_process|]. split; [done|]. split; [done|].
  apply count_steps_le. intros ev p. destruct ev; simpl; try lia.
  unfold any_query. destruct (sel qd); simpl; [lia|].
  destruct (exit_cleans _ _); lia.
Qed.

(** The guard of the cleanup, as the exit of the hook evaluates it. *)
Lemma executor_run_cleans_exit_true b qd :
  sourceText qd ≠ EmptyString
  ∧ IsParallelWorker b = false
  ∧ isUtility b = false
  ∧ int_decr (nesting_level b) = 0
  ∧ full_process b ≠ 0 ->
  executor_run_cleans (set_nesting_level (int_decr (nesting_level b)) b) qd = true.
Proof.
  intros (Htext & Hpar & Hutil & Hlevel & Hfp).
  unfold executor_run_cleans, enable_enforce, IsParallelWorker in *. simpl.
  rewrite (bool_decide_eq_false_2 _ Htext), Hpar, Hutil.
  rewrite (bool_decide_eq_true_2 _ Hlevel).
  by rewrite (proj2 (Z.eqb_neq _ _) Hfp).
Qed.

Lemma executor_run_cleans_exit_false b qd :
  sourceText qd = EmptyString
  ∨ IsParallelWorker b = true
  ∨ isUtility b = true
  ∨ int_decr (nesting_level b) ≠ 0
  ∨ full_process b = 0 ->
  executor_run_cleans (set_nesting_level (int_decr (nesting_level b)) b) qd = false.
Proof.
  unfold executor_run_cleans, enable_enforce, IsParallelWorker. simpl.
  intros [Htext|[Hpar|[Hutil|[Hlevel|Hfp]]]].
  - by rewrite (bool_decide_eq_true_2 _ Htext).
  - rewrite Hpar. simpl. by rewrite andb_false_r.
  - rewrite Hutil. simpl. by rewrite !andb_false_r.
  - rewrite (bool_decide_eq_false_2 _ Hlevel). simpl. by rewrite !andb_false_r.
  - rewrite Hfp. simpl. by rewrite andb_false_r.
Qed.

(** The wait loop and the lock loops leave the private variables of
    the backend alone, and so do the steps of the other backends. *)
Lemma hook_step_keeps_priv i j ev s s' p :
  system_step j ev s = Some s' ->
  procs s !! i = Some p ->
  (j = i -> is_poll_event ev || is_lock_event ev = true) ->
  ∃ p', procs s' !! i = Some p' ∧ priv p' = priv p.
Proof.
  intros Hs Hp Hev.
  destruct (decide (j = i)) as [->|Hne].
  2:{ destruct (system_step_other i j ev s s' (mkLOCKTAG 0%N 0%N) Hs Hne) as [Hprocs _].
      exists p. by rewrite Hprocs. }
  specialize (Hev eq_refl).
  apply system_step_inv in Hs as (p' & w' & Hp' & Hb & ->).
  rewrite Hp in Hp'. simplify_eq.
  exists (proc w'). split; [by eapply commit_lookup_same|].
  destruct ev; try discriminate; simpl in Hb.
  - unfold poll_read in Hb. simpl in Hb. destruct (pc p'); try done.
    destruct (hash_search _ _); simpl in Hb; by simplify_eq.
  - unfold poll_act in Hb. simpl in Hb. destruct (pc p'); try done.
    destruct (_ && _).
    + destruct (hash_search _ _) as [e|]; simpl in Hb; [|done].
      destruct (bool_decide _); by simplify_eq.
    + destruct (bool_decide _); by simplify_eq.
  - unfold lock_outer in Hb. simpl in Hb. destruct (pc p'); try done.
    destruct (hash_search _ _) as [e|]; simpl in Hb; [|done].
    destruct (_ && _); [|by simplify_eq].
    destruct (getRefrenceImmv _); by simplify_eq.
  - unfold lock_inner in Hb. simpl in Hb. destruct (pc p'); try done.
    destruct (bool_decide _); [|by simplify_eq].
    destruct (LockHeldByMe _ _ _); [by simplify_eq|].
    destruct (ConditionalLockRelationOid _ _ _ _ _) as [[] lt1];
      [destruct (bms_add_member _ _)|]; by simplify_eq.
Qed.

Lemma hook_trace_keeps_priv i tr : ∀ s s' p,
  run_trace tr s = Some s' ->
  procs s !! i = Some p ->
  hook_trace i tr ->
  ∃ p', procs s' !! i = Some p' ∧ priv p' = priv p.
Proof.
  induction tr as [|[j ev] tr IH]; intros s s' p Hrun Hp Htr; simpl in Hrun.
  - simplify_eq. by exists p.
  - destruct (system_step j ev s) as [s1|] eqn:Hs; simpl in Hrun; [|done].
    apply Forall_cons in Htr as [Hev Htr]. simpl in Hev.
    destruct (hook_step_keeps_priv i j ev s s1 p Hs Hp Hev) as (p1 & Hp1 & Hpriv1).
    destruct (IH s1 s' p1 Hrun Hp1 Htr) as (p' & Hp' & Hpriv').
    exists p'. split; [done|]. congruence.
Qed.


End Cleanup.

(** C8, the claim as stated fails: backend 0 starts D and E, then runs
    D twice.  D entered enforcement once, and the cleanup ran twice for
    it, taking two off [runningQuery]; the record of E, which never ran,
    is still in the table. *)
Lemma cleanup_twice_for_one_start :
  enforced_starts (H := sample) (this_query sample_qD) 0 sample_two_portals
    (initial_system [1; 1]%N) = 1%nat
  ∧ cleanups (H := sample) (this_query sample_qD) 0 sample_two_portals
      (initial_system [1; 1]%N) = 2%nat
  ∧ (sys_shmem <$> run_trace (H := sample) sample_two_portals (initial_system [1; 1]%N))
    = Some (mkShmem [mkEntry (mkKey 0 5) QUERY_AVAILABLE [] 0 2]%N 0).
Proof. vm_compute. repeat split. Qed.


Section NestedStarts.
Context `{Collaborators}.

(** While the wrapped run of a top-level query is under way the nesting
    level is not zero, so a start that happens inside it is passed
    over. *)
Lemma start_inside_run_is_skipped me qd eflags w :
  0 <= nesting_level (priv (proc w)) < INT_MAX ->
  execution_start_entry me qd eflags (executor_run_enter w)
  = (Returned, executor_run_enter w).
Proof.
  intros Hn. apply execution_start_entry_skip.
  unfold execution_start_skips, enable_enforce, executor_run_enter. simpl.
  rewrite int_incr_exact by (unfold INT_MIN; lia).
  rewrite (bool_decide_eq_false_2 (_ = 0)) by lia. simpl.
  by rewrite andb_false_r, !orb_true_r.
Qed.

End NestedStarts.

Lemma execution_start_returns_for_empty_or_explain_witness :
  execution_start_entry (H := sample) 0%N
    (mkQueryDesc EmptyString (mkPlannedStmt 1%N [100%N])) 0 sample_idle_world
  = (Returned, sample_idle_world).
Proof.
  apply (execution_start_returns_for_empty_or_explain (H := sample)).
  left. reflexivity.
Defined.

Lemma held_lock_is_skipped_witness :
  system_step (H := sample) 0 (EvLockInner false) sample_at_held
  = Some (mkSystem
            (<[0%nat := mkProc sample_backend
                          (PcLockInner sample_keyA [9%N] 0
                             (mkRefedImmv 3 [9; 7; 8]%N) 2)]> (procs sample_at_held))
            (sys_shmem sample_at_held) (sys_locks sample_at_held)).
Proof.
  destruct (held_lock_is_skipped (H := sample) 0 sample_backend sample_keyA
              (take 2 sample_pass) sample_at_pass sample_at_held) as [Hskip _].
  - vm_compute. reflexivity.
  - unfold pass_trace. simpl. repeat constructor.
  - vm_compute. reflexivity.
  - destruct (Hskip [9%N] 0%nat (mkRefedImmv 3 [9; 7; 8]%N) 1%nat false) as [_ Hstep].
    + vm_compute. reflexivity.
    + apply Hstep.
      * simpl. lia.
      * vm_compute. reflexivity.
Defined.

Lemma cleanups_bounded_by_enforced_starts_witness :
  (cleanups (H := sample) (this_query sample_qD) 0 sample_two_portals
     (initial_system [1; 1]%N)
   <= cleanups (H := sample) any_query 0 sample_two_portals (initial_system [1; 1]%N))%nat
  ∧ 0 <= full_process_of 0 sample_after_two_portals.
Proof.
  destruct (cleanups_bounded_by_enforced_starts (H := sample) 0 sample_two_portals
              (initial_system [1; 1]%N) sample_after_two_portals
              (this_query sample_qD)) as (_ & _ & Hge & Hle).
  - vm_compute. reflexivity.
  - vm_compute. discriminate.
  - vm_compute. discriminate.
  - split; [exact Hle | exact Hge].
Defined.


(** ** The admission pass *)

Lemma admission_kept cap l running :
  Forall2 entry_kept l (admission cap l running).1.
Proof.
  revert running. induction l as [|e l IH]; intros running; simpl; [constructor|].
  destruct (status e) eqn:Hst.
  - destruct (running <? cap).
    + specialize (IH (running + 1)). destruct (admission cap l (running + 1)) as [l2 r2].
      simpl in *. constructor; [|done]. repeat split; done.
    + specialize (IH running). destruct (admission cap l running) as [l2 r2].
      simpl in *. constructor; [|done]. repeat split; done.
  - specialize (IH running). destruct (admission cap l running) as [l2 r2].
    simpl in *. constructor; [|done]. repeat split; done.
  - specialize (IH running). destruct (admission cap l running) as [l2 r2].
    simpl in *. constructor; [|done]. repeat split; done.
  - specialize (IH running). destruct (admission cap l running) as [l2 r2].
    simpl in *. constructor; [|done]. repeat split; try done.
    rewrite Hst. done.
Qed.

Lemma admission_running cap l running :
  running <= (admission cap l running).2
  ∧ (running <= cap -> (admission cap l running).2 <= cap).
Proof.
  revert running. induction l as [|e l IH]; intros running; simpl; [lia|].
  destruct (status e).
  - destruct (Z.ltb_spec running cap).
    + specialize (IH (running + 1)). destruct (admission cap l (running + 1)) as [l2 r2].
      simpl in *. lia.
    + specialize (IH running). destruct (admission cap l running) as [l2 r2]. done.
  - specialize (IH running). destruct (admission cap l running) as [l2 r2]. done.
  - specialize (IH running). destruct (admission cap l running) as [l2 r2]. done.
  - specialize (IH running). destruct (admission cap l running) as [l2 r2]. done.
Qed.

(** With room under the cap, the first waiting record in arrival order
    becomes available. *)
Lemma admission_first_waiting cap l running e :
  running < cap ->
  e ∈ l ->
  status e = QUERY_WAITING ->
  ∃ n e',
    l !! n = Some e'
    ∧ status e' = QUERY_WAITING
    ∧ (admission cap l running).1 !! n = Some (entry_set_status QUERY_AVAILABLE e')
    ∧ running < (admission cap l running).2.
Proof.
  intros Hroom. induction l as [|e0 l IH]; intros Hin Hst.
  - by apply elem_of_nil in Hin.
  - simpl. destruct (status e0) eqn:Hst0.
    + exists 0%nat, e0. destruct (Z.ltb_spec running cap); [|lia].
      pose proof (admission_running cap l (running + 1)) as [Hge _].
      destruct (admission cap l (running + 1)) as [l2 r2]. simpl in *.
      repeat split; try done. lia.
    + apply elem_of_cons in Hin as [->|Hin]; [congruence|].
      destruct (IH Hin Hst) as (n & e' & Hn & Hst' & Hres & Hrun).
      destruct (admission cap l running) as [l2 r2]. simpl in *.
      by exists (S n), e'.
    + apply elem_of_cons in Hin as [->|Hin]; [congruence|].
      destruct (IH Hin Hst) as (n & e' & Hn & Hst' & Hres & Hrun).
      destruct (admission cap l running) as [l2 r2]. simpl in *.
      by exists (S n), e'.
    + apply elem_of_cons in Hin as [->|Hin]; [congruence|].
      destruct (IH Hin Hst) as (n & e' & Hn & Hst' & Hres & Hrun).
      destruct (admission cap l running) as [l2 r2]. simpl in *.
      by exists (S n), e'.
Qed.

Lemma hash_search_elem_of k s e :
  hash_search k s = Some e -> e ∈ queryHashTable s ∧ key e = k.
Proof.
  unfold hash_search. intros Hf. apply find_some in Hf as [Hin Hk].
  apply bool_decide_eq_true in Hk. split; [|done]. by apply list_elem_of_In.
Qed.

Lemma find_key_kept k (l l' : list QueryTableEntry) e :
  Forall2 entry_kept l l' ->
  List.find (fun e => bool_decide (key e = k)) l = Some e ->
  ∃ e', List.find (fun e => bool_decide (key e = k)) l' = Some e' ∧ entry_kept e e'.
Proof.
  induction 1 as [|e0 e0' l l' Hk Hf IH]; simpl; [done|].
  destruct Hk as (Hkey & Haff & Hav). rewrite Hkey.
  destruct (bool_decide (key e0 = k)).
  - intros ?. simplify_eq. exists e0'. by repeat split.
  - done.
Qed.

Lemma spec_Reschedule_kept cap s k e :
  hash_search k s = Some e ->
  ∃ e', hash_search k (spec_Reschedule cap s) = Some e' ∧ entry_kept e e'.
Proof.
  unfold hash_search, spec_Reschedule. intros Hf.
  pose proof (admission_kept cap (queryHashTable s) (runningQuery s)) as Hk.
  destruct (admission cap (queryHashTable s) (runningQuery s)) as [l r]. simpl in *.
  by eapply find_key_kept.
Qed.

(** ** The wait loop under the scheduler of the design document *)

Section SelfHealing.
Variables (max_affected max_query_num : nat) (cap : Z).
Variables (shared : Oid -> bool) (index : Oid -> option RefedImmv) (xid_of : Pid -> N).

Local Abbreviation SPEC :=
  (spec_collaborators max_affected max_query_num cap shared index xid_of).

(** C4: a backend in the wait loop that reads [runningQuery == 0] while
    its record is not available calls [Reschedule] before it sleeps
    again; with the admission pass of the design document and a cap of
    at least one, that single turn of the loop makes the first waiting
    record in arrival order available and raises the counter, so the
    waiters cannot all stay asleep. *)
Theorem poll_forces_reschedule i b k e s :
  0 < cap ->
  procs s !! i = Some (mkProc b (PcWaiting k)) ->
  hash_search k (sys_shmem s) = Some e ->
  status e ≠ QUERY_AVAILABLE ->
  runningQuery (sys_shmem s) = 0 ->
  ∃ s2,
    run_trace (H := SPEC) [(i, EvPollRead); (i, EvPollAct)] s = Some s2
    ∧ sys_shmem s2 = Reschedule (Collaborators := SPEC) (sys_shmem s)
    ∧ ∀ e0, e0 ∈ queryHashTable (sys_shmem s) ->
            status e0 = QUERY_WAITING ->
            ∃ n e',
              queryHashTable (sys_shmem s) !! n = Some e'
              ∧ status e' = QUERY_WAITING
              ∧ queryHashTable (sys_shmem s2) !! n
                = Some (entry_set_status QUERY_AVAILABLE e')
              ∧ 0 < runningQuery (sys_shmem s2).
Proof.
  intros Hcap Hp Hk Hst Hrun.
  destruct (spec_Reschedule_kept cap (sys_shmem s) k e Hk) as (e1 & Hk1 & _).
  assert (i < length (procs s))%nat as Hlen by (by apply lookup_lt_Some in Hp).
  set (w1 := mkWorld (mkProc b (PcPolled k (status e) (runningQuery (sys_shmem s))))
                     (sys_shmem s) (sys_locks s)).
  assert (system_step (H := SPEC) i EvPollRead s = Some (commit i w1 s)) as Hread.
  { unfold system_step, view. rewrite Hp. simpl. unfold poll_read. simpl.
    rewrite Hk. reflexivity. }
  set (c2 := if bool_decide (status e1 = QUERY_AVAILABLE)
             then PcLockOuter k [] 0 else PcWaiting k).
  set (w2 := mkWorld (mkProc b c2) (spec_Reschedule cap (sys_shmem s)) (sys_locks s)).
  assert (system_step (H := SPEC) i EvPollAct (commit i w1 s)
          = Some (commit i w2 (commit i w1 s))) as Hact.
  { unfold system_step, view, commit. simpl.
    rewrite list_lookup_insert_eq by done. simpl.
    unfold poll_act. simpl. rewrite Hrun.
    rewrite bool_decide_eq_true_2 by done.
    rewrite (bool_decide_eq_false_2 (status e = QUERY_AVAILABLE)) by done. simpl.
    rewrite Hk1. simpl. unfold w2, c2.
    destruct (bool_decide (status e1 = QUERY_AVAILABLE)); reflexivity. }
  exists (commit i w2 (commit i w1 s)). split.
  { cbn [run_trace]. rewrite Hread. cbn [mbind option_bind]. rewrite Hact. reflexivity. }
  split; [reflexivity|].
  intros e0 Hin Hw.
  destruct (admission_first_waiting cap (queryHashTable (sys_shmem s)) 0 e0)
    as (n & e' & Hn & Hst' & Hres & Hr); try done.
  exists n, e'. simpl. unfold spec_Reschedule. rewrite Hrun.
  destruct (admission cap (queryHashTable (sys_shmem s)) 0) as [l r]. done.
Qed.

End SelfHealing.

Lemma poll_forces_reschedule_witness :
  ∃ s2,
    run_trace (H := sample) [(0%nat, EvPollRead); (0%nat, EvPollAct)] sample_all_asleep
    = Some s2
    ∧ 0 < runningQuery (sys_shmem s2).
Proof.
  destruct (poll_forces_reschedule 4 8 2 (fun _ => false) sample_index (fun p => p)
              0 sample_backend sample_keyA
              (mkEntry sample_keyA QUERY_WAITING [100%N] 0 1) sample_all_asleep)
    as (s2 & Hrun & _ & Hadmit).
  - lia.
  - vm_compute. reflexivity.
  - vm_compute. reflexivity.
  - simpl. discriminate.
  - vm_compute. reflexivity.
  - exists s2. split; [exact Hrun|].
    destruct (Hadmit (mkEntry sample_keyA QUERY_WAITING [100%N] 0 1))
      as (n & e' & _ & _ & _ & Hpos).
    + vm_compute. apply list_elem_of_here.
    + reflexivity.
    + exact Hpos.
Defined.

(** C2, a trace that breaks the bound: the registration of the big
    statement is refused after [full_process] was incremented; D is then
    started, admitted and run, and a second run of D finds
    [full_process] still at one and runs the cleanup again: the counter
    of running queries ends at minus one. *)
Lemma running_count_below_zero :
  (full_process_of 0 <$>
     run_trace (H := sample) [(0%nat, EvExecutorStart sample_qBig 0)]
       (initial_system [1; 1]%N)) = Some 1
  ∧ (LogQuery (Collaborators := sample) (pid_of 0) initial_shmem
       (plannedstmt sample_qBig) (sourceText sample_qBig)) = None
  ∧ (runningQuery ∘ sys_shmem <$>
       run_trace (H := sample) sample_refused_then_rerun (initial_system [1; 1]%N))
    = Some (-1).
Proof. vm_compute. repeat split. Qed.

(** ** Records under the operations of the scheduler *)

Lemma record_stable_refl k s : record_stable k s s.
Proof. intros e He. by exists e. Qed.

Lemma record_stable_trans k s1 s2 s3 :
  record_stable k s1 s2 -> record_stable k s2 s3 -> record_stable k s1 s3.
Proof.
  intros H12 H23 e He. destruct (H12 e He) as (e2 & He2 & Ha2).
  destruct (H23 e2 He2) as (e3 & He3 & Ha3). exists e3. split; [done|congruence].
Qed.

Lemma record_stable_Reschedule cap k s : record_stable k s (spec_Reschedule cap s).
Proof.
  intros e He. destruct (spec_Reschedule_kept cap s k e He) as (e' & He' & _ & Ha & _).
  by exists e'.
Qed.

Lemma record_stable_set_runningQuery k r s : record_stable k s (set_runningQuery r s).
Proof. intros e He. by exists e. Qed.

Lemma record_stable_set_status k k' st s : record_stable k s (set_status k' st s).
Proof.
  intros e. unfold hash_search, set_status. simpl.
  induction (queryHashTable s) as [|e0 l IH]; simpl; [done|].
  destruct (decide (key e0 = k')) as [Hk'|Hk'].
  - rewrite (bool_decide_eq_true_2 (key e0 = k')) by done. simpl.
    destruct (bool_decide (key e0 = k)); [|done].
    intros ?. simplify_eq. by eexists.
  - rewrite (bool_decide_eq_false_2 (key e0 = k')) by done.
    destruct (bool_decide (key e0 = k)); [|done].
    intros ?. simplify_eq. by eexists.
Qed.

Lemma find_drop_key k k' (l : list QueryTableEntry) :
  k' ≠ k ->
  List.find (fun e => bool_decide (key e = k)) (drop_key k' l)
  = List.find (fun e => bool_decide (key e = k)) l.
Proof.
  intros Hne. unfold drop_key.
  induction l as [|e0 l IH]; simpl; [done|].
  destruct (decide (key e0 = k')) as [Hk'|Hk'].
  - rewrite (bool_decide_eq_true_2 (key e0 = k')) by done. simpl.
    rewrite (bool_decide_eq_false_2 (key e0 = k)) by congruence. done.
  - rewrite (bool_decide_eq_false_2 (key e0 = k')) by done. simpl.
    by rewrite IH.
Qed.

Lemma record_stable_RemoveLoggedQuery k me qd s :
  key_pid k ≠ me -> record_stable k s (spec_RemoveLoggedQuery me qd s).
Proof.
  intros Hne e. unfold hash_search, spec_RemoveLoggedQuery. simpl.
  rewrite find_drop_key; [by eexists|].
  unfold query_key. intros <-. done.
Qed.

Lemma find_app_some {A} (f : A -> bool) l1 l2 x :
  List.find f l1 = Some x -> List.find f (l1 ++ l2) = Some x.
Proof.
  induction l1 as [|y l1 IH]; simpl; [done|]. destruct (f y); [done|]. apply IH.
Qed.

Lemma record_stable_LogQuery k mq ma xid_of me s stmt text k' s' :
  key_pid k ≠ me ->
  spec_LogQuery mq ma xid_of me s stmt text = Some (k', s') ->
  record_stable k s s'.
Proof.
  intros Hne Hlog e. unfold spec_LogQuery in Hlog.
  destruct (_ || _); [done|]. simplify_eq.
  unfold hash_search. simpl. intros He.
  exists e. split; [|done]. apply find_app_some.
  rewrite find_drop_key; [done|]. unfold query_key. intros <-. done.
Qed.

Section MutualExclusion.
Variables (max_affected max_query_num : nat) (cap : Z).
Variables (shared : Oid -> bool) (index : Oid -> option RefedImmv) (xid_of : Pid -> N).

Local Abbreviation SPEC :=
  (spec_collaborators max_affected max_query_num cap shared index xid_of).

Lemma record_stable_abandon k k0 s :
  record_stable k s (abandon (H := SPEC) k0 s).
Proof.
  unfold abandon. simpl.
  eapply record_stable_trans; [apply (record_stable_set_status k k0 QUERY_GIVE_UP)|].
  eapply record_stable_trans; [apply record_stable_set_runningQuery|].
  apply record_stable_Reschedule.
Qed.

(** A step of another backend, or a step of the two loops, leaves the
    record in the table, with its affected tables. *)
Lemma backend_step_record_stable me ev w w' k :
  backend_step (H := SPEC) me ev w = Some w' ->
  key_pid k ≠ me ∨ is_lock_event ev = true ->
  record_stable k (shmem w) (shmem w').
Proof.
  intros Hs Hk. destruct ev; simpl in Hs;
    try (destruct Hk as [Hk|Hk]; [|discriminate]).
  - destruct (is_idle w); [|done]. simplify_eq.
    unfold execution_start_entry.
    destruct (execution_start_skips _ _ _); [apply record_stable_refl|].
    simpl. destruct (spec_LogQuery _ _ _ _ _ _ _) as [[k1 s1]|] eqn:Hlog; simpl.
    + eapply record_stable_trans; [by eapply record_stable_LogQuery|].
      apply record_stable_Reschedule.
    + apply record_stable_refl.
  - unfold poll_read in Hs. destruct (pc (proc w)); try done.
    destruct (hash_search _ _); simpl in Hs; simplify_eq. apply record_stable_refl.
  - unfold poll_act in Hs. destruct (pc (proc w)); try done.
    destruct (_ && _).
    + destruct (hash_search _ _) as [e|]; simpl in Hs; [|done].
      destruct (bool_decide _); simplify_eq; apply record_stable_Reschedule.
    + destruct (bool_decide _); simplify_eq; apply record_stable_refl.
  - unfold lock_outer in Hs. destruct (pc (proc w)); try done.
    destruct (hash_search _ _) as [e|]; simpl in Hs; [|done].
    destruct (_ && _); [|simplify_eq; apply record_stable_refl].
    destruct (index _); simplify_eq; apply record_stable_refl.
  - unfold lock_inner in Hs. destruct (pc (proc w)); try done.
    destruct (bool_decide _); [|simplify_eq; apply record_stable_refl].
    destruct (LockHeldByMe _ _ _); [simplify_eq; apply record_stable_refl|].
    destruct (ConditionalLockRelationOid _ _ _ _ _) as [[] lt1].
    + destruct (bms_add_member _ _); simplify_eq; apply record_stable_refl.
    + simplify_eq. simpl. apply record_stable_abandon.
  - destruct (is_idle w); simplify_eq. apply record_stable_refl.
  - destruct (is_idle w); [|done]. simplify_eq. unfold executor_run_exit.
    destruct (executor_run_cleans _ _); [|apply record_stable_refl].
    destruct o; simpl.
    + unfold cleanup_on_return. simpl.
      eapply record_stable_trans; [by apply record_stable_RemoveLoggedQuery|].
      eapply record_stable_trans; [apply record_stable_set_runningQuery|].
      apply record_stable_Reschedule.
    + unfold cleanup_on_error. simpl.
      eapply record_stable_trans; [apply record_stable_set_runningQuery|].
      eapply record_stable_trans; [by apply record_stable_RemoveLoggedQuery|].
      apply record_stable_Reschedule.
  - destruct (is_idle w); simplify_eq. apply record_stable_refl.
  - destruct (is_idle w); simplify_eq. apply record_stable_refl.
  - apply transaction_end_inv in Hs as ->. apply record_stable_refl.
Qed.

Lemma system_step_record_stable i j ev s s' k :
  system_step (H := SPEC) j ev s = Some s' ->
  key_pid k = pid_of i ->
  (j = i -> is_lock_event ev = true) ->
  record_stable k (sys_shmem s) (sys_shmem s').
Proof.
  intros Hs Hk Hev. apply system_step_inv in Hs as (p & w' & Hp & Hb & ->).
  apply (backend_step_record_stable _ _ _ _ k) in Hb; [done|].
  destruct (decide (j = i)) as [->|Hne]; [right; by apply Hev|].
  left. rewrite Hk. intros Heq. by apply pid_of_inj in Heq.
Qed.

Lemma holds_acquire me b relid tag grant (lt lt1 : LockTable) :
  LockAcquireConditional me tag grant lt = (true, lt1) ->
  holds (H := SPEC) me b relid lt -> holds (H := SPEC) me b relid lt1.
Proof.
  unfold holds. intros Hacq Hh. rewrite (my_count_acquire _ _ _ _ _ _ Hacq).
  destruct (decide _); [lia|done].
Qed.

Lemma holds_before_acquire me b aff ii tag grant (lt lt1 : LockTable) :
  LockAcquireConditional me tag grant lt = (true, lt1) ->
  holds_before (H := SPEC) me b aff ii lt -> holds_before (H := SPEC) me b aff ii lt1.
Proof.
  intros Hacq Hh m r j Hm Hr Hj. eapply holds_acquire; [done|]. by eapply Hh.
Qed.

(** The steps of the two loops carry [pass_progress] forward, and the
    steps of the other backends do not disturb it. *)
Lemma pass_progress_step i b k aff j ev s s' :
  key_pid k = pid_of i ->
  pass_progress (H := SPEC) i b k aff s ->
  system_step (H := SPEC) j ev s = Some s' ->
  (j = i -> is_lock_event ev = true) ->
  pass_progress (H := SPEC) i b k aff s'.
Proof.
  intros Hk (c & Hp & Hc) Hs Hev.
  pose proof (system_step_record_stable i j ev s s' k Hs Hk Hev) as Hstable.
  destruct (decide (j = i)) as [->|Hne].
  - specialize (Hev eq_refl).
    apply system_step_inv in Hs as (p & w' & Hp' & Hb & ->).
    rewrite Hp in Hp'. simplify_eq.
    unfold pass_progress. rewrite (commit_lookup_same i w' s _ Hp).
    destruct ev; try discriminate; simpl in Hb.
    + unfold lock_outer in Hb. simpl in Hb. destruct c; try done.
      destruct Hc as (-> & (e & He & Haff) & Hreach & Hheld).
      rewrite He in Hb. simpl in Hb. rewrite Haff in Hb.
      fold (affected_at aff i0) in Hb.
      destruct (bool_decide (i0 < max_affected)%nat) eqn:Hlt;
        [destruct (affected_at aff i0 =? 0)%N eqn:Hz|]; simpl in Hb.
      * simplify_eq. eexists. split; [reflexivity|]. simpl.
        intros relid (m & r & j & Hr & Hidx & Hj & ->).
        apply N.eqb_eq in Hz.
        destruct (decide (m < i0)%nat) as [Hm|Hm]; [by eapply Hheld|].
        destruct (Hr i0) as [_ Hnz]; [lia|]. done.
      * apply bool_decide_eq_true in Hlt. apply N.eqb_neq in Hz.
        assert (loop_reaches (H := SPEC) aff (S i0)) as Hreach'.
        { intros m Hm. destruct (decide (m = i0)) as [->|]; [done|]. apply Hreach. lia. }
        destruct (index (affected_at aff i0)) as [r|] eqn:Hidx; simplify_eq.
        -- eexists. split; [reflexivity|]. simpl.
           split; [done|]. split; [by exists e|]. split; [done|].
           split; [done|]. split; [done|]. intros j' Hj'. lia.
        -- eexists. split; [reflexivity|]. simpl.
           split; [done|]. split; [by exists e|]. split; [done|].
           intros m r j Hm Hr Hj. destruct (decide (m = i0)) as [->|].
           ++ simpl in Hr. congruence.
           ++ eapply Hheld; [|done|done]. lia.
      * simplify_eq. eexists. split; [reflexivity|]. simpl.
        intros relid (m & r & j & Hr & Hidx & Hj & ->).
        apply bool_decide_eq_false in Hlt.
        destruct (decide (m < i0)%nat) as [Hm|Hm]; [by eapply Hheld|].
        destruct (Hr i0) as [Hlt' _]; [lia|]. simpl in Hlt'. done.
    + unfold lock_inner in Hb. simpl in Hb. destruct c; try done.
      destruct Hc as (-> & (e & He & Haff) & Hreach & Hidx & Hheld & Hinner).
      destruct (bool_decide (j < refed_table_num refed_immv)%nat) eqn:Hj.
      * apply bool_decide_eq_true in Hj.
        fold (refed_at refed_immv j) in Hb.
        destruct (LockHeldByMe _ _ _) eqn:Hmine.
        { simplify_eq. eexists. split; [reflexivity|]. simpl.
          split; [done|]. split; [by exists e|]. split; [done|].
          split; [done|]. split; [done|].
          intros j' Hj' Hnum. destruct (decide (j' = j)) as [->|]; [|apply Hinner; lia].
          unfold holds. rewrite LockHeldByMe_my_count in Hmine.
          by apply bool_decide_eq_true in Hmine. }
        destruct (ConditionalLockRelationOid _ _ _ _ _) as [[] lt1] eqn:Hacq.
        -- destruct (bms_add_member _ _); simplify_eq; simpl;
             [|eexists; split; [reflexivity|]; done].
           eexists. split; [reflexivity|]. simpl.
           unfold ConditionalLockRelationOid in Hacq.
           split; [done|]. split; [by exists e|]. split; [done|].
           split; [done|]. split; [by eapply holds_before_acquire|].
           intros j' Hj' Hnum. destruct (decide (j' = j)) as [->|].
           ++ unfold holds. rewrite (my_count_acquire _ _ _ _ _ _ Hacq).
              rewrite decide_True by done. lia.
           ++ eapply holds_acquire; [done|]. apply Hinner; lia.
        -- simplify_eq. simpl. eexists. split; [reflexivity|]. done.
      * apply bool_decide_eq_false in Hj. simplify_eq.
        eexists. split; [reflexivity|]. simpl.
        split; [done|]. split; [by exists e|]. split; [done|].
        intros m r j' Hm Hr Hj'. destruct (decide (m = i0)) as [->|].
        -- rewrite Hidx in Hr. simplify_eq. apply Hinner; lia.
        -- eapply Hheld; [|done|done]. lia.
  - assert (∀ relid, holds (H := SPEC) (pid_of i) b relid (sys_locks s) ->
                     holds (H := SPEC) (pid_of i) b relid (sys_locks s')) as Hmono.
    { intros relid. unfold holds.
      by destruct (system_step_other i j ev s s'
                     (SetLocktagRelationOid (H := SPEC) b relid) Hs Hne) as [_ ->]. }
    destruct (system_step_other i j ev s s' (mkLOCKTAG 0%N 0%N) Hs Hne) as [Hprocs _].
    exists c. rewrite Hprocs. split; [done|].
    destruct c; try done.
    + intros relid Hd. apply Hmono. by apply Hc.
    + destruct Hc as (-> & (e & He & Haff) & Hreach & Hheld).
      destruct (Hstable e He) as (e' & He' & Haff').
      split; [done|]. split; [exists e'; split; congruence|]. split; [done|].
      intros m r j' Hm Hr Hj'. apply Hmono. by eapply Hheld.
    + destruct Hc as (-> & (e & He & Haff) & Hreach & Hidx & Hheld & Hinner).
      destruct (Hstable e He) as (e' & He' & Haff').
      split; [done|]. split; [exists e'; split; congruence|]. split; [done|].
      split; [done|]. split.
      * intros m r j' Hm Hr Hj'. apply Hmono. by eapply Hheld.
      * intros j' Hj' Hnum. apply Hmono. by apply Hinner.
Qed.

Lemma pass_progress_begin i b k e s :
  procs s !! i = Some (mkProc b (PcLockOuter k [] 0)) ->
  hash_search k (sys_shmem s) = Some e ->
  pass_progress (H := SPEC) i b k (affected_tables e) s.
Proof.
  intros Hp He. exists (PcLockOuter k [] 0). split; [done|].
  split; [done|]. split; [by exists e|]. split.
  - intros m Hm. lia.
  - intros m r j Hm. lia.
Qed.

Lemma pass_progress_trace i b k aff tr s s' :
  key_pid k = pid_of i ->
  pass_progress (H := SPEC) i b k aff s ->
  pass_trace i tr ->
  run_trace (H := SPEC) tr s = Some s' ->
  pass_progress (H := SPEC) i b k aff s'.
Proof.
  intros Hk. revert s.
  induction tr as [|[j ev] tr IH]; intros s Hst Htr Hrun; simpl in Hrun.
  - by simplify_eq.
  - apply Forall_cons in Htr as [Hev Htr].
    destruct (system_step j ev s) as [s1|] eqn:Hs; simpl in Hrun; [|done].
    eapply IH; [|done|done]. by eapply pass_progress_step.
Qed.

End MutualExclusion.

(** ** Locks that stay *)

Lemma elem_of_bms_insert (a : Bitmapset) (x y : Oid) :
  y ∈ bms_insert a x -> y = x ∨ y ∈ a.
Proof.
  induction a as [|z a IH]; simpl.
  - intros Hy. apply list_elem_of_singleton in Hy. by left.
  - destruct (x <? z)%N.
    + intros Hy. apply elem_of_cons in Hy as [->|Hy]; [by left|by right].
    + destruct (x =? z)%N; [by right|].
      intros Hy. apply elem_of_cons in Hy as [->|Hy]; [right; left|].
      destruct (IH Hy) as [->|Hin]; [by left|right; by right].
Qed.

Section LocksStay.
Context `{Collaborators}.

Lemma my_count_release_newlyLocked_notin me b newly (lt : LockTable) tag :
  tag ∉ newly_tags b newly ->
  my_count me tag (release_newlyLocked me b newly lt) = my_count me tag lt.
Proof.
  unfold release_newlyLocked, newly_tags. revert lt.
  induction newly as [|x l IH]; intros lt Hnot; simpl in *; [done|].
  apply not_elem_of_cons in Hnot as [Hne Hnot].
  rewrite IH by done. unfold UnlockRelationOid. rewrite my_count_release.
  by rewrite decide_False.
Qed.

(** Outside the two loops [newlyLocked] has no member. *)
Local Ltac no_newly :=
  try done; unfold newly_tags; simpl; try apply not_elem_of_nil; try done.

(** A lock that a backend holds, and that is not one of the locks of a
    pass under way, is never given up by the hooks: the backend holds it
    until its transaction ends. *)
Lemma holds_for_good_step i tag j ev s s' :
  holds_for_good i tag s ->
  system_step j ev s = Some s' ->
  (j = i -> ev ≠ EvTransactionEnd) ->
  holds_for_good i tag s'.
Proof.
  intros (p & Hp & Hcount & Hnot) Hs Hev.
  destruct (decide (j = i)) as [->|Hne].
  2:{ destruct (system_step_other i j ev s s' tag Hs Hne) as [Hprocs Hsame].
      exists p. rewrite Hprocs, Hsame. done. }
  apply system_step_inv in Hs as (p' & w' & Hp' & Hb & ->).
  rewrite Hp in Hp'. simplify_eq.
  exists (proc w'). split; [by eapply commit_lookup_same|]. simpl.
  destruct ev; simpl in Hb.
  - destruct (is_idle _) eqn:Hidle; [|done]. simplify_eq.
    unfold is_idle in Hidle. simpl in Hidle.
    unfold execution_start_entry. simpl.
    destruct (execution_start_skips _ _ _); [done|].
    destruct (LogQuery _ _ _ _) as [[k s1]|]; simpl; (split; [done|]).
    + no_newly.
    + destruct (pc p'); no_newly.
  - unfold poll_read in Hb. simpl in Hb. destruct (pc p'); try done.
    destruct (hash_search _ _); simpl in Hb; simplify_eq. simpl.
    split; [done|]. no_newly.
  - unfold poll_act in Hb. simpl in Hb. destruct (pc p'); try done.
    destruct (_ && _).
    + destruct (hash_search _ _) as [e|]; simpl in Hb; [|done].
      destruct (bool_decide _); simplify_eq; simpl;
        (split; [done|]); no_newly.
    + destruct (bool_decide _); simplify_eq; simpl;
        (split; [done|]); no_newly.
  - unfold lock_outer in Hb. simpl in Hb. destruct (pc p') eqn:Hpc; try done.
    destruct (hash_search _ _) as [e|]; simpl in Hb; [|done].
    destruct (_ && _).
    + destruct (getRefrenceImmv _); simplify_eq; simpl; done.
    + simplify_eq. simpl. split; [done|]. no_newly.
  - unfold lock_inner in Hb. simpl in Hb. destruct (pc p') eqn:Hpc; try done.
    simpl in Hnot.
    destruct (bool_decide _); [|simplify_eq; simpl; done].
    destruct (LockHeldByMe _ _ _) eqn:Hheld; [simplify_eq; simpl; done|].
    rewrite LockHeldByMe_my_count in Hheld. apply bool_decide_eq_false in Hheld.
    destruct (ConditionalLockRelationOid _ _ _ _ _) as [[] lt1] eqn:Hacq.
    + unfold ConditionalLockRelationOid in Hacq.
      pose proof (my_count_acquire _ _ _ _ _ tag Hacq) as Hafter.
      unfold bms_add_member in Hb.
      destruct (_ <? _)%N; simplify_eq; simpl; rewrite Hafter.
      * destruct (decide _) as [->|Hne]; [lia|]. split; [done|].
        unfold newly_tags. rewrite list_elem_of_fmap. intros (y & -> & Hy).
        apply elem_of_bms_insert in Hy as [->|Hy]; [done|].
        apply Hnot. unfold newly_tags. rewrite list_elem_of_fmap. by exists y.
      * destruct (decide _) as [->|Hne]; [lia|]. split; [done|]. no_newly.
    + simplify_eq. simpl. rewrite my_count_release_newlyLocked_notin by done.
      split; [done|]. no_newly.
  - destruct (is_idle _) eqn:Hidle; [|done]. simplify_eq. simpl.
    unfold is_idle in Hidle. simpl in Hidle. destruct (pc p'); try done;
      (split; [done|]); no_newly.
  - destruct (is_idle _) eqn:Hidle; [|done]. simplify_eq.
    unfold is_idle in Hidle. simpl in Hidle. destruct (pc p') eqn:Hpc; try done;
      unfold executor_run_exit; simpl;
      destruct (executor_run_cleans _ _); simpl; rewrite ?Hpc;
      (split; [done|]); no_newly.
  - destruct (is_idle _) eqn:Hidle; [|done]. simplify_eq. simpl.
    unfold is_idle in Hidle. simpl in Hidle. destruct (pc p'); try done;
      (split; [done|]); no_newly.
  - destruct (is_idle _) eqn:Hidle; [|done]. simplify_eq. simpl.
    unfold is_idle in Hidle. simpl in Hidle. destruct (pc p'); try done;
      (split; [done|]); no_newly.
  - by destruct (Hev eq_refl).
Qed.

Lemma holds_for_good_trace i tag tr s s' :
  holds_for_good i tag s ->
  no_transaction_end i tr ->
  run_trace tr s = Some s' ->
  holds_for_good i tag s'.
Proof.
  revert s. induction tr as [|[j ev] tr IH]; intros s Hst Htr Hrun; simpl in Hrun.
  - by simplify_eq.
  - destruct (system_step j ev s) as [s1|] eqn:Hs; simpl in Hrun; [|done].
    apply Forall_cons in Htr as [Hev Htr]. simpl in Hev.
    eapply IH; [|done|done]. by eapply holds_for_good_step.
Qed.

End LocksStay.

Section Exclusion.
Variables (max_affected max_query_num : nat) (cap : Z).
Variables (shared : Oid -> bool) (index : Oid -> option RefedImmv) (xid_of : Pid -> N).

Local Abbreviation SPEC :=
  (spec_collaborators max_affected max_query_num cap shared index xid_of).

(** A backend that leaves the two loops by their end holds, from then
    on and until its transaction ends, the lock of every table its
    record depends on. *)
Lemma completed_pass_holds i b k e tr s0 s1 tr' s relid :
  key_pid k = pid_of i ->
  procs s0 !! i = Some (mkProc b (PcLockOuter k [] 0)) ->
  hash_search k (sys_shmem s0) = Some e ->
  pass_trace i tr ->
  run_trace (H := SPEC) tr s0 = Some s1 ->
  procs s1 !! i = Some (mkProc b PcIdle) ->
  no_transaction_end i tr' ->
  run_trace (H := SPEC) tr' s1 = Some s ->
  depends_on (H := SPEC) (affected_tables e) relid ->
  my_count (pid_of i) (SetLocktagRelationOid (H := SPEC) b relid) (sys_locks s) ≠ 0%nat.
Proof.
  intros Hk Hp0 He Htr Hrun Hp1 Hno Hrun' Hdep.
  pose proof (pass_progress_trace _ _ _ _ _ _ i b k (affected_tables e) tr s0 s1 Hk
                (pass_progress_begin _ _ _ _ _ _ i b k e s0 Hp0 He) Htr Hrun)
    as (c & Hp & Hc).
  rewrite Hp1 in Hp. simplify_eq. specialize (Hc relid Hdep).
  assert (holds_for_good (H := SPEC) i (SetLocktagRelationOid (H := SPEC) b relid) s1)
    as Hgood.
  { eexists. split; [done|]. split; [done|]. simpl. apply not_elem_of_nil. }
  by destruct (holds_for_good_trace i _ tr' s1 s Hgood Hno Hrun') as (p & _ & Hcount & _).
Qed.

Lemma Running_holds i b e s relid :
  Running (H := SPEC) i b e s ->
  depends_on (H := SPEC) (affected_tables e) relid ->
  my_count (pid_of i) (SetLocktagRelationOid (H := SPEC) b relid) (sys_locks s) ≠ 0%nat.
Proof.
  intros (k & s0 & tr & s1 & tr1 & Hk & Hp0 & He & Htr & Hrun & Hp1 & Hno & Hrun1) Hdep.
  by eapply completed_pass_holds.
Qed.


End Exclusion.

Lemma sample_depends_on immv r relid :
  sample_index immv = Some r ->
  immv ≠ InvalidOid ->
  (0 < refed_table_num r)%nat ->
  relid = refed_at r 0 ->
  depends_on (H := sample) [immv] relid.
Proof.
  intros Hidx Hnz Hnum ->. exists 0%nat, r, 0%nat.
  split; [|by split].
  intros m Hm. assert (m = 0)%nat as -> by lia. split; [simpl; lia|done].
Qed.

Lemma sample_Running_B : Running (H := sample) 1 sample_backend
    (mkEntry sample_keyB QUERY_AVAILABLE [200%N] 1 1) sample_C_past.
Proof.
  exists sample_keyB, sample_B_at_pass, (sample_locks_one_table 1), sample_B_past,
    (sample_start 0 sample_qC ++ sample_locks_one_table 0).
  split; [reflexivity|]. split; [vm_compute; reflexivity|].
  split; [vm_compute; reflexivity|].
  split; [unfold pass_trace, sample_locks_one_table; repeat constructor|].
  split; [vm_compute; reflexivity|]. split; [vm_compute; reflexivity|].
  split; [|vm_compute; reflexivity].
  unfold no_transaction_end. repeat constructor; simpl; discriminate.
Qed.

Lemma sample_Running_C : Running (H := sample) 0 sample_backend
    (mkEntry sample_keyC QUERY_AVAILABLE [300%N] 0 2) sample_C_past.
Proof.
  exists sample_keyC, sample_C_at_pass, (sample_locks_one_table 0), sample_C_past, [].
  split; [reflexivity|]. split; [vm_compute; reflexivity|].
  split; [vm_compute; reflexivity|].
  split; [unfold pass_trace, sample_locks_one_table; repeat constructor|].
  split; [vm_compute; reflexivity|]. split; [vm_compute; reflexivity|].
  split; [|reflexivity]. constructor.
Qed.


(** ** The flag [isUtility] *)

Section UtilityFlag.
Context `{Collaborators}.

(** No step but the exit of the utility hook clears the flag. *)
Lemma isUtility_step i j ev s s' :
  system_step j ev s = Some s' ->
  (j = i -> ev ≠ EvUtilityExit) ->
  isUtility_of i s = true ->
  isUtility_of i s' = true.
Proof.
  intros Hs Hev Hu. unfold isUtility_of in *.
  destruct (decide (j = i)) as [->|Hne].
  2:{ by destruct (system_step_other i j ev s s' (mkLOCKTAG 0%N 0%N) Hs Hne) as [-> _]. }
  specialize (Hev eq_refl).
  apply system_step_inv in Hs as (p & w' & Hp & Hb & ->).
  rewrite (commit_lookup_same i w' s _ Hp). rewrite Hp in Hu.
  destruct ev; simpl in Hb; try done.
  - destruct (is_idle _); [|done]. simplify_eq.
    unfold execution_start_entry. simpl.
    destruct (execution_start_skips _ _ _); [done|].
    by destruct (LogQuery _ _ _ _) as [[k s1]|].
  - unfold poll_read in Hb. simpl in Hb. destruct (pc p); try done.
    destruct (hash_search _ _); simpl in Hb; by simplify_eq.
  - unfold poll_act in Hb. simpl in Hb. destruct (pc p); try done.
    destruct (_ && _).
    + destruct (hash_search _ _) as [e|]; simpl in Hb; [|done].
      destruct (bool_decide _); by simplify_eq.
    + destruct (bool_decide _); by simplify_eq.
  - unfold lock_outer in Hb. simpl in Hb. destruct (pc p); try done.
    destruct (hash_search _ _) as [e|]; simpl in Hb; [|done].
    destruct (_ && _); [|by simplify_eq].
    destruct (getRefrenceImmv _); by simplify_eq.
  - unfold lock_inner in Hb. simpl in Hb. destruct (pc p); try done.
    destruct (bool_decide _); [|by simplify_eq].
    destruct (LockHeldByMe _ _ _); [by simplify_eq|].
    destruct (ConditionalLockRelationOid _ _ _ _ _) as [[] lt1];
      [destruct (bms_add_member _ _)|]; by simplify_eq.
  - destruct (is_idle _); by simplify_eq.
  - destruct (is_idle _); [|done]. simplify_eq. unfold executor_run_exit. simpl.
    by destruct (executor_run_cleans _ _).
  - destruct (is_idle _); by simplify_eq.
  - by apply transaction_end_inv in Hb as ->.
Qed.

Lemma isUtility_trace i tr s s' :
  no_utility_exit i tr ->
  run_trace tr s = Some s' ->
  isUtility_of i s = true ->
  isUtility_of i s' = true.
Proof.
  revert s. induction tr as [|[j ev] tr IH]; intros s Htr Hrun Hu; simpl in Hrun.
  - by simplify_eq.
  - apply Forall_cons in Htr as [Hev Htr].
    destruct (system_step j ev s) as [s1|] eqn:Hs; simpl in Hrun; [|done].
    eapply IH; [done|done|]. by eapply isUtility_step.
Qed.


End UtilityFlag.


(** ** Which starts enter enforcement *)

Section TopLevelOnly.
Context `{Collaborators}.


End TopLevelOnly.




(** ** The ledger *)

Lemma credits_split s ps :
  credits s ps = base_credits ps + available_sum (queryHashTable s) (watched_keys ps).
Proof.
  induction ps as [|p ps IH]; simpl; [done|].
  unfold watched_keys in *. simpl. unfold credit, base_credit.
  destruct (pc_key (pc p)); simpl; lia.
Qed.

Lemma entry_available_range e : 0 <= entry_available e <= 1.
Proof. unfold entry_available. destruct (bool_decide _); lia. Qed.

Lemma available_in_cons e l k :
  available_in (e :: l) k
  = if bool_decide (key e = k) then entry_available e else available_in l k.
Proof. unfold available_in, find_key. simpl. by destruct (bool_decide _). Qed.

Lemma available_sum_cons e l K :
  NoDup K ->
  available_sum (e :: l) K
  = (if bool_decide (key e ∈ K) then entry_available e else 0)
    + available_sum l (filter (fun k => k ≠ key e) K).
Proof.
  induction 1 as [|k K Hk Hnd IH]; simpl; [done|].
  rewrite IH, available_in_cons.
  destruct (decide (key e = k)) as [->|Hne].
  - rewrite bool_decide_eq_true_2 by done.
    rewrite (bool_decide_eq_true_2 (k ∈ k :: K)) by left.
    rewrite (bool_decide_eq_false_2 (k ∈ K)) by done.
    rewrite filter_cons_False by (intros Hc; by apply Hc). lia.
  - rewrite bool_decide_eq_false_2 by done.
    rewrite filter_cons_True by congruence. simpl.
    destruct (decide (key e ∈ K)) as [Hin|Hin].
    + rewrite !bool_decide_eq_true_2; [lia|by right|done].
    + rewrite !bool_decide_eq_false_2; [lia| |done].
      intros Hc. apply elem_of_cons in Hc as [?|?]; done.
Qed.

(** The admission pass makes at most as many watched records available
    as it adds to the counter. *)
Lemma available_sum_admission cap l running K :
  NoDup K ->
  available_sum (admission cap l running).1 K - available_sum l K
  <= (admission cap l running).2 - running.
Proof.
  revert running K. induction l as [|e l IH]; intros running K Hnd; simpl; [lia|].
  pose proof (NoDup_filter (fun k => k ≠ key e) K Hnd) as Hnd'.
  destruct (status e) eqn:Hst.
  - destruct (running <? cap).
    + specialize (IH (running + 1) _ Hnd').
      destruct (admission cap l (running + 1)) as [l2 r2]. simpl in *.
      rewrite !available_sum_cons by done. simpl.
      pose proof (entry_available_range e).
      pose proof (entry_available_range (entry_set_status QUERY_AVAILABLE e)).
      destruct (bool_decide _); lia.
    + specialize (IH running _ Hnd').
      destruct (admission cap l running) as [l2 r2]. simpl in *.
      rewrite !available_sum_cons by done. lia.
  - specialize (IH running _ Hnd').
    destruct (admission cap l running) as [l2 r2]. simpl in *.
    rewrite !available_sum_cons by done. lia.
  - specialize (IH running _ Hnd').
    destruct (admission cap l running) as [l2 r2]. simpl in *.
    rewrite !available_sum_cons by done. lia.
  - specialize (IH running _ Hnd').
    destruct (admission cap l running) as [l2 r2]. simpl in *.
    rewrite !available_sum_cons by done. simpl.
    unfold entry_available. simpl. rewrite Hst. simpl.
    destruct (bool_decide _); lia.
Qed.

Lemma watched_keys_NoDup off ps :
  (∀ j p k, ps !! j = Some p -> pc_key (pc p) = Some k ->
            key_pid k = pid_of (off + j)) ->
  NoDup (watched_keys ps)
  ∧ ∀ k, k ∈ watched_keys ps -> (N.of_nat off <= key_pid k)%N.
Proof.
  revert off. induction ps as [|p ps IH]; intros off Hkeys.
  - split; [constructor|]. intros k Hk. by apply elem_of_nil in Hk.
  - destruct (IH (S off)) as [Hnd Hge].
    { intros j q k Hq Hk. rewrite (Hkeys (S j) q k Hq Hk). f_equal. lia. }
    unfold watched_keys in *. simpl.
    destruct (pc_key (pc p)) as [k|] eqn:Hk; simpl.
    + pose proof (Hkeys 0%nat p k eq_refl Hk) as Hpid. unfold pid_of in Hpid.
      split.
      * apply NoDup_cons. split; [|done]. intros Hin. apply Hge in Hin. lia.
      * intros k' Hin. apply elem_of_cons in Hin as [->|Hin]; [lia|].
        apply Hge in Hin. lia.
    + split; [done|]. intros k' Hin. apply Hge in Hin. lia.
Qed.

Lemma credit_nonneg i s p : proc_ok i s p -> 0 <= credit s p.
Proof.
  unfold proc_ok, credit. intros [Hfp Hk].
  destruct (pc_key (pc p)) as [k|]; [|done].
  destruct Hk as [Hone _]. unfold available_in.
  destruct (find_key _ _) as [e|]; [|lia].
  pose proof (entry_available_range e). lia.
Qed.

Lemma credits_nonneg s ps :
  (∀ j q, ps !! j = Some q -> 0 <= credit s q) -> 0 <= credits s ps.
Proof.
  induction ps as [|p ps IH]; intros Hall; simpl; [lia|].
  pose proof (Hall 0%nat p eq_refl).
  assert (0 <= credits s ps); [|lia].
  apply IH. intros j q Hq. by apply (Hall (S j)).
Qed.

Lemma credit_le_credits s ps i p :
  (∀ j q, ps !! j = Some q -> 0 <= credit s q) ->
  ps !! i = Some p ->
  credit s p <= credits s ps.
Proof.
  revert i. induction ps as [|q ps IH]; intros i Hall Hp; [done|].
  simpl. destruct i as [|i]; simpl in Hp.
  - simplify_eq. assert (0 <= credits s ps); [|lia].
    apply credits_nonneg. intros j q' Hq'. by apply (Hall (S j)).
  - pose proof (Hall 0%nat q eq_refl).
    assert (credit s p <= credits s ps); [|lia].
    apply (IH i); [|done]. intros j q' Hq'. by apply (Hall (S j)).
Qed.

(** Backend [i] moves from [p] to [p'] and the segment from [s] to
    [s1]; the claims of the others are the same in [s1] as in [s]. *)
Lemma credits_update s s1 ps i p p' :
  ps !! i = Some p ->
  (∀ j q, j ≠ i -> ps !! j = Some q -> credit s1 q = credit s q) ->
  credits s1 (<[i := p']> ps) = credits s ps - credit s p + credit s1 p'.
Proof.
  revert i. induction ps as [|q ps IH]; intros i Hp Hothers; [done|].
  destruct i as [|i]; simpl in *.
  - simplify_eq.
    assert (credits s1 ps = credits s ps) as ->; [|lia].
    clear IH. induction ps as [|q ps IH']; simpl; [done|].
    rewrite (Hothers 1%nat q) by done.
    rewrite IH'; [done|]. intros j q' Hj Hq'.
    destruct j as [|j]; [done|]. apply (Hothers (S (S j))); [lia|done].
  - rewrite (IH i Hp).
    + rewrite (Hothers 0%nat q) by done. lia.
    + intros j q' Hj Hq'. apply (Hothers (S j)); [lia|done].
Qed.

Lemma ledger_reschedule cap ps s lt :
  ledger_inv cap (mkSystem ps s lt) ->
  ledger_inv cap (mkSystem ps (spec_Reschedule cap s) lt).
Proof.
  intros ([Hlo Hhi] & Hsum & Hok). simpl in *.
  assert (NoDup (watched_keys ps)) as Hnd.
  { apply (watched_keys_NoDup 0). intros j p k Hp Hk.
    destruct (Hok j p Hp) as [_ Hkey]. rewrite Hk in Hkey. by destruct Hkey as (_ & -> & _). }
  pose proof (admission_running cap (queryHashTable s) (runningQuery s)) as [Hge Hle].
  pose proof (available_sum_admission cap (queryHashTable s) (runningQuery s) _ Hnd) as Hadm.
  pose proof (credits_split s ps) as Hs1.
  pose proof (credits_split (spec_Reschedule cap s) ps) as Hs2.
  split; [|split]; simpl.
  - unfold spec_Reschedule.
    destruct (admission cap (queryHashTable s) (runningQuery s)) as [l r]. simpl in *. lia.
  - unfold spec_Reschedule in *.
    destruct (admission cap (queryHashTable s) (runningQuery s)) as [l r]. simpl in *. lia.
  - intros i p Hp. destruct (Hok i p Hp) as [Hfp Hkey]. split; [done|].
    destruct (pc_key (pc p)) as [k|]; [|done].
    destruct Hkey as (Hone & Hpid & e & He & Hav).
    destruct (spec_Reschedule_kept cap s k e He) as (e' & He' & _ & _ & Hkeep).
    split; [done|]. split; [done|]. exists e'. split; [done|]. auto.
Qed.

Lemma find_drop_key_same k (l : list QueryTableEntry) :
  List.find (fun e => bool_decide (key e = k)) (drop_key k l) = None.
Proof.
  unfold drop_key. induction l as [|e l IH]; simpl; [done|].
  destruct (decide (key e = k)) as [Hk|Hk].
  - by rewrite (bool_decide_eq_true_2 (key e = k)) by done.
  - rewrite (bool_decide_eq_false_2 (key e = k)) by done. simpl.
    by rewrite (bool_decide_eq_false_2 (key e = k)) by done.
Qed.

Lemma find_app_none {A} (f : A -> bool) l1 l2 :
  List.find f l1 = None -> List.find f (l1 ++ l2) = List.find f l2.
Proof.
  induction l1 as [|y l1 IH]; simpl; [done|]. destruct (f y); [done|]. apply IH.
Qed.

(** Backend [i] moves from [p] to [p'] and writes the segment [s1],
    in which the records of the other backends are as before. *)
Lemma ledger_move cap s i p p' s1 lt1 :
  ledger_inv cap s ->
  procs s !! i = Some p ->
  (∀ k e, key_pid k ≠ pid_of i ->
          hash_search k (sys_shmem s) = Some e -> hash_search k s1 = Some e) ->
  proc_ok i s1 p' ->
  runningQuery s1 <= runningQuery (sys_shmem s) ->
  credit s1 p' - credit (sys_shmem s) p
  <= runningQuery s1 - runningQuery (sys_shmem s) ->
  ledger_inv cap (mkSystem (<[i := p']> (procs s)) s1 lt1).
Proof.
  intros ([Hlo Hhi] & Hsum & Hok) Hp Hothers Hok' Hle Hdiff.
  assert (∀ j q, j ≠ i -> procs s !! j = Some q ->
                 credit s1 q = credit (sys_shmem s) q ∧ proc_ok j s1 q) as Hrest.
  { intros j q Hj Hq. destruct (Hok j q Hq) as [Hfp Hkey].
    unfold credit, proc_ok. destruct (pc_key (pc q)) as [k|]; [|done].
    destruct Hkey as (Hone & Hpid & e & He & Hav).
    assert (key_pid k ≠ pid_of i) as Hne.
    { rewrite Hpid. intros Heq. by apply pid_of_inj in Heq. }
    pose proof (Hothers k e Hne He) as He1. split.
    - unfold available_in. unfold hash_search in He, He1. unfold find_key.
      by rewrite He, He1.
    - split; [done|]. split; [done|]. split; [done|]. by exists e. }
  assert (∀ j q, <[i := p']> (procs s) !! j = Some q -> proc_ok j s1 q) as Hok1.
  { intros j q Hq. destruct (decide (j = i)) as [->|Hj].
    - rewrite list_lookup_insert_eq in Hq by (by apply lookup_lt_Some in Hp).
      by simplify_eq.
    - rewrite list_lookup_insert_ne in Hq by done. by destruct (Hrest j q Hj Hq). }
  assert (credits s1 (<[i := p']> (procs s))
          = credits (sys_shmem s) (procs s) - credit (sys_shmem s) p + credit s1 p')
    as Hcred.
  { apply credits_update; [done|]. intros j q Hj Hq. by destruct (Hrest j q Hj Hq). }
  assert (0 <= credits s1 (<[i := p']> (procs s))) as Hpos.
  { apply credits_nonneg. intros j q Hq. eapply credit_nonneg. by apply Hok1. }
  split; [simpl; lia|]. split; [simpl; lia|]. done.
Qed.

Lemma ledger_credit_le cap s i p :
  ledger_inv cap s -> procs s !! i = Some p ->
  credit (sys_shmem s) p <= runningQuery (sys_shmem s).
Proof.
  intros (_ & Hsum & Hok) Hp.
  assert (credit (sys_shmem s) p <= credits (sys_shmem s) (procs s)); [|lia].
  apply (credit_le_credits _ _ i); [|done].
  intros j q Hq. eapply credit_nonneg. by apply Hok.
Qed.

Section Ledger.
Variables (max_affected max_query_num : nat) (cap : Z).
Variables (shared : Oid -> bool) (index : Oid -> option RefedImmv) (xid_of : Pid -> N).
Hypothesis cap_range : 0 <= cap < INT_MAX.

Local Abbreviation SPEC :=
  (spec_collaborators max_affected max_query_num cap shared index xid_of).

Lemma ledger_same cap' s i p p' lt1 :
  ledger_inv cap' s ->
  procs s !! i = Some p ->
  proc_ok i (sys_shmem s) p' ->
  credit (sys_shmem s) p' = credit (sys_shmem s) p ->
  ledger_inv cap' (mkSystem (<[i := p']> (procs s)) (sys_shmem s) lt1).
Proof.
  intros Hinv Hp Hok Hc. eapply ledger_move; try done; lia.
Qed.

Lemma ledger_start i s b qd eflags w' :
  ledger_inv cap s ->
  procs s !! i = Some (mkProc b PcIdle) ->
  execution_start_entry (H := SPEC) (pid_of i) qd eflags
    (mkWorld (mkProc b PcIdle) (sys_shmem s) (sys_locks s)) = (Returned, w') ->
  ledger_inv cap (commit i w' s).
Proof.
  intros Hinv Hp. unfold execution_start_entry, commit. simpl.
  pose proof (ledger_credit_le _ _ _ _ Hinv Hp) as Hfp. unfold credit in Hfp. simpl in Hfp.
  destruct Hinv as ([Hlo Hhi] & Hsum & Hok). pose proof (Hok i _ Hp) as [Hfp0 _].
  simpl in Hfp0.
  destruct (execution_start_skips _ _ _).
  - intros [= <-]. simpl. by eapply ledger_same.
  - destruct (spec_LogQuery _ _ _ _ _ _ _) as [[k s1]|] eqn:Hlog; [|done].
    intros [= <-]. simpl. apply ledger_reschedule.
    unfold spec_LogQuery in Hlog. destruct (_ || _); [done|]. simplify_eq.
    assert (int_incr (full_process b) = full_process b + 1) as Hincr.
    { apply int_incr_exact. unfold INT_MIN. lia. }
    set (k := query_key (pid_of i) (plannedstmt qd)).
    set (e := mkEntry k QUERY_WAITING _ _ _).
    assert (find_key k (drop_key k (queryHashTable (sys_shmem s)) ++ [e]) = Some e) as Hfind.
    { unfold find_key. rewrite find_app_none by apply find_drop_key_same.
      simpl. by rewrite bool_decide_eq_true_2. }
    eapply ledger_move; [done|done| | | |]; simpl.
    + intros k' e0 Hne He0. unfold hash_search in *. simpl.
      apply find_app_some. rewrite find_drop_key; [done|].
      unfold k, query_key. intros <-. done.
    + split; simpl; [lia|]. split; [lia|]. split; [done|].
      exists e. by split.
    + lia.
    + unfold credit. simpl. unfold available_in. rewrite Hfind.
      unfold entry_available. simpl. lia.
Qed.

Lemma ledger_poll_read i s p w' :
  ledger_inv cap s ->
  procs s !! i = Some p ->
  poll_read (mkWorld p (sys_shmem s) (sys_locks s)) = Some w' ->
  ledger_inv cap (commit i w' s).
Proof.
  intros Hinv Hp. unfold poll_read, commit. simpl.
  pose proof Hinv as (_ & _ & Hok). pose proof (Hok i _ Hp) as [Hfp Hkey].
  destruct (pc p) as [|k| | | |] eqn:Hpc; try done. simpl in Hkey.
  destruct Hkey as (Hone & Hpid & e & He & _). rewrite He. simpl.
  intros [= <-]. simpl. eapply ledger_same; [done|done| |].
  - split; [done|]. simpl. split; [done|]. split; [done|]. exists e. split; [done|].
    intros Hst. by apply bool_decide_eq_true in Hst.
  - unfold credit. simpl. by rewrite Hpc.
Qed.

Lemma ledger_poll_act i s p w' :
  ledger_inv cap s ->
  procs s !! i = Some p ->
  poll_act (H := SPEC) (mkWorld p (sys_shmem s) (sys_locks s)) = Some w' ->
  ledger_inv cap (commit i w' s).
Proof.
  intros Hinv Hp. unfold poll_act, commit. simpl.
  pose proof Hinv as (_ & _ & Hok). pose proof (Hok i _ Hp) as [Hfp Hkey].
  destruct (pc p) as [| |k st running| | |] eqn:Hpc; try done. simpl in Hkey.
  destruct Hkey as (Hone & Hpid & e & He & Hav).
  destruct (_ && _).
  - pose proof (ledger_reschedule cap (procs s) (sys_shmem s) (sys_locks s)) as Hres.
    destruct s as [ps shm lt]. simpl in *. specialize (Hres Hinv).
    destruct (hash_search k (spec_Reschedule cap shm)) as [e1|] eqn:He1; simpl; [|done].
    destruct (bool_decide (status e1 = QUERY_AVAILABLE)) eqn:Hst;
      intros [= <-]; simpl;
      apply (ledger_same cap (mkSystem ps (spec_Reschedule cap shm) lt) i p); try done.
    + split; [done|]. simpl. split; [done|]. split; [done|]. exists e1.
      split; [done|]. intros _. by apply bool_decide_eq_true in Hst.
    + unfold credit. simpl. by rewrite Hpc.
    + split; [done|]. simpl. split; [done|]. split; [done|]. exists e1. by split.
    + unfold credit. simpl. by rewrite Hpc.
  - destruct (bool_decide (st = QUERY_AVAILABLE)) eqn:Hst;
      intros [= <-]; simpl; eapply ledger_same; try done.
    + split; [done|]. simpl. split; [done|]. split; [done|]. exists e.
      split; [done|]. intros _. by apply Hav.
    + unfold credit. simpl. by rewrite Hpc.
    + split; [done|]. simpl. split; [done|]. split; [done|]. exists e. by split.
    + unfold credit. simpl. by rewrite Hpc.
Qed.

Lemma ledger_lock_outer i s p w' :
  ledger_inv cap s ->
  procs s !! i = Some p ->
  lock_outer (H := SPEC) (mkWorld p (sys_shmem s) (sys_locks s)) = Some w' ->
  ledger_inv cap (commit i w' s).
Proof.
  intros Hinv Hp. unfold lock_outer, commit. simpl.
  pose proof Hinv as (_ & _ & Hok). pose proof (Hok i _ Hp) as [Hfp Hkey].
  destruct (pc p) as [| | |k newly ii| |] eqn:Hpc; try done. simpl in Hkey.
  destruct Hkey as (Hone & Hpid & e & He & Hav). rewrite He. simpl.
  assert (credit (sys_shmem s) p = full_process (priv p)) as Hcred.
  { unfold credit. rewrite Hpc. simpl. unfold available_in, find_key.
    unfold hash_search in He. rewrite He. unfold entry_available.
    rewrite bool_decide_eq_true_2 by (by apply Hav). lia. }
  destruct (_ && _).
  - destruct (index _); intros [= <-]; simpl; eapply ledger_same; try done.
    + split; [done|]. simpl. split; [done|]. split; [done|]. by exists e.
    + rewrite Hcred. unfold credit. simpl. unfold available_in, find_key.
      unfold hash_search in He. rewrite He. unfold entry_available.
      rewrite bool_decide_eq_true_2 by (by apply Hav). lia.
    + split; [done|]. simpl. split; [done|]. split; [done|]. by exists e.
    + rewrite Hcred. unfold credit. simpl. unfold available_in, find_key.
      unfold hash_search in He. rewrite He. unfold entry_available.
      rewrite bool_decide_eq_true_2 by (by apply Hav). lia.
  - intros [= <-]. simpl. eapply ledger_same; try done.
Qed.

Lemma ledger_lock_inner i s p grant w' :
  ledger_inv cap s ->
  procs s !! i = Some p ->
  lock_inner (H := SPEC) (pid_of i) grant (mkWorld p (sys_shmem s) (sys_locks s)) = Some w' ->
  ledger_inv cap (commit i w' s).
Proof.
  intros Hinv Hp. unfold lock_inner, commit. simpl.
  pose proof (ledger_credit_le _ _ _ _ Hinv Hp) as Hle.
  pose proof Hinv as ([Hlo Hhi] & _ & Hok). pose proof (Hok i _ Hp) as [Hfp Hkey].
  destruct (pc p) as [| | | |k newly ii r j|] eqn:Hpc; try done. simpl in Hkey.
  destruct Hkey as (Hone & Hpid & e & He & Hav).
  assert (credit (sys_shmem s) p = full_process (priv p)) as Hcred.
  { unfold credit. rewrite Hpc. simpl. unfold available_in, find_key.
    unfold hash_search in He. rewrite He. unfold entry_available.
    rewrite bool_decide_eq_true_2 by (by apply Hav). lia. }
  assert (proc_ok i (sys_shmem s) (mkProc (priv p) (PcLockInner k newly ii r (S j))))
    as Hok_next.
  { split; [done|]. simpl. split; [done|]. split; [done|]. by exists e. }
  assert (∀ n, credit (sys_shmem s) (mkProc (priv p) (PcLockInner k n ii r (S j)))
               = credit (sys_shmem s) p) as Hcred_next.
  { intros n. unfold credit. simpl. by rewrite Hpc. }
  destruct (bool_decide _).
  - destruct (LockHeldByMe _ _ _).
    { intros [= <-]. simpl. by eapply ledger_same. }
    destruct (ConditionalLockRelationOid _ _ _ _ _) as [[] lt1].
    { destruct (bms_add_member _ _); intros [= <-]; simpl.
      - by eapply ledger_same.
      - eapply ledger_same; [done|done| |].
        + split; [done|]. done.
        + rewrite Hcred. unfold credit. simpl. done. }
    intros [= <-]; simpl.
    + unfold abandon. simpl. apply ledger_reschedule.
      assert (int_decr (runningQuery (sys_shmem s)) = runningQuery (sys_shmem s) - 1)
        as Hdecr.
      { apply int_decr_exact. unfold INT_MIN, INT_MAX in *. lia. }
      pose proof (hash_search_set_status_eq k QUERY_GIVE_UP _ _ He) as He'.
      eapply ledger_move; [done|done| | | |]; simpl.
      * intros k' e0 Hne He0. unfold hash_search in *. simpl.
        pose proof (hash_search_set_status_ne k k' QUERY_GIVE_UP (sys_shmem s)) as Hs.
        unfold hash_search, set_status in Hs. simpl in Hs. rewrite Hs; [done|].
        intros ->. done.
      * split; [done|]. simpl. split; [done|]. split; [done|].
        exists (entry_set_status QUERY_GIVE_UP e). by split.
      * lia.
      * rewrite Hcred. unfold credit. simpl. unfold available_in, find_key.
        unfold hash_search, set_status in He'. simpl in He'. rewrite He'.
        unfold entry_available. simpl. lia.
  - intros [= <-]. simpl. eapply ledger_same; try done.
    unfold credit. simpl. by rewrite Hpc.
Qed.

(** A change of the private variables that leaves [full_process] and
    the program point as they are. *)
Lemma ledger_private i s p b' :
  ledger_inv cap s ->
  procs s !! i = Some p ->
  full_process b' = full_process (priv p) ->
  ledger_inv cap (mkSystem (<[i := mkProc b' (pc p)]> (procs s)) (sys_shmem s) (sys_locks s)).
Proof.
  intros Hinv Hp Hfp. pose proof Hinv as (_ & _ & Hok).
  pose proof (Hok i _ Hp) as Hokp.
  eapply ledger_same; try done.
  - unfold proc_ok in *. simpl. by rewrite Hfp.
  - unfold credit. simpl. by rewrite Hfp.
Qed.

Lemma ledger_run_exit i s b qd o :
  ledger_inv cap s ->
  procs s !! i = Some (mkProc b PcIdle) ->
  ledger_inv cap
    (commit i (executor_run_exit (H := SPEC) (pid_of i) qd o
                 (mkWorld (mkProc b PcIdle) (sys_shmem s) (sys_locks s))) s).
Proof.
  intros Hinv Hp. unfold executor_run_exit, commit. simpl.
  pose proof (ledger_credit_le _ _ _ _ Hinv Hp) as Hle.
  unfold credit in Hle. simpl in Hle.
  pose proof Hinv as ([Hlo Hhi] & _ & Hok). pose proof (Hok i _ Hp) as [Hfp _].
  simpl in Hfp.
  destruct (executor_run_cleans _ _) eqn:Hc; simpl.
  2:{ by apply (ledger_private i s (mkProc b PcIdle)). }
  assert (full_process b ≠ 0) as Hnz by (by apply (exit_cleans_full_process b qd)).
  assert (int_decr (full_process b) = full_process b - 1) as Hdf.
  { apply int_decr_exact. unfold INT_MIN, INT_MAX in *. lia. }
  assert (int_decr (runningQuery (sys_shmem s)) = runningQuery (sys_shmem s) - 1) as Hdr.
  { apply int_decr_exact. unfold INT_MIN, INT_MAX in *. lia. }
  assert (∀ k' e0, key_pid k' ≠ pid_of i ->
            hash_search k' (sys_shmem s) = Some e0 ->
            List.find (fun e => bool_decide (key e = k'))
              (drop_key (query_key (pid_of i) (plannedstmt qd))
                 (queryHashTable (sys_shmem s))) = Some e0) as Hothers.
  { intros k' e0 Hne He0. rewrite find_drop_key; [done|].
    unfold query_key. intros <-. done. }
  destruct o; unfold cleanup_on_return, cleanup_on_error; simpl;
    apply ledger_reschedule;
    (eapply ledger_move; [done|done| | | |]; simpl;
     [ done
     | split; simpl; [lia|done]
     | lia
     | unfold credit; simpl; lia ]).
Qed.

Lemma ledger_step i ev s s' :
  ledger_inv cap s ->
  system_step (H := SPEC) i ev s = Some s' ->
  step_registers (H := SPEC) i ev s = true ->
  ledger_inv cap s'.
Proof.
  intros Hinv Hs Hreg. apply system_step_inv in Hs as (p & w' & Hp & Hb & ->).
  destruct ev; simpl in Hb.
  - destruct p as [b c]. unfold is_idle in Hb. simpl in Hb.
    destruct c; try done.
    unfold step_registers, view in Hreg. rewrite Hp in Hreg. simpl in Hreg.
    apply (ledger_start i s b qd eflags); [done|done|].
    destruct (execution_start_entry _ _ _ _) as [[] w1];
      simpl in *; [by simplify_eq|discriminate].
  - by eapply ledger_poll_read.
  - by eapply ledger_poll_act.
  - by eapply ledger_lock_outer.
  - by eapply ledger_lock_inner.
  - unfold is_idle in Hb. simpl in Hb. destruct (pc p) eqn:Hpc; try done.
    simplify_eq. unfold commit, executor_run_enter. simpl.
    by apply ledger_private.
  - destruct p as [b c]. unfold is_idle in Hb. simpl in Hb.
    destruct c; try done. simplify_eq. by apply ledger_run_exit.
  - unfold is_idle in Hb. simpl in Hb. destruct (pc p) eqn:Hpc; try done.
    simplify_eq. unfold commit, process_utility_enter. simpl.
    by apply ledger_private.
  - unfold is_idle in Hb. simpl in Hb. destruct (pc p) eqn:Hpc; try done.
    simplify_eq. unfold commit, process_utility_exit. simpl.
    by apply ledger_private.
  - pose proof Hinv as (_ & _ & Hok). pose proof (Hok i _ Hp) as [Hfp _].
    unfold transaction_end in Hb. simpl in Hb.
    destruct (pc p) eqn:Hpc; try done; simplify_eq; unfold commit; simpl;
      (eapply ledger_same; [done|done|by split|]);
      unfold credit; simpl; by rewrite Hpc.
Qed.

Lemma ledger_trace tr s s' :
  ledger_inv cap s ->
  run_trace (H := SPEC) tr s = Some s' ->
  no_refusal (H := SPEC) tr s ->
  ledger_inv cap s'.
Proof.
  revert s. induction tr as [|[i ev] tr IH]; intros s Hinv Hrun Hno; simpl in *.
  - by simplify_eq.
  - destruct Hno as [Hreg Hno].
    destruct (system_step i ev s) as [s1|] eqn:Hs; simpl in Hrun; [|done].
    eapply IH; [|done|done]. by eapply ledger_step.
Qed.

Lemma ledger_initial dbs : ledger_inv cap (initial_system dbs).
Proof.
  unfold ledger_inv, initial_system. simpl.
  split; [lia|].
  assert (∀ i p,
            List.map (fun db => mkProc (fresh_backend db) PcIdle) dbs !! i = Some p ->
            p = mkProc (fresh_backend (MyDatabaseId (priv p))) PcIdle) as Hfresh.
  { induction dbs as [|db dbs IH]; intros i p Hp; [done|].
    destruct i as [|i]; simpl in Hp; [by simplify_eq|]. by apply (IH i). }
  split.
  - induction dbs as [|db dbs IH]; simpl; [lia|].
    unfold credit at 1. simpl.
    assert (credits initial_shmem (List.map (fun db => mkProc (fresh_backend db) PcIdle) dbs) <= 0);
      [|lia].
    apply IH. intros i p Hp. by apply (Hfresh (S i)).
  - intros i p Hp. rewrite (Hfresh i p Hp). split; simpl; [lia|done].
Qed.


End Ledger.

(** * Further properties of the hooks *)

Lemma int_decr_incr z : INT_MIN <= z <= INT_MAX -> int_decr (int_incr z) = z.
Proof.
  intros Hz. destruct (decide (z = INT_MAX)) as [->|Hne]; [by vm_compute|].
  rewrite int_incr_exact by lia.
  rewrite int_decr_exact by (unfold INT_MIN, INT_MAX in *; lia). lia.
Qed.

Section RunNesting.
Context `{Collaborators}.

Lemma executor_run_exit_nesting_level me qd o w :
  nesting_level (priv (proc (executor_run_exit me qd o w)))
  = int_decr (nesting_level (priv (proc w))).
Proof. unfold executor_run_exit. by destruct (executor_run_cleans _ _). Qed.

(** X1: [pg_hook_executor_run] leaves [nesting_level] as it found it,
    whether the wrapped run returns or raises, provided the wrapped run
    itself hands the level back as it got it; this holds at every value
    of the C [int], the largest included. *)
Theorem executor_run_restores_nesting_level me qd std w :
  INT_MIN <= nesting_level (priv (proc w)) <= INT_MAX ->
  nesting_level (priv (proc (std (executor_run_enter w)).2))
  = nesting_level (priv (proc (executor_run_enter w))) ->
  nesting_level (priv (proc (pg_hook_executor_run me qd std w).2))
  = nesting_level (priv (proc w)).
Proof.
  intros Hz Hbal. unfold pg_hook_executor_run.
  destruct (std (executor_run_enter w)) as [o w1]. simpl in *.
  rewrite executor_run_exit_nesting_level, Hbal. simpl.
  by apply int_decr_incr.
Qed.

(** X2: a run of the executor that begins inside another run (the level
    is at least one when the hook is called) does no cleanup when it
    ends, by return or by error: the shared segment, the lock table and
    [full_process] are as the wrapped run left them. *)
Theorem nested_run_does_not_clean_up me qd std w :
  1 <= nesting_level (priv (proc w)) < INT_MAX ->
  nesting_level (priv (proc (std (executor_run_enter w)).2))
  = nesting_level (priv (proc (executor_run_enter w))) ->
  shmem (pg_hook_executor_run me qd std w).2 = shmem (std (executor_run_enter w)).2
  ∧ locktable (pg_hook_executor_run me qd std w).2
    = locktable (std (executor_run_enter w)).2
  ∧ full_process (priv (proc (pg_hook_executor_run me qd std w).2))
    = full_process (priv (proc (std (executor_run_enter w)).2)).
Proof.
  intros Hz Hbal. unfold pg_hook_executor_run.
  destruct (std (executor_run_enter w)) as [o w1]. simpl in *.
  unfold executor_run_exit.
  assert (executor_run_cleans
            (set_nesting_level (int_decr (nesting_level (priv (proc w1))))
                               (priv (proc w1))) qd = false) as ->; [|done].
  unfold executor_run_cleans, enable_enforce. simpl.
  rewrite Hbal, int_decr_incr by (unfold INT_MIN; lia).
  rewrite (bool_decide_eq_false_2 (_ = 0)) by lia.
  by rewrite !andb_false_r.
Qed.

(** X3: the cleanup of the error path decrements the counter before it
    removes the record and the cleanup of the normal path after; when
    [RemoveLoggedQuery] neither reads nor writes the counter, the two
    leave the shared segment in the same state. *)
Theorem cleanup_paths_agree me qd s :
  (∀ r s', RemoveLoggedQuery me qd (set_runningQuery r s')
           = set_runningQuery r (RemoveLoggedQuery me qd s')) ->
  (∀ s', runningQuery (RemoveLoggedQuery me qd s') = runningQuery s') ->
  cleanup_on_error me qd s = cleanup_on_return me qd s.
Proof.
  intros Hcomm Hkeep. unfold cleanup_on_error, cleanup_on_return.
  by rewrite Hcomm, Hkeep.
Qed.

(** X4: [isUtility] is a flag, not a depth.  When a utility command
    runs a second utility command inside it, the flag is cleared as the
    inner command returns, and a statement that the outer command
    starts afterwards at level zero goes into the enforced part of
    [pg_hook_execution_start]: [full_process] is incremented. *)
Theorem utility_flag_is_not_nested me qd eflags inner w w1 :
  inner (process_utility_enter (process_utility_enter w)) = (Returned, w1) ->
  sourceText qd ≠ EmptyString ->
  Z.land eflags (Z.lor EXEC_FLAG_EXPLAIN_GENERIC EXEC_FLAG_EXPLAIN_ONLY) = 0 ->
  IsParallelWorker (priv (proc w1)) = false ->
  nesting_level (priv (proc w1)) = 0 ->
  full_process
    (priv (proc (nested_utility inner (execution_start_entry me qd eflags) w).2))
  = int_incr (full_process (priv (proc w1))).
Proof.
  intros Hin Htext Hflags Hpar Hlevel.
  unfold nested_utility, pg_hook_process_utility. rewrite Hin.
  unfold execution_start_entry.
  assert (execution_start_skips (priv (proc (process_utility_exit w1))) qd eflags
          = false) as ->.
  { unfold execution_start_skips, enable_enforce. simpl.
    unfold IsParallelWorker in *. simpl. rewrite Hpar, Hlevel, Hflags.
    by rewrite bool_decide_eq_false_2. }
  by destruct (LogQuery _ _ _ _) as [[k s1]|].
Qed.

End RunNesting.

Lemma executor_run_restores_nesting_level_witness :
  nesting_level (priv (proc (pg_hook_executor_run (H := sample) 1%N sample_qB
                               sample_raise sample_world_B).2))
  = nesting_level (priv (proc sample_world_B)).
Proof.
  apply (executor_run_restores_nesting_level (H := sample)).
  - vm_compute. split; discriminate.
  - reflexivity.
Defined.

Lemma nested_run_does_not_clean_up_witness :
  shmem (pg_hook_executor_run (H := sample) 1%N sample_qB sample_raise
           (executor_run_enter sample_world_B)).2
  = shmem sample_world_B.
Proof.
  pose proof (nested_run_does_not_clean_up (H := sample) 1%N sample_qB sample_raise
                (executor_run_enter sample_world_B)) as Hall.
  destruct Hall as [Hs _].
  - vm_compute. split; [discriminate|reflexivity].
  - reflexivity.
  - exact Hs.
Defined.

Lemma cleanup_paths_agree_witness :
  cleanup_on_error (H := sample) 1%N sample_qB (shmem sample_world_B)
  = cleanup_on_return (H := sample) 1%N sample_qB (shmem sample_world_B).
Proof.
  apply (cleanup_paths_agree (H := sample)).
  - intros r s'. reflexivity.
  - intros s'. reflexivity.
Defined.

Lemma utility_flag_is_not_nested_witness :
  full_process
    (priv (proc (nested_utility (H := sample) (fun w => (Returned, w))
                   (execution_start_entry (H := sample) 0%N sample_qD 0)
                   sample_idle_world).2))
  = 1.
Proof.
  apply (utility_flag_is_not_nested (H := sample) 0%N sample_qD 0
           (fun w => (Returned, w)) sample_idle_world
           (process_utility_enter (process_utility_enter sample_idle_world)));
    [reflexivity | discriminate | reflexivity | reflexivity | reflexivity].
Defined.

Section LockLoopsEnd.
Context `{Collaborators}.

Lemma turns_from_pos aff i n : (1 <= turns_from aff i n)%nat.
Proof. destruct n; simpl; lia. Qed.

Lemma run_lock_loops_outside me grants fuel w :
  in_lock_loops (pc (proc w)) = false -> run_lock_loops me grants fuel w = w.
Proof.
  intros Hout. destruct fuel as [|fuel]; [done|]. simpl.
  unfold lock_loops_turn. by destruct (pc (proc w)).
Qed.

(** One turn inside the loops either leaves them, by return, by
    retreat or by an error, or stays inside with fewer turns left and
    the shared segment untouched. *)
Lemma lock_loops_turn_progress me grant w k e :
  in_lock_loops (pc (proc w)) = true ->
  pc_key (pc (proc w)) = Some k ->
  hash_search k (shmem w) = Some e ->
  ∃ w', lock_loops_turn me grant w = Some w'
        ∧ (pc (proc w') = PcIdle ∨ pc (proc w') = PcWaiting k
           ∨ pc (proc w') = PcRaised
           ∨ (in_lock_loops (pc (proc w')) = true
              ∧ pc_key (pc (proc w')) = Some k
              ∧ shmem w' = shmem w
              ∧ (turns_left (affected_tables e) (pc (proc w'))
                 < turns_left (affected_tables e) (pc (proc w)))%nat)).
Proof.
  intros Hin Hkey He. unfold lock_loops_turn.
  destruct (pc (proc w)) as [|?|? ? ?|k' newly i|k' newly i r j|] eqn:Hpc;
    try done; simpl in Hkey; simplify_eq.
  - unfold lock_outer. rewrite Hpc, He. simpl.
    destruct (decide (i < MAX_AFFECTED_TABLE)%nat) as [Hi|Hi].
    + rewrite (bool_decide_eq_true_2 _ Hi). simpl.
      destruct (default InvalidOid (affected_tables e !! i) =? 0)%N eqn:Hz; simpl.
      { eexists; split; [done|]. by left. }
      assert (MAX_AFFECTED_TABLE - i = S (MAX_AFFECTED_TABLE - S i))%nat as Hn by lia.
      destruct (getRefrenceImmv (default InvalidOid (affected_tables e !! i)))
        as [r|] eqn:Hr.
      * eexists; split; [done|]. do 3 right. simpl.
        repeat split; try done. rewrite Hn. simpl.
        unfold refed_num, affected_at. rewrite Hr. lia.
      * eexists; split; [done|]. do 3 right. simpl.
        repeat split; try done. rewrite Hn. simpl. lia.
    + rewrite (bool_decide_eq_false_2 _ Hi). simpl.
      eexists; split; [done|]. by left.
  - unfold lock_inner. rewrite Hpc.
    destruct (decide (j < refed_table_num r)%nat) as [Hj|Hj].
    + rewrite (bool_decide_eq_true_2 _ Hj).
      destruct (LockHeldByMe _ _ _).
      { eexists; split; [done|]. do 3 right. simpl.
        repeat split; try done. lia. }
      destruct (ConditionalLockRelationOid _ _ _ _ _) as [[] lt1].
      * destruct (bms_add_member _ _).
        -- eexists; split; [done|]. do 3 right. simpl.
           repeat split; try done. lia.
        -- eexists; split; [done|]. right; right; left. done.
      * eexists; split; [done|]. right; left. done.
    + rewrite (bool_decide_eq_false_2 _ Hj).
      eexists; split; [done|]. do 3 right. simpl.
      repeat split; try done. lia.
Qed.

Lemma run_lock_loops_ends me grants fuel : ∀ w k e,
  in_lock_loops (pc (proc w)) = true ->
  pc_key (pc (proc w)) = Some k ->
  hash_search k (shmem w) = Some e ->
  (turns_left (affected_tables e) (pc (proc w)) <= fuel)%nat ->
  pc (proc (run_lock_loops me grants fuel w)) = PcIdle
  ∨ pc (proc (run_lock_loops me grants fuel w)) = PcWaiting k
  ∨ pc (proc (run_lock_loops me grants fuel w)) = PcRaised.
Proof.
  induction fuel as [|fuel IH]; intros w k e Hin Hkey He Hfuel.
  - exfalso.
    destruct (pc (proc w)) as [| | |k' newly i|k' newly i r j|]; try done;
      simpl in Hfuel.
    + pose proof (turns_from_pos (affected_tables e) i (MAX_AFFECTED_TABLE - i)). lia.
    + lia.
  - simpl.
    destruct (lock_loops_turn_progress me (grants fuel) w k e Hin Hkey He)
      as (w' & Hturn & [Hidle|[Hwait|[Hraised|(Hin' & Hkey' & Hsh & Hlt)]]]);
      rewrite Hturn.
    + rewrite run_lock_loops_outside by (by rewrite Hidle). by left.
    + rewrite run_lock_loops_outside by (by rewrite Hwait). right. by left.
    + rewrite run_lock_loops_outside by (by rewrite Hraised). right. by right.
    + apply (IH w' k e); try done; [by rewrite Hsh | lia].
Qed.

(** X5: the two loops of [pg_hook_execution_start] always end.  From
    [newlyLocked = NULL] and whatever the lock manager answers, after at
    most [lock_loops_bound] turns (one per test of a loop) the backend
    has returned from the hook, or retreated to the label [waiting], or
    left the hook by the error that [bms_add_member] raises for an OID
    from [2^31] on; it never stays inside the loops. *)
Theorem lock_loops_end me grants fuel w k e :
  pc (proc w) = PcLockOuter k [] 0 ->
  hash_search k (shmem w) = Some e ->
  (lock_loops_bound (affected_tables e) <= fuel)%nat ->
  pc (proc (run_lock_loops me grants fuel w)) = PcIdle
  ∨ pc (proc (run_lock_loops me grants fuel w)) = PcWaiting k
  ∨ pc (proc (run_lock_loops me grants fuel w)) = PcRaised.
Proof.
  intros Hpc He Hfuel. apply (run_lock_loops_ends me grants fuel w k e); try done.
  - by rewrite Hpc.
  - by rewrite Hpc.
  - rewrite Hpc. simpl. by rewrite Nat.sub_0_r.
Qed.

(** X6: two backends build the same lock tag for two relations exactly
    when the relations are the same and either the relation is shared
    or the backends are in the same database: backends of different
    databases contend for a shared relation and never for a private
    one. *)
Theorem locktag_shared_across_databases b1 b2 relid1 relid2 :
  SetLocktagRelationOid b1 relid1 = SetLocktagRelationOid b2 relid2
  <-> relid1 = relid2
      ∧ (IsSharedRelation relid1 = true ∨ MyDatabaseId b1 = MyDatabaseId b2).
Proof.
  unfold SetLocktagRelationOid, SET_LOCKTAG_RELATION. split.
  - intros Heq. injection Heq as Hdb ->. split; [done|].
    destruct (IsSharedRelation relid2); [by left | by right].
  - intros [-> Hor]. destruct (IsSharedRelation relid2); [done|].
    destruct Hor as [? | ->]; done.
Qed.

(** *** [getLocksHeldByMe] *)

Lemma string_app_empty (s t : string) :
  s +:+ t = EmptyString -> s = EmptyString ∧ t = EmptyString.
Proof. by destruct s. Qed.

Lemma getLocksHeldByMe_fold_empty (held : nat -> bool) (show : nat -> string) l : ∀ acc,
  fold_left (fun info i => if held i then info +:+ show i +:+ " " else info) l acc
  = EmptyString
  <-> acc = EmptyString ∧ ∀ i, i ∈ l -> held i = false.
Proof.
  induction l as [|i l IH]; intros acc; simpl.
  - split; [intros ->; split; [done|] | by intros [-> _]].
    intros i Hi. by apply elem_of_nil in Hi.
  - rewrite IH. split.
    + intros [Hacc Hall]. destruct (held i) eqn:Hi.
      * apply string_app_empty in Hacc as [_ Hacc].
        by apply string_app_empty in Hacc as [_ Hacc].
      * split; [done|]. intros i' [->|Hi']%elem_of_cons; [done | by apply Hall].
    + intros [-> Hall]. rewrite (Hall i) by apply list_elem_of_here.
      split; [done|]. intros i' Hi'. apply Hall. by apply list_elem_of_further.
Qed.

(** X7: the string [getLocksHeldByMe] builds is empty exactly when the
    backend holds [ExclusiveLock] on none of the first [immv_count]
    entries of [all_immvs]. *)
Theorem getLocksHeldByMe_empty me b all_immvs immv_count lt :
  getLocksHeldByMe me b all_immvs immv_count lt = EmptyString
  <-> ∀ i, (i < immv_count)%nat ->
        LockHeldByMe me (SetLocktagRelationOid b (default InvalidOid (all_immvs !! i))) lt
        = false.
Proof.
  unfold getLocksHeldByMe.
  rewrite (getLocksHeldByMe_fold_empty
             (fun i => LockHeldByMe me
                         (SetLocktagRelationOid b (default InvalidOid (all_immvs !! i))) lt)
             (fun i => pretty (int_wrap (Z.of_N (default InvalidOid (all_immvs !! i)))))).
  split.
  - intros [_ Hall] i Hi. apply Hall. apply elem_of_seq. lia.
  - intros Hall. split; [done|]. intros i Hi%elem_of_seq. apply Hall. lia.
Qed.

Lemma getLocksHeldByMe_ext me b all_immvs immv_count lt lt' :
  (∀ i, (i < immv_count)%nat ->
        LockHeldByMe me (SetLocktagRelationOid b (default InvalidOid (all_immvs !! i))) lt'
        = LockHeldByMe me (SetLocktagRelationOid b (default InvalidOid (all_immvs !! i))) lt) ->
  getLocksHeldByMe me b all_immvs immv_count lt'
  = getLocksHeldByMe me b all_immvs immv_count lt.
Proof.
  unfold getLocksHeldByMe. intros Hagree.
  assert (∀ i, i ∈ seq 0 immv_count -> (i < immv_count)%nat) as Hseq.
  { intros i Hi%elem_of_seq. lia. }
  revert Hseq. generalize (seq 0 immv_count). intros l.
  generalize EmptyString at 2 4.
  induction l as [|i l IH]; intros acc Hseq; [done|]. simpl.
  rewrite Hagree by (apply Hseq, list_elem_of_here).
  apply IH. intros i' Hi'. apply Hseq. by apply list_elem_of_further.
Qed.

(** X8: [getLocksHeldByMe] reports locks on the entries of [all_immvs]
    only.  Taking the lock of a relation that is none of the first
    [immv_count] entries, as the loops do for a base table that is not
    itself an IMMV, leaves the string as it was. *)
Theorem getLocksHeldByMe_ignores_other_relations me b all_immvs immv_count relid
    grant lt :
  (∀ i, (i < immv_count)%nat -> default InvalidOid (all_immvs !! i) ≠ relid) ->
  getLocksHeldByMe me b all_immvs immv_count
    (ConditionalLockRelationOid me b relid grant lt).2
  = getLocksHeldByMe me b all_immvs immv_count lt.
Proof.
  intros Hother. apply getLocksHeldByMe_ext. intros i Hi.
  rewrite !LockHeldByMe_my_count. unfold ConditionalLockRelationOid.
  destruct (LockAcquireConditional me (SetLocktagRelationOid b relid) grant lt)
    as [[] lt1] eqn:Ha; simpl.
  - rewrite (my_count_acquire _ _ _ _ _ _ Ha).
    destruct (decide _) as [Heq|]; [|done].
    apply SetLocktagRelationOid_inj in Heq. by destruct (Hother i Hi).
  - unfold LockAcquireConditional in Ha.
    destruct (lt !! _) as [[p n]|]; [destruct (bool_decide _)|destruct grant];
      by simplify_eq.
Qed.

(** X9: the hooks of one backend never change what another backend
    holds: along any run in which backend [i] takes no turn, its private
    variables, its place in the hook and the number of times it holds
    each lock stay as they are. *)
Theorem other_backends_locks_untouched i tr : ∀ s s' tag,
  run_trace tr s = Some s' ->
  Forall (fun je => je.1 ≠ i) tr ->
  procs s' !! i = procs s !! i
  ∧ my_count (pid_of i) tag (sys_locks s') = my_count (pid_of i) tag (sys_locks s).
Proof.
  induction tr as [|[j ev] tr IH]; intros s s' tag Hrun Hall; simpl in Hrun.
  - by simplify_eq.
  - destruct (system_step j ev s) as [s1|] eqn:Hstep; [|done]. simpl in Hrun.
    apply Forall_cons in Hall as [Hj Hall]. simpl in Hj.
    destruct (system_step_other i j ev s s1 tag Hstep Hj) as [Hp Hc].
    destruct (IH s1 s' tag Hrun Hall) as [Hp' Hc'].
    split; congruence.
Qed.

End LockLoopsEnd.

Lemma lock_loops_end_witness :
  pc (proc (run_lock_loops (H := sample) 1%N (fun _ => true) 13
              (with_pc (PcLockOuter sample_keyB [] 0) sample_world_B)))
  = PcIdle
  ∨ pc (proc (run_lock_loops (H := sample) 1%N (fun _ => true) 13
                (with_pc (PcLockOuter sample_keyB [] 0) sample_world_B)))
    = PcWaiting sample_keyB
  ∨ pc (proc (run_lock_loops (H := sample) 1%N (fun _ => true) 13
                (with_pc (PcLockOuter sample_keyB [] 0) sample_world_B)))
    = PcRaised.
Proof.
  apply (lock_loops_end (H := sample) 1%N (fun _ => true) 13
           (with_pc (PcLockOuter sample_keyB [] 0) sample_world_B) sample_keyB
           (mkEntry sample_keyB QUERY_AVAILABLE [200%N] 1%N 1%N)).
  - reflexivity.
  - vm_compute. reflexivity.
  - vm_compute. lia.
Defined.

Lemma getLocksHeldByMe_ignores_other_relations_witness :
  getLocksHeldByMe (H := sample) 1%N sample_backend [100; 200; 300]%N 3
    (ConditionalLockRelationOid (H := sample) 1%N sample_backend 8%N true ∅).2
  = getLocksHeldByMe (H := sample) 1%N sample_backend [100; 200; 300]%N 3 ∅.
Proof.
  apply (getLocksHeldByMe_ignores_other_relations (H := sample)).
  intros i Hi. destruct i as [|[|[|i]]]; simpl; [discriminate..|lia].
Defined.

Lemma other_backends_locks_untouched_witness :
  procs sample_C_past !! 1%nat = procs sample_C_at_pass !! 1%nat
  ∧ my_count (pid_of 1) (SetLocktagRelationOid (H := sample) sample_backend 8%N)
      (sys_locks sample_C_past)
    = my_count (pid_of 1) (SetLocktagRelationOid (H := sample) sample_backend 8%N)
        (sys_locks sample_C_at_pass).
Proof.
  apply (other_backends_locks_untouched (H := sample) 1 (sample_locks_one_table 0)).
  - vm_compute. reflexivity.
  - repeat constructor; simpl; lia.
Defined.


(** * The name and column list of [create_immv] *)

Lemma in_quote_after_cons q c s :
  in_quote_after q (c :: s)
  = in_quote_after (if Ascii.eqb c DQUOTE then negb q else q) s.
Proof. done. Qed.

Lemma scan_left_paren_not_found s : ∀ q,
  (∀ pre post, s = pre ++ LPAREN :: post -> in_quote_after q pre = true) ->
  scan_left_paren q s = (s, None).
Proof.
  induction s as [|c s IH]; intros q Hq; [done|]. simpl.
  destruct (Ascii.eqb c DQUOTE) eqn:Hc.
  - rewrite IH; [done|]. intros pre post ->.
    specialize (Hq (c :: pre) post eq_refl).
    by rewrite in_quote_after_cons, Hc in Hq.
  - destruct (Ascii.eqb c LPAREN) eqn:Hp; simpl.
    + apply Ascii.eqb_eq in Hp as ->.
      pose proof (Hq [] s eq_refl) as Hq0. simpl in Hq0. subst q. simpl.
      rewrite IH; [done|]. intros pre post ->.
      specialize (Hq (LPAREN :: pre) post eq_refl).
      by rewrite in_quote_after_cons in Hq.
    + rewrite IH; [done|]. intros pre post ->.
      specialize (Hq (c :: pre) post eq_refl).
      by rewrite in_quote_after_cons, Hc in Hq.
Qed.

Lemma scan_left_paren_found rawname ptr : ∀ q,
  in_quote_after q rawname = false ->
  (∀ pre post, rawname = pre ++ LPAREN :: post -> in_quote_after q pre = true) ->
  scan_left_paren q (rawname ++ LPAREN :: ptr) = (rawname, Some ptr).
Proof.
  induction rawname as [|c s IH]; intros q Hend Hq; simpl.
  - simpl in Hend. by subst q.
  - rewrite in_quote_after_cons in Hend.
    destruct (Ascii.eqb c DQUOTE) eqn:Hc.
    + rewrite IH; [done..|]. intros pre post ->.
      specialize (Hq (c :: pre) post eq_refl).
      by rewrite in_quote_after_cons, Hc in Hq.
    + destruct (Ascii.eqb c LPAREN) eqn:Hp; simpl.
      * apply Ascii.eqb_eq in Hp as ->.
        pose proof (Hq [] s eq_refl) as Hq0. simpl in Hq0. subst q. simpl.
        rewrite IH; [done..|]. intros pre post ->.
        specialize (Hq (LPAREN :: pre) post eq_refl).
        by rewrite in_quote_after_cons in Hq.
      * rewrite IH; [done..|]. intros pre post ->.
        specialize (Hq (c :: pre) post eq_refl).
        by rewrite in_quote_after_cons, Hc in Hq.
Qed.

Lemma scan_left_paren_split s : ∀ q rawname ptr,
  scan_left_paren q s = (rawname, Some ptr) ->
  s = rawname ++ LPAREN :: ptr
  ∧ in_quote_after q rawname = false
  ∧ ∀ pre post, rawname = pre ++ LPAREN :: post -> in_quote_after q pre = true.
Proof.
  induction s as [|c s IH]; intros q rawname ptr Hscan; [done|]. simpl in Hscan.
  destruct (Ascii.eqb c DQUOTE) eqn:Hc.
  - destruct (scan_left_paren (negb q) s) as [n r] eqn:Hs. simplify_eq.
    destruct (IH _ _ _ Hs) as (-> & Hend & Hq).
    rewrite in_quote_after_cons, Hc. repeat split; [done|].
    intros [|c' pre] post Heq; simpl in Heq; injection Heq as -> ->.
    + by vm_compute in Hc.
    + rewrite in_quote_after_cons, Hc. by eapply Hq.
  - destruct (Ascii.eqb c LPAREN && negb q) eqn:Hp.
    + apply andb_true_iff in Hp as [->%Ascii.eqb_eq Hq%negb_true_iff]. simplify_eq.
      split; [done|]. split; [done|]. by intros [|? ?] post Heq.
    + destruct (scan_left_paren q s) as [n r] eqn:Hs. simplify_eq.
      destruct (IH _ _ _ Hs) as (-> & Hend & Hq).
      rewrite in_quote_after_cons, Hc. repeat split; [done|].
      intros [|c' pre] post Heq; simpl in Heq; injection Heq as -> ->.
      * rewrite Ascii.eqb_refl in Hp. simpl in Hp. by apply negb_false_iff in Hp.
      * rewrite in_quote_after_cons, Hc. by eapply Hq.
Qed.

Lemma scan_left_paren_none s : ∀ q rawname,
  scan_left_paren q s = (rawname, None) ->
  ∀ pre post, s = pre ++ LPAREN :: post -> in_quote_after q pre = true.
Proof.
  induction s as [|c s IH]; intros q rawname Hscan pre post Heq.
  { by destruct pre. }
  simpl in Hscan. destruct (Ascii.eqb c DQUOTE) eqn:Hc.
  - destruct (scan_left_paren (negb q) s) as [n r] eqn:Hs.
    injection Hscan as <- ->.
    destruct pre as [|c' pre]; simpl in Heq; injection Heq as -> ->.
    + by vm_compute in Hc.
    + rewrite in_quote_after_cons, Hc. by eapply IH.
  - destruct (Ascii.eqb c LPAREN && negb q) eqn:Hp; [done|].
    destruct (scan_left_paren q s) as [n r] eqn:Hs.
    injection Hscan as <- ->.
    destruct pre as [|c' pre]; simpl in Heq; injection Heq as -> ->.
    + rewrite Ascii.eqb_refl in Hp. simpl in Hp. by apply negb_false_iff in Hp.
    + rewrite in_quote_after_cons, Hc. by eapply IH.
Qed.

(** X11: the scan for the left parenthesis cuts the string at the first
    left parenthesis that stands outside double quotes: it answers
    [rawname] and the rest [ptr] exactly when the string is [rawname],
    the parenthesis, [ptr], the quotes of [rawname] are closed, and
    every left parenthesis of [rawname] stands inside quotes. *)
Theorem scan_left_paren_first_unquoted s rawname ptr :
  scan_left_paren false s = (rawname, Some ptr)
  <-> s = rawname ++ LPAREN :: ptr
      ∧ in_quote_after false rawname = false
      ∧ ∀ pre post, rawname = pre ++ LPAREN :: post -> in_quote_after false pre = true.
Proof.
  split.
  - apply scan_left_paren_split.
  - intros (-> & Hend & Hq). by apply scan_left_paren_found.
Qed.

Section NameAndColumnsProperties.
Variable stringToQualifiedNameList : cstring -> option (list cstring).
Variable scanner_isspace : Ascii.ascii -> bool.
Variable SplitIdentifierString : cstring -> option (list cstring).

Local Abbreviation parse :=
  (parseNameAndColumns stringToQualifiedNameList scanner_isspace SplitIdentifierString).

(** X12: a string in which every left parenthesis stands inside double
    quotes (a quote left open counts) has no column list: the whole
    string goes to [stringToQualifiedNameList] and [colNames] comes back
    as it was given. *)
Theorem no_unquoted_paren_no_columns str colNames :
  (∀ pre post, str = pre ++ LPAREN :: post -> in_quote_after false pre = true) ->
  parse str colNames
  = match stringToQualifiedNameList str with
    | None => inl NAME_LIST_RAISED
    | Some names => inr (names, colNames)
    end.
Proof.
  intros Hq. unfold parseNameAndColumns.
  rewrite (scan_left_paren_not_found str false Hq).
  by destruct (stringToQualifiedNameList str).
Qed.

(** Where the backward scan stops: every character behind that place is
    a space. *)
Lemma scan_right_paren_spaces ptr : ∀ n i,
  (scan_right_paren scanner_isspace ptr n <= n)%nat
  ∧ ((scan_right_paren scanner_isspace ptr n < i <= n)%nat ->
     scanner_isspace (nth i ptr NUL) = true).
Proof.
  induction n as [|n IH]; intros i; simpl; [split; lia|].
  destruct (scanner_isspace (nth (S n) ptr NUL)) eqn:Hsp; [|split; lia].
  destruct (IH i) as [Hle Hsp']. split; [lia|]. intros Hi.
  destruct (decide (i = S n)) as [->|Hne]; [done|]. apply Hsp'. lia.
Qed.

Lemma scan_right_paren_stops cols ws : ∀ n,
  scanner_isspace RPAREN = false ->
  Forall (fun c => scanner_isspace c = true) ws ->
  (n < length ws + 1)%nat ->
  scan_right_paren scanner_isspace (cols ++ RPAREN :: ws) (length cols + n) = length cols.
Proof.
  intros n Hrp Hws. induction n as [|n IH]; intros Hn.
  - rewrite Nat.add_0_r. destruct (length cols) as [|m] eqn:Hm; [done|]. simpl.
    rewrite <- Hm.
    replace (nth (length cols) (cols ++ RPAREN :: ws) NUL) with RPAREN.
    + by rewrite Hrp.
    + rewrite app_nth2 by lia. by rewrite Nat.sub_diag.
  - rewrite Nat.add_succ_r. simpl.
    rewrite app_nth2 by lia.
    replace (S (length cols + n) - length cols)%nat with (S n) by lia. simpl.
    assert (scanner_isspace (nth n ws NUL) = true) as ->.
    { rewrite Forall_forall in Hws. apply Hws, list_elem_of_In, nth_In. lia. }
    apply IH. lia.
Qed.

(** X13: what follows the left parenthesis is accepted when it is a
    column text, a right parenthesis, and nothing but space after it:
    the space and the parenthesis are dropped, the column text goes to
    [SplitIdentifierString], and the columns are appended to [colNames]
    in order; a column text that does not split, or splits into no
    name, is an error. *)
Theorem columns_accepted str colNames rawname names cols ws :
  scanner_isspace RPAREN = false ->
  scan_left_paren false str = (rawname, Some (cols ++ RPAREN :: ws)) ->
  Forall (fun c => scanner_isspace c = true) ws ->
  stringToQualifiedNameList rawname = Some names ->
  parse str colNames
  = match SplitIdentifierString cols with
    | None => inl INVALID_NAME_SYNTAX
    | Some l =>
        if (length l =? 0)%nat then inl NO_COLUMN_NAME else inr (names, colNames ++ l)
    end.
Proof.
  intros Hrp Hscan Hws Hname. unfold parseNameAndColumns.
  rewrite Hscan, Hname.
  destruct (length (cols ++ RPAREN :: ws)) as [|n] eqn:Hlen.
  { rewrite length_app in Hlen. simpl in Hlen. lia. }
  rewrite length_app in Hlen. simpl in Hlen.
  replace n with (length cols + length ws)%nat by lia.
  rewrite (scan_right_paren_stops cols ws (length ws) Hrp Hws) by lia.
  rewrite app_nth2 by lia. rewrite Nat.sub_diag. simpl.
  rewrite take_app_length. done.
Qed.

(** X14: when what follows the left parenthesis is not of that form (it
    is empty, or its last character that is not a space is no right
    parenthesis), the function raises "expected a right parenthesis",
    before the column text is looked at. *)
Theorem columns_rejected str colNames rawname names ptr :
  scan_left_paren false str = (rawname, Some ptr) ->
  stringToQualifiedNameList rawname = Some names ->
  (∀ cols ws, ptr = cols ++ RPAREN :: ws ->
              Exists (fun c => scanner_isspace c = false) ws) ->
  parse str colNames = inl EXPECTED_RIGHT_PARENTHESIS.
Proof.
  intros Hscan Hname Hform. unfold parseNameAndColumns.
  rewrite Hscan, Hname.
  destruct (length ptr) as [|n] eqn:Hlen; [done|].
  destruct (Ascii.eqb (nth (scan_right_paren scanner_isspace ptr n) ptr NUL) RPAREN)
    eqn:Hrp; [|done].
  exfalso. apply Ascii.eqb_eq in Hrp.
  set (p := scan_right_paren scanner_isspace ptr n) in *.
  assert (p <= n)%nat as Hp by apply (scan_right_paren_spaces ptr n 0).
  assert (ptr !! p = Some RPAREN) as Hat.
  { destruct (lookup_lt_is_Some_2 ptr p) as [c Hc]; [lia|].
    by rewrite (nth_lookup_Some _ _ NUL _ Hc) in Hrp; subst c. }
  apply take_drop_middle in Hat as Hsplit.
  apply eq_sym, Hform, Exists_exists in Hsplit as (c & Hc & Hsp).
  apply list_elem_of_lookup in Hc as [j Hj]. rewrite lookup_drop in Hj.
  assert (S p + j < length ptr)%nat as Hlt by (by eapply lookup_lt_Some).
  destruct (scan_right_paren_spaces ptr n (S p + j)) as [_ Hspace].
  rewrite (nth_lookup_Some _ _ NUL _ Hj) in Hspace.
  rewrite Hspace in Hsp; [done|]. fold p. lia.
Qed.

End NameAndColumnsProperties.

Lemma no_unquoted_paren_no_columns_witness :
  parseNameAndColumns sample_name_list sample_isspace sample_split sample_quoted_name []
  = inr ([sample_quoted_name], []).
Proof.
  apply (no_unquoted_paren_no_columns sample_name_list sample_isspace sample_split).
  apply (scan_left_paren_none sample_quoted_name false sample_quoted_name).
  reflexivity.
Defined.

Lemma columns_accepted_witness :
  sample_parse "t(a, b)  "
  = inr ([String.list_ascii_of_string "t"], [String.list_ascii_of_string "a, b"]).
Proof.
  apply (columns_accepted sample_name_list sample_isspace sample_split
           (String.list_ascii_of_string "t(a, b)  ") [] (String.list_ascii_of_string "t")
           [String.list_ascii_of_string "t"] (String.list_ascii_of_string "a, b")
           (String.list_ascii_of_string "  ")).
  - reflexivity.
  - reflexivity.
  - repeat constructor.
  - reflexivity.
Defined.

Lemma columns_rejected_witness :
  sample_parse "t(a) b" = inl EXPECTED_RIGHT_PARENTHESIS.
Proof.
  apply (columns_rejected sample_name_list sample_isspace sample_split
           (String.list_ascii_of_string "t(a) b") [] (String.list_ascii_of_string "t")
           [String.list_ascii_of_string "t"] (String.list_ascii_of_string "a) b")).
  - reflexivity.
  - reflexivity.
  - intros cols ws Heq.
    destruct cols as [|? cols]; [discriminate Heq|injection Heq as <- Heq].
    destruct cols as [|? cols]; [injection Heq as <-|injection Heq as <- Heq].
    + apply Exists_cons_tl, Exists_cons_hd. reflexivity.
    + do 2 (destruct cols as [|? cols]; [discriminate Heq|]; injection Heq as <- Heq).
      by destruct cols.
Defined.

(** * The catalog [pg_ivm_immv] *)

Lemma OidIsValid_ne (objectId : Oid) : OidIsValid objectId = true <-> objectId ≠ InvalidOid.
Proof.
  unfold OidIsValid. rewrite negb_true_iff. apply N.eqb_neq.
Qed.

(** X15: the two OIDs are looked up once.  After a call that returned a
    valid OID every later call returns the same OID and leaves the
    static variables alone, whatever the catalog has become: the entry
    is never looked up again, not even when the relation is gone. *)
Theorem cached_ids_are_never_refreshed cat cat' st :
  (OidIsValid (PgIvmImmvRelationId cat st).1 = true ->
   PgIvmImmvRelationId cat' (PgIvmImmvRelationId cat st).2
   = PgIvmImmvRelationId cat st)
  ∧ (OidIsValid (PgIvmImmvPrimaryKeyIndexId cat st).1 = true ->
     PgIvmImmvPrimaryKeyIndexId cat' (PgIvmImmvPrimaryKeyIndexId cat st).2
     = PgIvmImmvPrimaryKeyIndexId cat st).
Proof.
  unfold PgIvmImmvRelationId, PgIvmImmvPrimaryKeyIndexId. split.
  - destruct (OidIsValid (pg_ivm_immv_id st)) eqn:Hv; simpl; intros Hvalid.
    + by rewrite Hv.
    + by rewrite Hvalid.
  - destruct (OidIsValid (pg_ivm_immv_pkey_id st)) eqn:Hv; simpl; intros Hvalid.
    + by rewrite Hv.
    + by rewrite Hvalid.
Qed.

Lemma cached_ids_are_never_refreshed_witness :
  PgIvmImmvRelationId sample_catalog_dropped
    (PgIvmImmvRelationId sample_catalog sample_statics).2
  = (5000%N, mkStatics 5000%N InvalidOid)
  ∧ PgIvmImmvPrimaryKeyIndexId sample_catalog_dropped
      (PgIvmImmvPrimaryKeyIndexId sample_catalog sample_statics).2
    = (5001%N, mkStatics InvalidOid 5001%N).
Proof.
  pose proof (cached_ids_are_never_refreshed sample_catalog sample_catalog_dropped
                sample_statics) as Hall.
  destruct Hall as [Hrel Hkey].
  split; [apply Hrel | apply Hkey]; reflexivity.
Defined.

(** X16: a lookup that finds nothing is not remembered.  After a call
    that returned [InvalidOid] the next call asks the catalog again and
    returns what the catalog then holds under the name. *)
Theorem invalid_id_is_looked_up_again cat cat' st :
  (PgIvmImmvRelationId cat st).1 = InvalidOid ->
  (PgIvmImmvRelationId cat' (PgIvmImmvRelationId cat st).2).1
  = get_relname_relid cat' "pg_ivm_immv".
Proof.
  unfold PgIvmImmvRelationId.
  destruct (OidIsValid (pg_ivm_immv_id st)) eqn:Hv; simpl; intros Hinv.
  - apply OidIsValid_ne in Hv. done.
  - by rewrite Hinv.
Qed.

Lemma invalid_id_is_looked_up_again_witness :
  (PgIvmImmvRelationId sample_catalog
     (PgIvmImmvRelationId sample_catalog_dropped sample_statics).2).1
  = 5000%N.
Proof.
  apply (invalid_id_is_looked_up_again sample_catalog_dropped sample_catalog
           sample_statics).
  reflexivity.
Defined.

Lemma systable_getnext_delete cat rel objectId r o :
  systable_getnext (CatalogTupleDelete cat rel objectId) r o
  = if decide ((r, o) = (rel, objectId)) then None else systable_getnext cat r o.
Proof.
  unfold systable_getnext, CatalogTupleDelete. simpl.
  destruct (decide (r = rel)) as [->|Hr].
  - rewrite lookup_alter_eq. destruct (rel_tuples cat !! rel) as [rows|]; simpl.
    + destruct (decide (o = objectId)) as [->|Ho].
      * rewrite lookup_delete_eq. by rewrite decide_True.
      * rewrite lookup_delete_ne by done. rewrite decide_False; [done|congruence].
    + by destruct (decide _).
  - rewrite lookup_alter_ne by done. rewrite decide_False; [done|congruence].
Qed.

(** X17: when a relation is dropped (the whole relation: the class is
    [pg_class] and [subId] is zero) and the hook returns, the row of
    that relation is gone from [pg_ivm_immv], every other row of every
    table is as it was, and nothing else in the catalogs changed. *)
Theorem drop_hook_deletes_the_row prev objectId s st cat st' cat' :
  match prev with Some f => f s | None => (Returned, s) end = (Returned, (st, cat)) ->
  PgIvmObjectAccessHook prev OAT_DROP RelationRelationId objectId 0 s
  = (Returned, (st', cat')) ->
  (PgIvmImmvRelationId cat st).1 ≠ InvalidOid ->
  systable_getnext cat' (PgIvmImmvRelationId cat st).1 objectId = None
  ∧ (∀ r o, (r, o) ≠ ((PgIvmImmvRelationId cat st).1, objectId) ->
            systable_getnext cat' r o = systable_getnext cat r o)
  ∧ pg_class cat' = pg_class cat
  ∧ pg_catalog_names cat' = pg_catalog_names cat.
Proof.
  intros Hprev Hhook Hvalid. unfold PgIvmObjectAccessHook in Hhook.
  rewrite Hprev in Hhook.
  destruct (PgIvmImmvRelationId cat st) as [rel st1].
  destruct (PgIvmImmvPrimaryKeyIndexId cat st1) as [pkey st2].
  simpl in Hhook, Hvalid |- *.
  destruct rel as [|rel]; [done|].
  destruct (table_open cat (N.pos rel)); simpl in Hhook; [|done].
  destruct (index_open cat pkey); simpl in Hhook; [|done].
  destruct (systable_getnext cat (N.pos rel) objectId) as [row|] eqn:Hrow;
    injection Hhook as <- <-.
  - split; [|split; [|done]].
    + rewrite systable_getnext_delete. by rewrite decide_True.
    + intros r o Hne. rewrite systable_getnext_delete. by rewrite decide_False.
  - done.
Qed.

Lemma drop_hook_deletes_the_row_witness :
  systable_getnext
    (PgIvmObjectAccessHook None OAT_DROP RelationRelationId 100%N 0
       (sample_statics, sample_catalog)).2.2 5000%N 100%N
  = None.
Proof.
  pose proof (drop_hook_deletes_the_row None 100%N (sample_statics, sample_catalog)
                sample_statics sample_catalog
                (mkStatics 5000%N 5001%N)
                (PgIvmObjectAccessHook None OAT_DROP RelationRelationId 100%N 0
                   (sample_statics, sample_catalog)).2.2)
    as Hall.
  destruct Hall as [Hgone _].
  - reflexivity.
  - vm_compute. reflexivity.
  - vm_compute. discriminate.
  - exact Hgone.
Defined.

(** X18: in a database without the relation [pg_ivm_immv] the drop of a
    relation goes through the hook without an error and without a
    change, while [isImmv] raises for every OID: it opens the relation
    without looking at the OID it got. *)
Theorem without_the_catalog st cat objectId :
  OidIsValid (pg_ivm_immv_id st) = false ->
  get_relname_relid cat "pg_ivm_immv" = InvalidOid ->
  PgIvmObjectAccessHook None OAT_DROP RelationRelationId objectId 0 (st, cat)
  = (Returned, (st, cat))
  ∧ (isImmv objectId (st, cat)).1 = None.
Proof.
  intros Hv Hname. unfold PgIvmObjectAccessHook, isImmv, PgIvmImmvRelationId.
  rewrite Hv, Hname. simpl.
  assert (pg_ivm_immv_id st = InvalidOid) as Hid.
  { unfold OidIsValid in Hv. apply negb_false_iff in Hv. by apply N.eqb_eq in Hv. }
  split; [|done]. destruct st as [id pkey]. simpl in *. by subst id.
Qed.

Lemma without_the_catalog_witness :
  PgIvmObjectAccessHook None OAT_DROP RelationRelationId 9%N 0
    (sample_statics, sample_catalog_dropped)
  = (Returned, (sample_statics, sample_catalog_dropped))
  ∧ (isImmv 9%N (sample_statics, sample_catalog_dropped)).1 = None.
Proof.
  apply (without_the_catalog sample_statics sample_catalog_dropped 9%N); reflexivity.
Defined.

(** X19: a remembered OID outlives its relation.  Once the OID of
    [pg_ivm_immv] is in the static variable and the relation no longer
    exists, the drop of any relation raises in the hook, and nothing is
    changed. *)
Theorem stale_id_fails_every_drop st cat objectId :
  OidIsValid (pg_ivm_immv_id st) = true ->
  pg_class cat !! pg_ivm_immv_id st = None ->
  PgIvmObjectAccessHook None OAT_DROP RelationRelationId objectId 0 (st, cat)
  = (Raised, (st, cat)).
Proof.
  intros Hv Hgone. unfold PgIvmObjectAccessHook, PgIvmImmvRelationId.
  rewrite Hv. simpl.
  unfold OidIsValid in Hv. apply negb_true_iff in Hv. rewrite Hv.
  unfold table_open. rewrite Hgone. by rewrite andb_false_r.
Qed.

Lemma stale_id_fails_every_drop_witness :
  PgIvmObjectAccessHook None OAT_DROP RelationRelationId 9%N 0
    (mkStatics 5000%N 5001%N, sample_catalog_dropped)
  = (Raised, (mkStatics 5000%N 5001%N, sample_catalog_dropped)).
Proof.
  apply (stale_id_fails_every_drop (mkStatics 5000%N 5001%N) sample_catalog_dropped 9%N);
    reflexivity.
Defined.

(** * The wait loop and an uncontended pass *)

Section WaitLoop.
Context `{Collaborators}.

Lemma polling_step s0 s i ev s1 :
  runningQuery (sys_shmem s0) ≠ 0 ->
  between_rounds s0 ->
  sys_shmem s = sys_shmem s0 ->
  sys_locks s = sys_locks s0 ->
  Forall2 (polled_from (sys_shmem s0)) (procs s0) (procs s) ->
  is_poll_event ev = true ->
  system_step i ev s = Some s1 ->
  sys_shmem s1 = sys_shmem s0
  ∧ sys_locks s1 = sys_locks s0
  ∧ Forall2 (polled_from (sys_shmem s0)) (procs s0) (procs s1).
Proof.
  intros Hrun Hbetween Hsh Hlk Hall Hev Hstep.
  apply system_step_inv in Hstep as (p & w' & Hp & Hb & ->).
  destruct (Forall2_lookup_r _ _ _ _ _ Hall Hp) as (p0 & Hp0 & Hpriv & Hpc).
  assert (∀ c, polled_from (sys_shmem s0) p0 (mkProc (priv p) c) ->
               Forall2 (polled_from (sys_shmem s0)) (procs s0)
                       (<[i := mkProc (priv p) c]> (procs s))) as Hupd.
  { intros c Hc. rewrite <- (list_insert_id (procs s0) i p0 Hp0).
    by apply Forall2_insert. }
  pose proof (Hbetween i p0 Hp0) as Hp0pc.
  destruct ev; try done; simpl in Hb.
  - (* the read *)
    unfold poll_read in Hb. simpl in Hb.
    destruct (pc p) as [|k| | | |] eqn:Hpcp; try done.
    rewrite Hsh in Hb.
    destruct (hash_search k (sys_shmem s0)) as [e|] eqn:He; simpl in Hb; [|done].
    simplify_eq. unfold commit, with_pc. simpl. rewrite ?Hsh, ?Hlk.
    split; [done|]. split; [done|]. apply Hupd. split; [done|]. simpl.
    destruct Hpc as [Hsame|(k' & e' & Hw & He' & [Hpolled|[_ Hout]])]; try congruence.
    right. exists k, e. split; [done|]. split; [done|]. by left.
  - (* the rest of the body *)
    unfold poll_act in Hb. simpl in Hb.
    destruct (pc p) as [| |k st running| | |] eqn:Hpcp; try done.
    destruct Hpc as [Hsame|(k' & e' & Hw & He' & [Hpolled|[_ Hout]])].
    + rewrite <- Hsame in Hp0pc. done.
    + simplify_eq.
      rewrite (bool_decide_eq_false_2 (runningQuery (sys_shmem s0) = 0)) in Hb by done.
      simpl in Hb. unfold commit.
      destruct (decide (status e' = QUERY_AVAILABLE)) as [Hav|Hav].
      * rewrite (bool_decide_eq_true_2 _ Hav) in Hb. simplify_eq. simpl.
        rewrite ?Hsh, ?Hlk. split; [done|]. split; [done|]. apply Hupd.
        split; [done|]. right. do 2 eexists. split; [exact Hw|]. split; [exact He'|].
        by right.
      * rewrite (bool_decide_eq_false_2 _ Hav) in Hb. simplify_eq. simpl.
        rewrite ?Hsh, ?Hlk. split; [done|]. split; [done|]. apply Hupd.
        split; [done|]. by left.
    + congruence.
Qed.

Lemma polled_from_refl s0 l : Forall2 (polled_from s0) l l.
Proof. apply Forall2_same_length_lookup_2; [done|]. intros i p p' ? ?. simplify_eq. split; [done|by left]. Qed.

Lemma polling_trace s0 tr : ∀ s s',
  runningQuery (sys_shmem s0) ≠ 0 ->
  between_rounds s0 ->
  sys_shmem s = sys_shmem s0 ->
  sys_locks s = sys_locks s0 ->
  Forall2 (polled_from (sys_shmem s0)) (procs s0) (procs s) ->
  Forall (fun je => is_poll_event je.2 = true) tr ->
  run_trace tr s = Some s' ->
  sys_shmem s' = sys_shmem s0
  ∧ sys_locks s' = sys_locks s0
  ∧ Forall2 (polled_from (sys_shmem s0)) (procs s0) (procs s').
Proof.
  induction tr as [|[i ev] tr IH]; intros s s' Hrun Hbetween Hsh Hlk Hall Hevs Htr;
    simpl in Htr.
  - by simplify_eq.
  - destruct (system_step i ev s) as [s1|] eqn:Hstep; [|done]. simpl in Htr.
    apply Forall_cons in Hevs as [Hev Hevs]. simpl in Hev.
    destruct (polling_step s0 s i ev s1 Hrun Hbetween Hsh Hlk Hall Hev Hstep)
      as (Hsh1 & Hlk1 & Hall1).
    by apply (IH s1 s').
Qed.

(** X20: while the counter of running queries is not zero, polling
    repairs nothing.  However the wait loops of the backends take
    turns, the shared segment and the lock table stay exactly as they
    are, and a backend whose record is not available is still in its
    wait loop afterwards: only a cleanup or a retreat by some other
    backend lets it go on. *)
Theorem polling_changes_nothing tr s s' :
  runningQuery (sys_shmem s) ≠ 0 ->
  between_rounds s ->
  Forall (fun je => is_poll_event je.2 = true) tr ->
  run_trace tr s = Some s' ->
  sys_shmem s' = sys_shmem s
  ∧ sys_locks s' = sys_locks s
  ∧ ∀ i p k e,
      procs s !! i = Some p ->
      pc p = PcWaiting k ->
      hash_search k (sys_shmem s) = Some e ->
      status e ≠ QUERY_AVAILABLE ->
      ∃ p', procs s' !! i = Some p' ∧ priv p' = priv p ∧ waits_on k (pc p').
Proof.
  intros Hrun Hbetween Hevs Htr.
  destruct (polling_trace s tr s s' Hrun Hbetween eq_refl eq_refl
              (polled_from_refl _ _) Hevs Htr) as (Hsh & Hlk & Hall).
  split; [done|]. split; [done|].
  intros i p k e Hp Hpc He Hav.
  destruct (Forall2_lookup_l _ _ _ _ _ Hall Hp) as (p' & Hp' & Hpriv & Hrel).
  exists p'. split; [done|]. split; [done|].
  destruct Hrel as [Hsame|(k' & e' & Hw & He' & [Hpolled|[Hav' Hout]])].
  - left. congruence.
  - right. assert (k' = k) as -> by congruence. eauto.
  - assert (k' = k) as -> by congruence. congruence.
Qed.

(** One turn of an uncontended pass with every request granted and
    every base table below [2^31]: the loops are left by return only. *)
Lemma lock_loops_turn_uncontended me w k e :
  (∀ immv r, getRefrenceImmv immv = Some r -> small_oids r) ->
  in_lock_loops (pc (proc w)) = true ->
  pc_key (pc (proc w)) = Some k ->
  hash_search k (shmem w) = Some e ->
  uncontended me (priv (proc w)) (locktable w) ->
  pc_small_oids (pc (proc w)) ->
  ∃ w', lock_loops_turn me true w = Some w'
        ∧ shmem w' = shmem w
        ∧ priv (proc w') = priv (proc w)
        ∧ uncontended me (priv (proc w')) (locktable w')
        ∧ pc_small_oids (pc (proc w'))
        ∧ (pc (proc w') = PcIdle
           ∨ (in_lock_loops (pc (proc w')) = true
              ∧ pc_key (pc (proc w')) = Some k
              ∧ (turns_left (affected_tables e) (pc (proc w'))
                 < turns_left (affected_tables e) (pc (proc w)))%nat)).
Proof.
  intros Hidx Hin Hkey He Hun Hsmall. unfold lock_loops_turn.
  destruct (pc (proc w)) as [|?|? ? ?|k' newly i|k' newly i r j|] eqn:Hpc;
    try done; simpl in Hkey; simplify_eq.
  - unfold lock_outer. rewrite Hpc, He. simpl.
    destruct (decide (i < MAX_AFFECTED_TABLE)%nat) as [Hi|Hi].
    + rewrite (bool_decide_eq_true_2 _ Hi). simpl.
      destruct (default InvalidOid (affected_tables e !! i) =? 0)%N eqn:Hz; simpl.
      { eexists; split; [done|]. repeat (split; [done|]). by left. }
      assert (MAX_AFFECTED_TABLE - i = S (MAX_AFFECTED_TABLE - S i))%nat as Hn by lia.
      destruct (getRefrenceImmv (default InvalidOid (affected_tables e !! i)))
        as [r|] eqn:Hr.
      * eexists; split; [done|]. do 3 (split; [done|]).
        split; [simpl; by eapply Hidx|]. right. simpl.
        split; [done|]. split; [done|]. rewrite Hn. simpl.
        unfold refed_num, affected_at. rewrite Hr. lia.
      * eexists; split; [done|]. repeat (split; [done|]). right. simpl.
        split; [done|]. split; [done|]. rewrite Hn. simpl. lia.
    + rewrite (bool_decide_eq_false_2 _ Hi). simpl.
      eexists; split; [done|]. repeat (split; [done|]). by left.
  - unfold lock_inner. rewrite Hpc. simpl in Hsmall.
    destruct (decide (j < refed_table_num r)%nat) as [Hj|Hj].
    + rewrite (bool_decide_eq_true_2 _ Hj).
      destruct (LockHeldByMe _ _ _).
      { eexists; split; [done|]. repeat (split; [done|]). right. simpl.
        split; [done|]. split; [done|]. lia. }
      set (relid := default InvalidOid (refed_table r !! j)).
      assert (∃ n, ConditionalLockRelationOid me (priv (proc w)) relid true (locktable w)
                   = (true, <[SetLocktagRelationOid (priv (proc w)) relid := (me, n)]>
                              (locktable w))) as [n ->].
      { unfold ConditionalLockRelationOid, LockAcquireConditional.
        destruct (locktable w !! _) as [[p n]|] eqn:Hlk; [|by eexists].
        rewrite (Hun _ _ _ Hlk). rewrite bool_decide_eq_true_2 by done. by eexists. }
      assert (bms_add_member newly relid = Some (bms_insert newly relid)) as ->.
      { unfold bms_add_member. specialize (Hsmall j Hj). unfold refed_at in Hsmall.
        fold relid in Hsmall. by rewrite (proj2 (N.ltb_lt _ _) Hsmall). }
      eexists; split; [done|]. simpl. split; [done|]. split; [done|]. split.
      * intros relid' p n' Hlk.
        destruct (decide (SetLocktagRelationOid (priv (proc w)) relid'
                          = SetLocktagRelationOid (priv (proc w)) relid)) as [Heq|Hne].
        -- rewrite Heq, lookup_insert_eq in Hlk. by simplify_eq.
        -- rewrite lookup_insert_ne in Hlk by done. by eapply Hun.
      * split; [done|]. right. split; [done|]. split; [done|]. lia.
    + rewrite (bool_decide_eq_false_2 _ Hj).
      eexists; split; [done|]. repeat (split; [done|]). right. simpl.
      split; [done|]. split; [done|]. lia.
Qed.

Lemma run_lock_loops_uncontended me fuel : ∀ w k e,
  (∀ immv r, getRefrenceImmv immv = Some r -> small_oids r) ->
  in_lock_loops (pc (proc w)) = true ->
  pc_key (pc (proc w)) = Some k ->
  hash_search k (shmem w) = Some e ->
  uncontended me (priv (proc w)) (locktable w) ->
  pc_small_oids (pc (proc w)) ->
  (turns_left (affected_tables e) (pc (proc w)) <= fuel)%nat ->
  pc (proc (run_lock_loops me (fun _ => true) fuel w)) = PcIdle
  ∧ shmem (run_lock_loops me (fun _ => true) fuel w) = shmem w.
Proof.
  induction fuel as [|fuel IH]; intros w k e Hidx Hin Hkey He Hun Hsmall Hfuel.
  - exfalso.
    destruct (pc (proc w)) as [| | |k' newly i|k' newly i r j|]; try done;
      simpl in Hfuel.
    + pose proof (turns_from_pos (affected_tables e) i (MAX_AFFECTED_TABLE - i)). lia.
    + lia.
  - simpl.
    destruct (lock_loops_turn_uncontended me w k e Hidx Hin Hkey He Hun Hsmall)
      as (w' & Hturn & Hsh & Hpriv & Hun' & Hsmall' & [Hidle|(Hin' & Hkey' & Hlt)]);
      rewrite Hturn.
    + rewrite run_lock_loops_outside by (by rewrite Hidle). done.
    + rewrite <- Hsh. apply (IH w' k e); try done; [by rewrite Hsh | lia].
Qed.

(** X21: a pass that meets no other backend succeeds.  When every base
    table of the dependency index has an OID below [2^31], nobody else
    holds the lock of any relation and the lock manager grants every
    request, the two loops end by returning from the hook, never by
    retreat or error, and leave the shared segment untouched. *)
Theorem uncontended_pass_returns me fuel w k e :
  (∀ immv r, getRefrenceImmv immv = Some r -> small_oids r) ->
  pc (proc w) = PcLockOuter k [] 0 ->
  hash_search k (shmem w) = Some e ->
  uncontended me (priv (proc w)) (locktable w) ->
  (lock_loops_bound (affected_tables e) <= fuel)%nat ->
  pc (proc (run_lock_loops me (fun _ => true) fuel w)) = PcIdle
  ∧ shmem (run_lock_loops me (fun _ => true) fuel w) = shmem w.
Proof.
  intros Hidx Hpc He Hun Hfuel.
  apply (run_lock_loops_uncontended me fuel w k e); try done.
  - by rewrite Hpc.
  - by rewrite Hpc.
  - by rewrite Hpc.
  - rewrite Hpc. simpl. by rewrite Nat.sub_0_r.
Qed.

End WaitLoop.

Lemma polling_changes_nothing_witness :
  sys_shmem (sample_after sample_polls sample_cap_reached) = sys_shmem sample_cap_reached
  ∧ sys_locks (sample_after sample_polls sample_cap_reached) = sys_locks sample_cap_reached.
Proof.
  pose proof (polling_changes_nothing (H := sample) sample_polls sample_cap_reached
                (sample_after sample_polls sample_cap_reached)) as Hall.
  destruct Hall as [Hsh [Hlk _]].
  - vm_compute. discriminate.
  - intros i p Hp.
    destruct i as [|[|i]]; vm_compute in Hp; [by simplify_eq..|discriminate].
  - repeat constructor.
  - vm_compute. reflexivity.
  - split; [exact Hsh | exact Hlk].
Defined.

Lemma sample_small_oids immv r : sample_index immv = Some r -> small_oids r.
Proof.
  unfold sample_index. intros Hr j _. unfold refed_at.
  destruct (immv =? 100)%N; [injection Hr as <-|].
  { do 3 (destruct j as [|j]; [reflexivity|]). reflexivity. }
  destruct (immv =? 200)%N; [injection Hr as <-|].
  { destruct j as [|j]; reflexivity. }
  destruct (immv =? 300)%N; [injection Hr as <-|discriminate].
  destruct j as [|j]; reflexivity.
Qed.

Lemma uncontended_pass_returns_witness :
  pc (proc (run_lock_loops (H := sample) 1%N (fun _ => true) 13
              sample_world_B_at_pass))
  = PcIdle.
Proof.
  apply (uncontended_pass_returns (H := sample) 1%N 13
           sample_world_B_at_pass sample_keyB
           (mkEntry sample_keyB QUERY_AVAILABLE [200%N] 1%N 1%N)).
  - exact sample_small_oids.
  - vm_compute. reflexivity.
  - vm_compute. reflexivity.
  - intros relid p n Hlk. vm_compute in Hlk. discriminate.
  - vm_compute. lia.
Defined.
